(** * Curves3D: parametric curves and the circle pipeline of [main]

    A shallow embedding of [Curves3D.cpp].

    - [double].  The C++ type is read through one interface, [DoubleOps],
      with two instances.  [binary64] is IEEE 754 binary64 with
      round-to-nearest-even, carried by Rocq's primitive floats: what the
      compiled program computes (strict [double] evaluation).  [cos] and [sin]
      come from the platform's [<cmath>] and are parameters of the instance.
      [exact_reals] is the real numbers with the real cosine, sine and pi:
      the idealised reading, used by statements made over exact arithmetic.
      The classes, their constructors and member functions, and the loops
      of [main] are written once, over the interface.
    - [std::shared_ptr].  Objects are immutable, so a pointer is the address
      of its object together with the object.
    - [std::sort].  Library code, read in two ways.  By its contract:
      afterwards the range holds the same elements, sorted with respect to
      the comparison ([std_sort], a relation between the range before and
      after).  And as the standard library of GCC implements it ([std.sort],
      a function), which fixes what the contract leaves open: where elements
      that the comparison does not separate end up. *)

From Stdlib Require Import Bool ZArith Lia List Permutation Sorted.
From Stdlib Require Import Floats Reals Lra.
Import ListNotations.

(** ** The arithmetic of [double] *)

Class DoubleOps (D : Type) : Type := {
  lit_0 : D;                 (* the literal 0.0 *)
  lit_1 : D;                 (* the literal 1.0 *)
  lit_2 : D;                 (* the int literal 2, converted to double *)
  dadd : D -> D -> D;
  dsub : D -> D -> D;
  dmul : D -> D -> D;
  ddiv : D -> D -> D;
  dneg : D -> D;
  dlt : D -> D -> bool;      (* operator< *)
  dcos : D -> D;             (* cos of <cmath> *)
  dsin : D -> D;             (* sin of <cmath> *)
  M_PI : D
}.

Declare Scope double_scope.
Delimit Scope double_scope with dbl.
Notation "a + b" := (dadd a b) : double_scope.
Notation "a - b" := (dsub a b) : double_scope.
Notation "a * b" := (dmul a b) : double_scope.
Notation "a / b" := (ddiv a b) : double_scope.
Notation "- a" := (dneg a) : double_scope.
Notation "a <? b" := (dlt a b) : double_scope.
Notation "a >? b" := (dlt b a) : double_scope.

(** IEEE 754 binary64.  [M_PI] is the double nearest to
    3.14159265358979323846, the value of the macro. *)
Definition binary64 (libm_cos libm_sin : float -> float) : DoubleOps float := {|
  lit_0 := 0%float;
  lit_1 := 1%float;
  lit_2 := 2%float;
  dadd := PrimFloat.add;
  dsub := PrimFloat.sub;
  dmul := PrimFloat.mul;
  ddiv := PrimFloat.div;
  dneg := PrimFloat.opp;
  dlt := PrimFloat.ltb;
  dcos := libm_cos;
  dsin := libm_sin;
  M_PI := 0x1.921fb54442d18p+1%float
|}.

Definition Rltb (a b : R) : bool := if Rlt_dec a b then true else false.

(** Exact real arithmetic. *)
Definition exact_reals : DoubleOps R := {|
  lit_0 := 0%R;
  lit_1 := 1%R;
  lit_2 := 2%R;
  dadd := Rplus;
  dsub := Rminus;
  dmul := Rmult;
  ddiv := Rdiv;
  dneg := Ropp;
  dlt := Rltb;
  dcos := cos;
  dsin := sin;
  M_PI := PI
|}.

(** A small [cos]/[sin] pair (Taylor polynomials in binary64), used where a
    closed example needs some concrete [<cmath>].  Like every conforming
    library it returns [cos 0 = 1] and [sin 0 = 0] exactly. *)
Definition poly_cos (t : float) : float :=
  (1 - t * t / 2 + t * t * t * t / 24)%float.

Definition poly_sin (t : float) : float :=
  (t - t * t * t / 6)%float.

Definition binary64_poly : DoubleOps float := binary64 poly_cos poly_sin.

(** A double that stands for a real number: neither an infinity nor NaN. *)
Definition is_real (a : float) : bool :=
  match Prim2SF a with
  | S754_zero _ | S754_finite _ _ _ => true
  | S754_infinity _ | S754_nan => false
  end.

(** ** The classes *)

Section Curves.

Context {D : Type} {ops : DoubleOps D}.
Local Open Scope double_scope.

(** [struct Vec3 { double x, y, z; }] *)
Record Vec3 : Type := { x : D; y : D; z : D }.

(** [class Circle]: the private member [r]. *)
Record Circle : Type := { Circle_r : D }.

(** [explicit Circle(double radius) : r(radius > 0 ? radius : 1.0) {}] *)
Definition Circle_ctor (radius : D) : Circle :=
  {| Circle_r := if radius >? lit_0 then radius else lit_1 |}.

Definition getRadius (c : Circle) : D := Circle_r c.

Definition Circle_getPoint (c : Circle) (t : D) : Vec3 :=
  {| x := Circle_r c * dcos t; y := Circle_r c * dsin t; z := lit_0 |}.

Definition Circle_getDerivative (c : Circle) (t : D) : Vec3 :=
  {| x := - Circle_r c * dsin t; y := Circle_r c * dcos t; z := lit_0 |}.

(** [class Ellipse]: the private members [rx], [ry]. *)
Record Ellipse : Type := { Ellipse_rx : D; Ellipse_ry : D }.

Definition Ellipse_ctor (rx_ ry_ : D) : Ellipse :=
  {| Ellipse_rx := if rx_ >? lit_0 then rx_ else lit_1;
     Ellipse_ry := if ry_ >? lit_0 then ry_ else lit_1 |}.

Definition Ellipse_getPoint (e : Ellipse) (t : D) : Vec3 :=
  {| x := Ellipse_rx e * dcos t; y := Ellipse_ry e * dsin t; z := lit_0 |}.

Definition Ellipse_getDerivative (e : Ellipse) (t : D) : Vec3 :=
  {| x := - Ellipse_rx e * dsin t; y := Ellipse_ry e * dcos t; z := lit_0 |}.

(** [class Helix]: the private members [r], [step]. *)
Record Helix : Type := { Helix_r : D; Helix_step : D }.

Definition Helix_ctor (radius step_ : D) : Helix :=
  {| Helix_r := if radius >? lit_0 then radius else lit_1;
     Helix_step := step_ |}.

Definition Helix_getPoint (h : Helix) (t : D) : Vec3 :=
  {| x := Helix_r h * dcos t;
     y := Helix_r h * dsin t;
     z := Helix_step h * t / (lit_2 * M_PI) |}.

Definition Helix_getDerivative (h : Helix) (t : D) : Vec3 :=
  {| x := - Helix_r h * dsin t;
     y := Helix_r h * dcos t;
     z := Helix_step h / (lit_2 * M_PI) |}.

(** [class Curve]: an object seen through the abstract base is one of the
    three derived classes; the virtual calls dispatch on it. *)
Inductive Curve : Type :=
| IsCircle (c : Circle)
| IsEllipse (e : Ellipse)
| IsHelix (h : Helix).

Definition getPoint (c : Curve) (t : D) : Vec3 :=
  match c with
  | IsCircle c => Circle_getPoint c t
  | IsEllipse e => Ellipse_getPoint e t
  | IsHelix h => Helix_getPoint h t
  end.

Definition getDerivative (c : Curve) (t : D) : Vec3 :=
  match c with
  | IsCircle c => Circle_getDerivative c t
  | IsEllipse e => Ellipse_getDerivative e t
  | IsHelix h => Helix_getDerivative h t
  end.

(** Objects that the program can hold: those built by a constructor call. *)
Definition constructed_circle (c : Circle) : Prop :=
  exists radius, c = Circle_ctor radius.

Inductive constructed : Curve -> Prop :=
| constructed_Circle radius :
    constructed (IsCircle (Circle_ctor radius))
| constructed_Ellipse rx_ ry_ :
    constructed (IsEllipse (Ellipse_ctor rx_ ry_))
| constructed_Helix radius step_ :
    constructed (IsHelix (Helix_ctor radius step_)).

End Curves.

Arguments Vec3 D : clear implicits.
Arguments Circle D : clear implicits.
Arguments Ellipse D : clear implicits.
Arguments Helix D : clear implicits.
Arguments Curve D : clear implicits.

(** ** Shared pointers

    The objects are immutable, so a [shared_ptr] is modelled by the address
    of the object it shares together with the object found there.  Two
    pointers to the same object have the same address; two objects of equal
    content made by two [make_shared] calls differ in their address. *)
Record shared_ptr (T : Type) : Type := { address : nat; pointee : T }.

Arguments address {T} _.
Arguments pointee {T} _.
Arguments Build_shared_ptr {T} _ _.

Definition make_shared {T : Type} (where_ : nat) (obj : T) : shared_ptr T :=
  {| address := where_; pointee := obj |}.

Section Pipeline.

Context {D : Type} {ops : DoubleOps D}.
Local Open Scope double_scope.

(** [std::dynamic_pointer_cast<Circle>(c)]: the same object as a [Circle]
    when it is one, a null pointer otherwise. *)
Definition dynamic_pointer_cast_Circle (c : shared_ptr (Curve D))
  : option (shared_ptr (Circle D)) :=
  match pointee c with
  | IsCircle circle => Some {| address := address c; pointee := circle |}
  | _ => None
  end.

(** The conversion back from [shared_ptr<Circle>] to [shared_ptr<Curve>]. *)
Definition as_Curve (c : shared_ptr (Circle D)) : shared_ptr (Curve D) :=
  {| address := address c; pointee := IsCircle (pointee c) |}.

Definition is_Circle (c : shared_ptr (Curve D)) : bool :=
  match pointee c with
  | IsCircle _ => true
  | _ => false
  end.

(** [main], step (4): the loop that pushes every circle of [curves] to the
    back of [circles]. *)
Definition extract_circles (curves : list (shared_ptr (Curve D)))
  : list (shared_ptr (Circle D)) :=
  fold_left
    (fun circles c =>
       match dynamic_pointer_cast_Circle c with
       | Some circle => circles ++ [circle]
       | None => circles
       end)
    curves [].

(** [main], step (5): the comparison handed to [std::sort]. *)
Definition by_radius (a b : shared_ptr (Circle D)) : bool :=
  getRadius (pointee a) <? getRadius (pointee b).

(** "Sorted with respect to [comp]" as the C++ standard defines it: for every
    position [i] and every [n >= 0], [comp] does not hold of the element at
    [i + n] and the element at [i]. *)
Fixpoint is_sorted {T : Type} (comp : T -> T -> bool) (l : list T) : bool :=
  match l with
  | [] => true
  | a :: rest =>
      forallb (fun b => negb (comp b a)) (a :: rest) && is_sorted comp rest
  end.

(** [std::sort(first, last, comp)] is library code; the program relies on
    its contract: the range holds the same elements afterwards, sorted with
    respect to [comp].  Nothing is promised about the order of elements that
    [comp] does not separate. *)
Definition std_sort {T : Type} (comp : T -> T -> bool)
  (before after : list T) : Prop :=
  Permutation before after /\ is_sorted comp after = true.

(** One algorithm that honours the contract: straight insertion, walking past
    equivalent elements. *)
Fixpoint insert_by {T : Type} (comp : T -> T -> bool) (a : T) (l : list T)
  : list T :=
  match l with
  | [] => [a]
  | b :: rest => if comp a b then a :: b :: rest
                 else b :: insert_by comp a rest
  end.

Definition insertion_sort {T : Type} (comp : T -> T -> bool) (l : list T)
  : list T :=
  fold_left (fun sorted a => insert_by comp a sorted) l [].

(** Elements that [comp] does not separate. *)
Definition equivalent {T : Type} (comp : T -> T -> bool) (a b : T) : bool :=
  negb (comp a b) && negb (comp b a).

(** A stable outcome keeps, for every element, the elements equivalent to it
    in the order they had before. *)
Definition stable {T : Type} (comp : T -> T -> bool)
  (before after : list T) : Prop :=
  forall a, In a before ->
    filter (equivalent comp a) after = filter (equivalent comp a) before.

(** What [std::sort] requires of [comp] on the elements it is given: a strict
    weak ordering. *)
Definition strict_weak_ordering_on {T : Type} (comp : T -> T -> bool)
  (l : list T) : Prop :=
  (forall a, In a l -> comp a a = false)
  /\ (forall a b c, In a l -> In b l -> In c l ->
        comp a b = true -> comp b c = true -> comp a c = true)
  /\ (forall a b c, In a l -> In b l -> In c l ->
        equivalent comp a b = true -> equivalent comp b c = true ->
        equivalent comp a c = true).

(** [main], step (6): [sum = 0.0; for (c : circles) sum += c->getRadius()]. *)
Definition sum_radii (circles : list (shared_ptr (Circle D))) : D :=
  fold_left (fun sum c => sum + getRadius (pointee c)) circles lit_0.

Definition radii (circles : list (shared_ptr (Circle D))) : list D :=
  map (fun c => getRadius (pointee c)) circles.

End Pipeline.

(** ** [std::sort] as the library implements it

    [main] is built against the C++ standard library; the one shipped with
    GCC (libstdc++ 12, headers [bits/stl_algo.h] and [bits/stl_heap.h])
    implements [std::sort] as an introsort: quicksort by median of three
    down to ranges of sixteen elements, heapsort when the recursion gets
    deeper than twice the logarithm of the length, and one final pass of
    straight insertion.  The functions below are that code, function by
    function and under the library's names.

    The vector is a list and an iterator is a position counted from
    [begin()], a [Z] as [ptrdiff_t] is signed.  Reading or writing outside
    the vector has no defined behaviour in C++: here it yields [None].  Each
    loop carries a bound on its number of turns; running into the bound
    yields [None] as well. *)

Notation "x <- e ;; k" := (match e with Some x => k | None => None end)
  (at level 61, e at next level, right associativity, only parsing).

Module std.

Section Sort.

Context {T : Type}.
Variable comp : T -> T -> bool.

Local Open Scope Z_scope.

(** Reading through an iterator. *)
Definition deref (v : list T) (i : Z) : option T :=
  if i <? 0 then None else nth_error v (Z.to_nat i).

(** Assigning through an iterator. *)
Definition assign (v : list T) (i : Z) (value : T) : option (list T) :=
  match deref v i with
  | Some _ => Some (firstn (Z.to_nat i) v ++ value :: skipn (S (Z.to_nat i)) v)
  | None => None
  end.

Definition iter_swap (v : list T) (a b : Z) : option (list T) :=
  xa <- deref v a ;;
  xb <- deref v b ;;
  v <- assign v a xb ;;
  assign v b xa.

(** [bits/stl_heap.h], [__push_heap]: the hole climbs while its parent is
    below [value]. *)
Fixpoint __push_heap_loop (fuel : nat) (v : list T)
  (first holeIndex topIndex : Z) (value : T) : option (list T) :=
  match fuel with
  | O => None
  | S fuel =>
      let parent := Z.quot (holeIndex - 1) 2 in
      if holeIndex >? topIndex then
        at_parent <- deref v (first + parent) ;;
        if comp at_parent value then
          v <- assign v (first + holeIndex) at_parent ;;
          __push_heap_loop fuel v first parent topIndex value
        else assign v (first + holeIndex) value
      else assign v (first + holeIndex) value
  end.

Definition __push_heap (v : list T) (first holeIndex topIndex : Z) (value : T)
  : option (list T) :=
  __push_heap_loop (S (length v)) v first holeIndex topIndex value.

(** [__adjust_heap]: the hole sinks to the bottom along the larger children,
    then [value] is pushed up from there. *)
Fixpoint __adjust_heap_loop (fuel : nat) (v : list T)
  (first holeIndex len secondChild : Z) : option (list T * Z * Z) :=
  match fuel with
  | O => None
  | S fuel =>
      if secondChild <? Z.quot (len - 1) 2 then
        let secondChild := 2 * (secondChild + 1) in
        right_child <- deref v (first + secondChild) ;;
        left_child <- deref v (first + (secondChild - 1)) ;;
        let secondChild :=
          if comp right_child left_child then secondChild - 1
          else secondChild in
        moved <- deref v (first + secondChild) ;;
        v <- assign v (first + holeIndex) moved ;;
        __adjust_heap_loop fuel v first secondChild len secondChild
      else Some (v, holeIndex, secondChild)
  end.

Definition __adjust_heap (v : list T) (first holeIndex len : Z) (value : T)
  : option (list T) :=
  let topIndex := holeIndex in
  r <- __adjust_heap_loop (S (length v)) v first holeIndex len holeIndex ;;
  let '(v, holeIndex, secondChild) := r in
  if (Z.land len 1 =? 0) && (secondChild =? Z.quot (len - 2) 2) then
    let secondChild := 2 * (secondChild + 1) in
    moved <- deref v (first + (secondChild - 1)) ;;
    v <- assign v (first + holeIndex) moved ;;
    __push_heap v first (secondChild - 1) topIndex value
  else __push_heap v first holeIndex topIndex value.

Definition __pop_heap (v : list T) (first last result : Z) : option (list T) :=
  value <- deref v result ;;
  at_first <- deref v first ;;
  v <- assign v result at_first ;;
  __adjust_heap v first 0 (last - first) value.

Fixpoint __make_heap_loop (fuel : nat) (v : list T) (first len parent : Z)
  : option (list T) :=
  match fuel with
  | O => None
  | S fuel =>
      value <- deref v (first + parent) ;;
      v <- __adjust_heap v first parent len value ;;
      if parent =? 0 then Some v
      else __make_heap_loop fuel v first len (parent - 1)
  end.

Definition __make_heap (v : list T) (first last : Z) : option (list T) :=
  if last - first <? 2 then Some v
  else
    let len := last - first in
    __make_heap_loop (S (length v)) v first len (Z.quot (len - 2) 2).

Fixpoint __sort_heap_loop (fuel : nat) (v : list T) (first last : Z)
  : option (list T) :=
  match fuel with
  | O => None
  | S fuel =>
      if last - first >? 1 then
        let last := last - 1 in
        v <- __pop_heap v first last last ;;
        __sort_heap_loop fuel v first last
      else Some v
  end.

Definition __sort_heap (v : list T) (first last : Z) : option (list T) :=
  __sort_heap_loop (S (length v)) v first last.

(** [bits/stl_algo.h], [__move_median_to_first]: the median of the elements
    at [a], [b] and [c] goes to [result]. *)
Definition __move_median_to_first (v : list T) (result a b c : Z)
  : option (list T) :=
  xa <- deref v a ;;
  xb <- deref v b ;;
  xc <- deref v c ;;
  if comp xa xb then
    if comp xb xc then iter_swap v result b
    else if comp xa xc then iter_swap v result c
    else iter_swap v result a
  else if comp xa xc then iter_swap v result a
  else if comp xb xc then iter_swap v result c
  else iter_swap v result b.

Fixpoint __heap_select_loop (fuel : nat) (v : list T)
  (first middle last i : Z) : option (list T) :=
  match fuel with
  | O => None
  | S fuel =>
      if i <? last then
        xi <- deref v i ;;
        xfirst <- deref v first ;;
        v <- (if comp xi xfirst then __pop_heap v first middle i else Some v) ;;
        __heap_select_loop fuel v first middle last (i + 1)
      else Some v
  end.

Definition __heap_select (v : list T) (first middle last : Z)
  : option (list T) :=
  v <- __make_heap v first middle ;;
  __heap_select_loop (S (length v)) v first middle last middle.

(** [__unguarded_linear_insert]: the element at [last] moves down past every
    element it is below.  Nothing but the comparison stops the walk at the
    beginning of the range. *)
Fixpoint __unguarded_linear_insert_loop (fuel : nat) (v : list T) (val : T)
  (last next : Z) : option (list T) :=
  match fuel with
  | O => None
  | S fuel =>
      at_next <- deref v next ;;
      if comp val at_next then
        v <- assign v last at_next ;;
        __unguarded_linear_insert_loop fuel v val next (next - 1)
      else assign v last val
  end.

Definition __unguarded_linear_insert (v : list T) (last : Z)
  : option (list T) :=
  val <- deref v last ;;
  __unguarded_linear_insert_loop (S (length v)) v val last (last - 1).

(** [std::move_backward(first, last, result)], from the back. *)
Fixpoint move_backward (fuel : nat) (v : list T) (first last result : Z)
  : option (list T) :=
  match fuel with
  | O => None
  | S fuel =>
      if last - first >? 0 then
        moved <- deref v (last - 1) ;;
        v <- assign v (result - 1) moved ;;
        move_backward fuel v first (last - 1) (result - 1)
      else Some v
  end.

(** [__insertion_sort]: an element below the first one goes to the front, any
    other is inserted by the unguarded walk. *)
Fixpoint __insertion_sort_loop (fuel : nat) (v : list T) (first last i : Z)
  : option (list T) :=
  match fuel with
  | O => None
  | S fuel =>
      if i =? last then Some v
      else
        xi <- deref v i ;;
        xfirst <- deref v first ;;
        v <- (if comp xi xfirst then
                v <- move_backward (S (length v)) v first i (i + 1) ;;
                assign v first xi
              else __unguarded_linear_insert v i) ;;
        __insertion_sort_loop fuel v first last (i + 1)
  end.

Definition __insertion_sort (v : list T) (first last : Z) : option (list T) :=
  if first =? last then Some v
  else __insertion_sort_loop (S (length v)) v first last (first + 1).

Fixpoint __unguarded_insertion_sort_loop (fuel : nat) (v : list T)
  (last i : Z) : option (list T) :=
  match fuel with
  | O => None
  | S fuel =>
      if i =? last then Some v
      else
        v <- __unguarded_linear_insert v i ;;
        __unguarded_insertion_sort_loop fuel v last (i + 1)
  end.

Definition __unguarded_insertion_sort (v : list T) (first last : Z)
  : option (list T) :=
  __unguarded_insertion_sort_loop (S (length v)) v last first.

Definition _S_threshold : Z := 16.

Definition __final_insertion_sort (v : list T) (first last : Z)
  : option (list T) :=
  if last - first >? _S_threshold then
    v <- __insertion_sort v first (first + _S_threshold) ;;
    __unguarded_insertion_sort v (first + _S_threshold) last
  else __insertion_sort v first last.

(** [__unguarded_partition]: its two inner loops, [while (comp(first, pivot))
    ++first] and [while (comp(pivot, last)) --last]. *)
Fixpoint scan_up (fuel : nat) (v : list T) (first pivot : Z) : option Z :=
  match fuel with
  | O => None
  | S fuel =>
      at_first <- deref v first ;;
      at_pivot <- deref v pivot ;;
      if comp at_first at_pivot then scan_up fuel v (first + 1) pivot
      else Some first
  end.

Fixpoint scan_down (fuel : nat) (v : list T) (pivot last : Z) : option Z :=
  match fuel with
  | O => None
  | S fuel =>
      at_pivot <- deref v pivot ;;
      at_last <- deref v last ;;
      if comp at_pivot at_last then scan_down fuel v pivot (last - 1)
      else Some last
  end.

Fixpoint __unguarded_partition (fuel : nat) (v : list T)
  (first last pivot : Z) : option (list T * Z) :=
  match fuel with
  | O => None
  | S fuel =>
      first <- scan_up (S (length v)) v first pivot ;;
      let last := last - 1 in
      last <- scan_down (S (length v)) v pivot last ;;
      if negb (first <? last) then Some (v, first)
      else
        v <- iter_swap v first last ;;
        __unguarded_partition fuel v (first + 1) last pivot
  end.

Definition __unguarded_partition_pivot (v : list T) (first last : Z)
  : option (list T * Z) :=
  let mid := first + Z.quot (last - first) 2 in
  v <- __move_median_to_first v first (first + 1) mid (last - 1) ;;
  __unguarded_partition (S (length v)) v (first + 1) last first.

Definition __partial_sort (v : list T) (first middle last : Z)
  : option (list T) :=
  v <- __heap_select v first middle last ;;
  __sort_heap v first middle.

(** [__introsort_loop]: [while (last - first > 16)], with the recursive call
    on the upper part and the loop going on with the lower part.  Every turn
    of the loop takes one off [depth_limit]. *)
Fixpoint __introsort_loop (depth_limit : nat) (v : list T) (first last : Z)
  : option (list T) :=
  if last - first >? _S_threshold then
    match depth_limit with
    | O => __partial_sort v first last last
    | S depth_limit =>
        r <- __unguarded_partition_pivot v first last ;;
        let '(v, cut) := r in
        v <- __introsort_loop depth_limit v cut last ;;
        __introsort_loop depth_limit v first cut
    end
  else Some v.

(** [std::__lg(n)]: the position of the highest bit set. *)
Definition __lg (n : Z) : Z := Z.log2 n.

Definition __sort (v : list T) (first last : Z) : option (list T) :=
  if first =? last then Some v
  else
    v <- __introsort_loop (Z.to_nat (__lg (last - first) * 2)) v first last ;;
    __final_insertion_sort v first last.

(** [std::sort(v.begin(), v.end(), comp)]. *)
Definition sort (v : list T) : option (list T) :=
  __sort v 0 (Z.of_nat (length v)).

End Sort.

End std.

(** What the insertion pass does to the sorted front of the range, as
    functions on lists.  [linear_insert] is the unguarded walk: [None] when
    every element of [pre] is above [val], so that the walk would leave the
    range. *)
Fixpoint linear_insert {T : Type} (comp : T -> T -> bool) (val : T)
  (pre : list T) : option (list T) :=
  match pre with
  | [] => None
  | x :: pre' =>
      match linear_insert comp val pre' with
      | Some placed => Some (x :: placed)
      | None => if comp val x then None else Some (x :: val :: pre')
      end
  end.

Definition guarded_insert {T : Type} (comp : T -> T -> bool) (val : T)
  (pre : list T) : option (list T) :=
  match pre with
  | [] => None
  | xfirst :: _ => if comp val xfirst then Some (val :: pre)
                   else linear_insert comp val pre
  end.

Fixpoint insert_all {T : Type} (step : T -> list T -> option (list T))
  (pre mid : list T) : option (list T) :=
  match mid with
  | [] => Some pre
  | val :: mid' => pre' <- step val pre ;; insert_all step pre' mid'
  end.

(** The heap routines carry one element, [value], outside the range while a
    hole travels through it: the range with [value] put into the hole is a
    rearrangement of what the routine started from. *)
Definition with_hole {T : Type} (v : list T) (hole : Z) (value : T)
  (original : list T) : Prop :=
  exists y, std.deref v hole = Some y
            /\ Permutation (value :: v) (y :: original).

(** The range of positions [lo, hi) is all that changed from [v] to [v']. *)
Definition same_outside {T : Type} (lo hi : Z) (v v' : list T) : Prop :=
  length v' = length v
  /\ forall k, (k < lo \/ hi <= k)%Z -> std.deref v' k = std.deref v k.

(** Every element at a position of [lo, hi) satisfies [Q]. *)
Definition all_in {T : Type} (lo hi : Z) (v : list T) (Q : T -> Prop) : Prop :=
  forall k x, (lo <= k < hi)%Z -> std.deref v k = Some x -> Q x.

(** The heap of [len] elements that starts at position [first]: every node
    whose parent is at index [h0] or beyond is not above its parent. *)
Definition heap_from {T : Type} (comp : T -> T -> bool) (first len : Z)
  (v : list T) (h0 : Z) : Prop :=
  forall i xp xi,
    (1 <= i < len)%Z -> (h0 <= (i - 1) / 2)%Z ->
    std.deref v (first + (i - 1) / 2) = Some xp ->
    std.deref v (first + i) = Some xi ->
    comp xp xi = false.

(** The nodes of the subtree whose root is at index [h0]. *)
Inductive below (h0 : Z) : Z -> Prop :=
| below_root : below h0 h0
| below_child h : (h0 < h)%Z -> below h0 ((h - 1) / 2) -> below h0 h.

(** What [__introsort_loop] leaves for the final insertion pass: from the
    seventeenth position of the range on, every element has before it, in
    the range, an element that it is not below.  This is what stops the
    unguarded walk. *)
Definition guarded_beyond {T : Type} (comp : T -> T -> bool) (first last : Z)
  (v : list T) : Prop :=
  forall k xk,
    (first + std._S_threshold <= k < last)%Z -> std.deref v k = Some xk ->
    exists j xj,
      (first <= j < k)%Z /\ std.deref v j = Some xj /\ comp xk xj = false.

(** ** Vocabulary of the statements over exact arithmetic *)

Definition dot (u v : Vec3 R) : R := (x u * x v + y u * y v + z u * z v)%R.

Definition norm (u : Vec3 R) : R := sqrt (dot u u).

(** ** Vocabulary of the statements over binary64 *)

(** [==] on [Vec3], component by component, with the [==] of [double]
    (under which [-0.0 == 0.0] and NaN differs from itself). *)
Definition Vec3_eqb (u v : Vec3 float) : bool :=
  ((x u =? x v) && (y u =? y v) && (z u =? z v))%float.



(** Three circles whose radii lie in the range of the demo: 9, and twice
    1 + 2^-50. *)
Definition circle_9 : shared_ptr (Circle float) :=
  make_shared 0 (Circle_ctor (ops := binary64_poly) 9%float).

Definition circle_a1 : shared_ptr (Circle float) :=
  make_shared 1 (Circle_ctor (ops := binary64_poly) 0x1.0000000000004p+0%float).

Definition circle_a2 : shared_ptr (Circle float) :=
  make_shared 2 (Circle_ctor (ops := binary64_poly) 0x1.0000000000004p+0%float).


(** How many pointers of a sequence share the object at address [a]. *)
Definition count_address {T : Type} (a : nat) (l : list (shared_ptr T)) : nat :=
  length (filter (fun c => Nat.eqb (address c) a) l).

(** ** [main], step (2): the population loop

    The random source is library code.  [gen] is a state, and a draw from a
    distribution returns a value together with the next state.  Nothing is
    assumed of the values drawn unless a statement says so. *)

Section Populate.

Context {D : Type} {ops : DoubleOps D}.

Context {Gen : Type}.                  (* the state of [std::mt19937] *)
Variable typeDist : Gen -> Z * Gen.    (* [uniform_int_distribution<>(0, 2)] *)
Variable dist : Gen -> D * Gen.        (* [uniform_real_distribution<>(1.0, 10.0)] *)

(** The two [dist(gen)] arguments of one constructor call are evaluated in an
    order the language leaves to the compiler, one order for each call:
    [true] when the first argument is drawn first. *)
Variable Ellipse_first_argument_first : bool.
Variable Helix_first_argument_first : bool.

Definition two_draws (first_argument_first : bool) (gen : Gen)
  : D * D * Gen :=
  let (d1, gen1) := dist gen in
  let (d2, gen2) := dist gen1 in
  if first_argument_first then (d1, d2, gen2) else (d2, d1, gen2).

(** One turn of the loop.  [make_shared] returns a fresh object; its address
    is modelled by the number of objects made before it. *)
Definition populate_body (state : Gen * list (shared_ptr (Curve D)))
  : Gen * list (shared_ptr (Curve D)) :=
  let (gen, curves) := state in
  let (type, gen) := typeDist gen in
  if (type =? 0)%Z then
    let (radius, gen) := dist gen in
    (gen, curves
          ++ [make_shared (length curves) (IsCircle (Circle_ctor radius))])
  else if (type =? 1)%Z then
    let '(rx_, ry_, gen) := two_draws Ellipse_first_argument_first gen in
    (gen, curves
          ++ [make_shared (length curves) (IsEllipse (Ellipse_ctor rx_ ry_))])
  else
    let '(radius, step_, gen) := two_draws Helix_first_argument_first gen in
    (gen, curves
          ++ [make_shared (length curves) (IsHelix (Helix_ctor radius step_))]).

(** [for (int i = 0; i < 10; ++i)] from an empty [curves]. *)
Definition populate (gen : Gen) : list (shared_ptr (Curve D)) :=
  snd (Nat.iter 10 populate_body (gen, [])).

(** A curve all of whose constructor arguments are values that [dist]
    returned. *)
Inductive drawn : Curve D -> Prop :=
| drawn_Circle g :
    drawn (IsCircle (Circle_ctor (fst (dist g))))
| drawn_Ellipse g g' :
    drawn (IsEllipse (Ellipse_ctor (fst (dist g)) (fst (dist g'))))
| drawn_Helix g g' :
    drawn (IsHelix (Helix_ctor (fst (dist g)) (fst (dist g')))).

End Populate.

(** A small random source for closed examples: the state counts the draws;
    the selector and the values are read off the count.  From state 0 the
    loop makes circle, helix, ellipse in turn, four circles in all, of radii
    7, 2.5, 1 and 7. *)
Definition cycle_typeDist (gen : nat) : Z * nat :=
  (Z.of_nat ((gen mod 4) mod 3), S gen).

Definition cycle_dist (gen : nat) : float * nat :=
  (match gen mod 3 with
   | 0%nat => 2.5%float
   | 1%nat => 7%float
   | _ => 1%float
   end, S gen).

(** The range of the demo's [dist]: from 1.0 up to, not including, 10.0. *)
Definition in_demo_range (d : float) : bool :=
  ((1 <=? d) && (d <? 10))%float.

(** A [spec_float] above zero: positive and finite, or plus infinity. *)
Definition above_zero (u : spec_float) : Prop :=
  (exists m e, u = S754_finite false m e) \/ u = S754_infinity false.

(** ** Proof automation

    Case analysis for the comparison of [spec_float]s: split the signs, then
    the comparisons of exponents and mantissas. *)
Ltac order_cases :=
  repeat match goal with
  | s : bool |- _ => destruct s
  end;
  cbn in *;
  change (Pos.compare_cont Eq) with Pos.compare in *;
  repeat match goal with
  | H : context [Z.compare ?a ?b] |- _ =>
      destruct (Z.compare_spec a b); cbn in H
  | |- context [Z.compare ?a ?b] =>
      destruct (Z.compare_spec a b); cbn
  | H : context [Pos.compare ?a ?b] |- _ =>
      destruct (Pos.compare_spec a b); cbn in H
  | |- context [Pos.compare ?a ?b] =>
      destruct (Pos.compare_spec a b); cbn
  end;
  subst; try discriminate; try reflexivity; try lia.

(** Linear arithmetic with division by a constant. *)
Ltac zlia := Z.to_euclidean_division_equations; lia.

(** * Facts about lists and the sort contract *)

Section SortFacts.

Variable T : Type.
Variable comp : T -> T -> bool.

Lemma is_sorted_cons (a : T) (l : list T) :
  is_sorted comp (a :: l) = true <->
  comp a a = false
  /\ Forall (fun b => comp b a = false) l /\ is_sorted comp l = true.
Proof.
  cbn [is_sorted forallb].
  rewrite !andb_true_iff, negb_true_iff, forallb_forall, Forall_forall.
  split.
  - intros [[H0 H1] H2]. repeat split; trivial.
    intros b Hb. apply negb_true_iff. now apply H1.
  - intros (H0 & H1 & H2). repeat split; trivial.
    intros b Hb. apply negb_true_iff. now apply H1.
Qed.

Lemma insert_by_perm (a : T) (l : list T) :
  Permutation (a :: l) (insert_by comp a l).
Proof.
  induction l as [|b rest IH]; cbn [insert_by].
  - reflexivity.
  - destruct (comp a b).
    + reflexivity.
    + rewrite perm_swap. now apply perm_skip.
Qed.

Lemma insertion_sort_acc_perm (l acc : list T) :
  Permutation (acc ++ l)
    (fold_left (fun sorted a => insert_by comp a sorted) l acc).
Proof.
  revert acc. induction l as [|a l IH]; intros acc; cbn [fold_left].
  - now rewrite app_nil_r.
  - rewrite <- IH. rewrite <- insert_by_perm.
    symmetry. apply Permutation_middle.
Qed.

Lemma insertion_sort_perm (l : list T) :
  Permutation l (insertion_sort comp l).
Proof. exact (insertion_sort_acc_perm l []). Qed.

Hypothesis comp_asym : forall a b, comp a b = true -> comp b a = false.
Hypothesis comp_trans :
  forall a b c, comp a b = true -> comp b c = true -> comp a c = true.

Lemma comp_irrefl (a : T) : comp a a = false.
Proof.
  destruct (comp a a) eqn:E; [|reflexivity].
  now rewrite (comp_asym _ _ E) in E.
Qed.

Lemma not_below_trans (a b c : T) :
  comp a b = true -> comp c b = false -> comp c a = false.
Proof.
  intros Hab Hcb. destruct (comp c a) eqn:Hca; trivial.
  rewrite (comp_trans _ _ _ Hca Hab) in Hcb. discriminate.
Qed.

Lemma insert_by_sorted (a : T) (l : list T) :
  is_sorted comp l = true -> is_sorted comp (insert_by comp a l) = true.
Proof.
  induction l as [|b rest IH]; intros Hs.
  - cbn. now rewrite comp_irrefl.
  - cbn [insert_by]. destruct (comp a b) eqn:Hab.
    + apply is_sorted_cons. split; [apply comp_irrefl|]. split; [|exact Hs].
      apply is_sorted_cons in Hs. destruct Hs as (_ & Hb & _).
      constructor.
      * now apply comp_asym.
      * eapply Forall_impl; [|exact Hb].
        intros c Hcb. now apply not_below_trans with b.
    + apply is_sorted_cons in Hs. destruct Hs as (Hbb & Hb & Hr).
      apply is_sorted_cons. split; [exact Hbb|]. split; [|now apply IH].
      apply (Permutation_Forall (insert_by_perm a rest)).
      now constructor.
Qed.

Lemma insertion_sort_acc_sorted (l acc : list T) :
  is_sorted comp acc = true ->
  is_sorted comp (fold_left (fun sorted a => insert_by comp a sorted) l acc)
  = true.
Proof.
  revert acc. induction l as [|a l IH]; intros acc Hacc; cbn [fold_left].
  - exact Hacc.
  - apply IH. now apply insert_by_sorted.
Qed.

(** The contract of [std::sort] can be met on every input. *)
Lemma insertion_sort_meets_contract (l : list T) :
  std_sort comp l (insertion_sort comp l).
Proof.
  split.
  - apply insertion_sort_perm.
  - now apply insertion_sort_acc_sorted.
Qed.

End SortFacts.


Lemma filter_Permutation (T : Type) (f : T -> bool) (l l' : list T) :
  Permutation l l' -> Permutation (filter f l) (filter f l').
Proof.
  induction 1 as [|a l l' _ IH|a b l|l l' l'' _ IH1 _ IH2]; cbn [filter].
  - constructor.
  - destruct (f a); [now constructor | exact IH].
  - destruct (f a), (f b); try reflexivity. apply perm_swap.
  - now transitivity (filter f l').
Qed.

Lemma count_address_Permutation (T : Type) (a : nat)
  (l l' : list (shared_ptr T)) :
  Permutation l l' -> count_address a l' = count_address a l.
Proof.
  intros Hp. unfold count_address. symmetry.
  apply Permutation_length. now apply filter_Permutation.
Qed.

Lemma is_sorted_map (T K : Type) (key : T -> K) (c : K -> K -> bool)
  (l : list T) :
  is_sorted (fun a b => c (key a) (key b)) l = is_sorted c (map key l).
Proof.
  induction l as [|a l IH]; cbn [is_sorted map]; [reflexivity|].
  rewrite IH. f_equal. clear IH. cbn [forallb]. f_equal.
  induction l as [|b l IH]; cbn [forallb map]; [reflexivity|].
  now rewrite IH.
Qed.

(** Two sorted arrangements of the same keys are the same sequence, when
    keys that the comparison does not separate are equal. *)
Section SortedUnique.

Variable K : Type.
Variable c : K -> K -> bool.
Variable P : K -> Prop.
Hypothesis c_antisym :
  forall a b, P a -> P b -> c a b = false -> c b a = false -> a = b.


End SortedUnique.

Section PipelineFacts.

Context {D : Type} {ops : DoubleOps D}.

Lemma dynamic_pointer_cast_Circle_spec (c : shared_ptr (Curve D)) :
  match dynamic_pointer_cast_Circle c with
  | Some circle => is_Circle c = true /\ as_Curve circle = c
  | None => is_Circle c = false
  end.
Proof.
  destruct c as [a [ci|e|h]]; cbn; auto.
Qed.

Lemma extract_circles_acc (curves : list (shared_ptr (Curve D)))
  (acc : list (shared_ptr (Circle D))) :
  map as_Curve
    (fold_left
       (fun circles c =>
          match dynamic_pointer_cast_Circle c with
          | Some circle => circles ++ [circle]
          | None => circles
          end) curves acc)
  = map as_Curve acc ++ filter is_Circle curves.
Proof.
  revert acc. induction curves as [|c curves IH]; intros acc.
  - cbn. now rewrite app_nil_r.
  - cbn [fold_left filter]. rewrite IH.
    pose proof (dynamic_pointer_cast_Circle_spec c) as Hc.
    destruct (dynamic_pointer_cast_Circle c) as [circle|].
    + destruct Hc as [-> <-]. rewrite map_app, <- app_assoc. reflexivity.
    + now rewrite Hc.
Qed.

Lemma extract_circles_filter (curves : list (shared_ptr (Curve D))) :
  map as_Curve (extract_circles curves) = filter is_Circle curves.
Proof. exact (extract_circles_acc curves []). Qed.


Lemma sum_radii_of_radii (circles : list (shared_ptr (Circle D))) :
  sum_radii circles = fold_left dadd (radii circles) lit_0.
Proof.
  unfold sum_radii, radii. generalize lit_0.
  induction circles as [|c circles IH]; intros acc; cbn; [reflexivity|].
  apply IH.
Qed.

Lemma by_radius_sorted_radii (circles : list (shared_ptr (Circle D))) :
  is_sorted by_radius circles = is_sorted dlt (radii circles).
Proof.
  exact (is_sorted_map _ _ (fun c => getRadius (pointee c)) dlt circles).
Qed.

Lemma extract_circles_pointee (curves : list (shared_ptr (Curve D)))
  (c : shared_ptr (Circle D)) :
  In c (extract_circles curves) ->
  exists c', In c' curves /\ pointee c' = IsCircle (pointee c).
Proof.
  intros Hin. apply (in_map as_Curve) in Hin.
  rewrite extract_circles_filter in Hin. apply filter_In in Hin.
  exists (as_Curve c). split; [apply Hin | reflexivity].
Qed.

End PipelineFacts.

(** * Facts about the library's sort *)

Section ArrayFacts.

Context {T : Type}.
Variable comp : T -> T -> bool.

Lemma deref_app (pre : list T) (x : T) (post : list T) :
  std.deref (pre ++ x :: post) (Z.of_nat (length pre)) = Some x.
Proof.
  unfold std.deref.
  destruct (Z.ltb_spec (Z.of_nat (length pre)) 0) as [H|_]; [lia|].
  rewrite Nat2Z.id, nth_error_app2 by lia.
  now rewrite Nat.sub_diag.
Qed.

Lemma deref_before_begin (v : list T) (i : Z) :
  (i < 0)%Z -> std.deref v i = None.
Proof.
  intros H. unfold std.deref.
  now destruct (Z.ltb_spec i 0) as [_|H']; [|lia].
Qed.

Lemma assign_app (pre : list T) (x : T) (post : list T) (value : T) :
  std.assign (pre ++ x :: post) (Z.of_nat (length pre)) value
  = Some (pre ++ value :: post).
Proof.
  unfold std.assign. rewrite deref_app, Nat2Z.id.
  rewrite firstn_app, Nat.sub_diag, firstn_all, app_nil_r.
  replace (S (length pre)) with (length (pre ++ [x]))%nat
    by (rewrite length_app; cbn; lia).
  replace (pre ++ x :: post) with ((pre ++ [x]) ++ post)
    by now rewrite <- app_assoc.
  rewrite skipn_app, skipn_all, Nat.sub_diag. reflexivity.
Qed.

Lemma linear_insert_snoc (val x : T) (pre : list T) :
  linear_insert comp val (pre ++ [x])
  = if comp val x
    then option_map (fun placed => placed ++ [x]) (linear_insert comp val pre)
    else Some (pre ++ [x; val]).
Proof.
  induction pre as [|y pre IH]; cbn [app linear_insert].
  - now destruct (comp val x).
  - rewrite IH. destruct (comp val x).
    + destruct (linear_insert comp val pre); cbn; [reflexivity|].
      now destruct (comp val y).
    + reflexivity.
Qed.

Lemma linear_insert_length (val : T) (pre placed : list T) :
  linear_insert comp val pre = Some placed ->
  length placed = S (length pre).
Proof.
  revert placed. induction pre as [|x pre IH]; intros placed; cbn; [discriminate|].
  destruct (linear_insert comp val pre) as [p|].
  - intros [= <-]. cbn. f_equal. now apply IH.
  - destruct (comp val x); [discriminate|]. now intros [= <-].
Qed.

Lemma unguarded_linear_insert_loop_spec (val : T) (pre : list T) :
  forall (h : T) (rest : list T) (fuel : nat),
    (length pre < fuel)%nat ->
    std.__unguarded_linear_insert_loop comp fuel (pre ++ h :: rest) val
      (Z.of_nat (length pre)) (Z.of_nat (length pre) - 1)
    = option_map (fun placed => placed ++ rest) (linear_insert comp val pre).
Proof.
  induction pre as [|x pre IH] using rev_ind; intros h rest fuel Hfuel.
  - destruct fuel as [|fuel]; [cbn in Hfuel; lia|]. cbn.
    reflexivity.
  - destruct fuel as [|fuel]; [lia|].
    rewrite length_app in *. cbn [length] in *.
    cbn [std.__unguarded_linear_insert_loop].
    replace (Z.of_nat (length pre + 1) - 1)%Z with (Z.of_nat (length pre)) by lia.
    rewrite <- app_assoc. cbn [app].
    rewrite deref_app, linear_insert_snoc.
    destruct (comp val x).
    + replace (pre ++ x :: h :: rest) with ((pre ++ [x]) ++ h :: rest)
        by now rewrite <- app_assoc.
      replace (Z.of_nat (length pre + 1)) with (Z.of_nat (length (pre ++ [x])))
        by (rewrite length_app; cbn; lia).
      rewrite assign_app, <- app_assoc. cbn [app].
      rewrite IH by lia.
      destruct (linear_insert comp val pre); cbn; [|reflexivity].
      now rewrite <- app_assoc.
    + replace (pre ++ x :: h :: rest) with ((pre ++ [x]) ++ h :: rest)
        by now rewrite <- app_assoc.
      replace (Z.of_nat (length pre + 1)) with (Z.of_nat (length (pre ++ [x])))
        by (rewrite length_app; cbn; lia).
      rewrite assign_app. cbn. now rewrite <- !app_assoc.
Qed.

Lemma unguarded_linear_insert_spec (val : T) (pre rest : list T) :
  std.__unguarded_linear_insert comp (pre ++ val :: rest) (Z.of_nat (length pre))
  = option_map (fun placed => placed ++ rest) (linear_insert comp val pre).
Proof.
  unfold std.__unguarded_linear_insert. rewrite deref_app.
  apply unguarded_linear_insert_loop_spec.
  rewrite length_app. lia.
Qed.

Lemma hd_snoc (y s : T) (seg : list T) : hd y (seg ++ [s]) = hd s seg.
Proof. now destruct seg. Qed.

Lemma move_backward_spec (seg : list T) :
  forall (y : T) (post : list T) (fuel : nat),
    (length seg < fuel)%nat ->
    std.move_backward fuel (seg ++ y :: post) 0
      (Z.of_nat (length seg)) (Z.of_nat (length seg) + 1)
    = Some (hd y seg :: seg ++ post).
Proof.
  induction seg as [|s seg IH] using rev_ind; intros y post fuel Hfuel.
  - destruct fuel as [|fuel]; [cbn in Hfuel; lia|]. reflexivity.
  - destruct fuel as [|fuel]; [lia|].
    rewrite length_app in *. cbn [length] in *.
    cbn [std.move_backward].
    destruct (Z.gtb_spec (Z.of_nat (length seg + 1) - 0) 0) as [_|H]; [|lia].
    replace (Z.of_nat (length seg + 1) - 1)%Z with (Z.of_nat (length seg)) by lia.
    replace (Z.of_nat (length seg + 1) + 1 - 1)%Z
      with (Z.of_nat (length (seg ++ [s])))
      by (rewrite length_app; cbn; lia).
    assert (Hread : std.deref ((seg ++ [s]) ++ y :: post) (Z.of_nat (length seg))
                    = Some s)
      by (rewrite <- app_assoc; apply deref_app).
    rewrite Hread, assign_app, <- app_assoc. cbn [app].
    replace (Z.of_nat (length (seg ++ [s]))) with (Z.of_nat (length seg) + 1)%Z
      by (rewrite length_app; cbn; lia).
    rewrite IH by lia. now rewrite hd_snoc, <- app_assoc.
Qed.

Lemma guarded_insert_length (val : T) (pre placed : list T) :
  guarded_insert comp val pre = Some placed ->
  length placed = S (length pre).
Proof.
  destruct pre as [|xfirst pre]; [discriminate|]. unfold guarded_insert.
  destruct (comp val xfirst).
  - now intros [= <-].
  - apply linear_insert_length.
Qed.

Lemma insertion_sort_loop_spec (mid : list T) :
  forall (pre rest : list T) (fuel : nat),
    pre <> [] -> (length mid < fuel)%nat ->
    std.__insertion_sort_loop comp fuel (pre ++ mid ++ rest) 0
      (Z.of_nat (length pre + length mid)) (Z.of_nat (length pre))
    = option_map (fun placed => placed ++ rest)
        (insert_all (guarded_insert comp) pre mid).
Proof.
  induction mid as [|val mid IH]; intros pre rest fuel Hpre Hfuel.
  - destruct fuel as [|fuel]; [cbn in Hfuel; lia|].
    cbn [std.__insertion_sort_loop length insert_all option_map app].
    rewrite Nat.add_0_r, Z.eqb_refl. reflexivity.
  - destruct fuel as [|fuel]; [lia|]. cbn [length] in Hfuel.
    cbn [std.__insertion_sort_loop insert_all length].
    destruct (Z.eqb_spec (Z.of_nat (length pre))
                (Z.of_nat (length pre + S (length mid)))) as [E|_]; [lia|].
    cbn [app]. rewrite deref_app.
    destruct pre as [|xfirst pre0] eqn:Epre; [contradiction|].
    rewrite <- Epre in *.
    assert (Hfirst : std.deref (pre ++ val :: mid ++ rest) 0 = Some xfirst)
      by now rewrite Epre.
    assert (Hstep : guarded_insert comp val pre
                    = if comp val xfirst then Some (val :: pre)
                      else linear_insert comp val pre)
      by now rewrite Epre.
    rewrite Hfirst, Hstep.
    destruct (comp val xfirst).
    + rewrite move_backward_spec by (rewrite length_app; cbn; lia).
      replace (hd val pre) with xfirst by now rewrite Epre.
      change (xfirst :: pre ++ mid ++ rest)
        with ([] ++ xfirst :: (pre ++ mid ++ rest)).
      rewrite (assign_app [] xfirst). cbn [app].
      replace (Z.of_nat (length pre) + 1)%Z
        with (Z.of_nat (length (val :: pre))) by (cbn [length]; lia).
      replace (length pre + S (length mid))%nat
        with (length (val :: pre) + length mid)%nat by (cbn [length]; lia).
      change (val :: pre ++ mid ++ rest) with ((val :: pre) ++ mid ++ rest).
      apply IH; [discriminate | lia].
    + rewrite unguarded_linear_insert_spec.
      destruct (linear_insert comp val pre) as [placed|] eqn:Eplaced;
        cbn [option_map]; [|reflexivity].
      pose proof (linear_insert_length _ _ _ Eplaced) as Hlen.
      replace (Z.of_nat (length pre) + 1)%Z
        with (Z.of_nat (length placed)) by lia.
      replace (length pre + S (length mid))%nat
        with (length placed + length mid)%nat by lia.
      apply IH; [|lia].
      intros ->. discriminate.
Qed.

Lemma unguarded_insertion_sort_loop_spec (mid : list T) :
  forall (pre rest : list T) (fuel : nat),
    (length mid < fuel)%nat ->
    std.__unguarded_insertion_sort_loop comp fuel (pre ++ mid ++ rest)
      (Z.of_nat (length pre + length mid)) (Z.of_nat (length pre))
    = option_map (fun placed => placed ++ rest)
        (insert_all (linear_insert comp) pre mid).
Proof.
  induction mid as [|val mid IH]; intros pre rest fuel Hfuel.
  - destruct fuel as [|fuel]; [cbn in Hfuel; lia|].
    cbn [std.__unguarded_insertion_sort_loop length insert_all option_map app].
    rewrite Nat.add_0_r, Z.eqb_refl. reflexivity.
  - destruct fuel as [|fuel]; [lia|]. cbn [length] in Hfuel.
    cbn [std.__unguarded_insertion_sort_loop insert_all length].
    destruct (Z.eqb_spec (Z.of_nat (length pre))
                (Z.of_nat (length pre + S (length mid)))) as [E|_]; [lia|].
    cbn [app]. rewrite unguarded_linear_insert_spec.
    destruct (linear_insert comp val pre) as [placed|] eqn:Eplaced;
      cbn [option_map]; [|reflexivity].
    pose proof (linear_insert_length _ _ _ Eplaced) as Hlen.
    replace (Z.of_nat (length pre) + 1)%Z
      with (Z.of_nat (length placed)) by lia.
    replace (length pre + S (length mid))%nat
      with (length placed + length mid)%nat by lia.
    apply IH. lia.
Qed.

(** Up to sixteen elements, [std::sort] is the guarded straight insertion. *)
Lemma sort_short (v : list T) :
  (length v <= 16)%nat ->
  std.sort comp v
  = match v with
    | [] => Some []
    | v0 :: rest => insert_all (guarded_insert comp) [v0] rest
    end.
Proof.
  intros Hlen. unfold std.sort, std.__sort.
  destruct v as [|v0 rest]; [reflexivity|].
  destruct (Z.eqb_spec 0 (Z.of_nat (length (v0 :: rest)))) as [E|_];
    [cbn [length] in E; lia|].
  assert (Hloop0 : forall depth_limit,
            std.__introsort_loop comp depth_limit (v0 :: rest) 0
              (Z.of_nat (length (v0 :: rest))) = Some (v0 :: rest)).
  { intros [|depth_limit]; cbn [std.__introsort_loop]; unfold std._S_threshold;
      now destruct (Z.gtb_spec (Z.of_nat (length (v0 :: rest)) - 0) 16)
        as [H|_]; [lia|]. }
  rewrite Hloop0.
  unfold std.__final_insertion_sort, std._S_threshold.
  destruct (Z.gtb_spec (Z.of_nat (length (v0 :: rest)) - 0) 16) as [H|_]; [lia|].
  unfold std.__insertion_sort.
  destruct (Z.eqb_spec 0 (Z.of_nat (length (v0 :: rest)))) as [E|_];
    [cbn [length] in E; lia|].
  pose proof (insertion_sort_loop_spec rest [v0] [] (S (length (v0 :: rest))))
    as Hloop.
  rewrite app_nil_r in Hloop. cbn [app length] in Hloop.
  cbn [length]. change (0 + 1)%Z with (Z.of_nat 1).
  etransitivity; [apply Hloop; [discriminate|lia]|].
  destruct (insert_all (guarded_insert comp) [v0] rest); cbn; [|reflexivity].
  now rewrite app_nil_r.
Qed.

End ArrayFacts.

Section InsertionFacts.

Context {T : Type}.
Variable comp : T -> T -> bool.

Lemma linear_insert_None (val : T) (pre : list T) :
  linear_insert comp val pre = None ->
  Forall (fun y => comp val y = true) pre.
Proof.
  induction pre as [|x pre IH]; cbn [linear_insert]; [constructor|].
  destruct (linear_insert comp val pre); [discriminate|].
  destruct (comp val x) eqn:E; [|discriminate].
  intros _. constructor; [exact E | now apply IH].
Qed.

Lemma linear_insert_split (val : T) (pre placed : list T) :
  linear_insert comp val pre = Some placed ->
  exists l1 x l2,
    pre = l1 ++ x :: l2 /\ placed = l1 ++ x :: val :: l2
    /\ comp val x = false /\ Forall (fun y => comp val y = true) l2.
Proof.
  revert placed. induction pre as [|a pre IH]; intros placed;
    cbn [linear_insert]; [discriminate|].
  destruct (linear_insert comp val pre) as [p|] eqn:E.
  - intros [= <-].
    destruct (IH _ eq_refl) as (l1 & x & l2 & -> & -> & Hx & Hl2).
    now exists (a :: l1), x, l2.
  - destruct (comp val a) eqn:Ea; [discriminate|]. intros [= <-].
    exists [], a, pre. repeat split; trivial.
    now apply linear_insert_None.
Qed.

Lemma linear_insert_perm (val : T) (pre placed : list T) :
  linear_insert comp val pre = Some placed ->
  Permutation (pre ++ [val]) placed.
Proof.
  intros H. apply linear_insert_split in H.
  destruct H as (l1 & x & l2 & -> & -> & _ & _).
  rewrite <- app_assoc. cbn [app].
  apply Permutation_app_head, perm_skip.
  symmetry. apply Permutation_cons_append.
Qed.

Lemma guarded_insert_perm (val : T) (pre placed : list T) :
  guarded_insert comp val pre = Some placed ->
  Permutation (pre ++ [val]) placed.
Proof.
  destruct pre as [|xfirst pre]; [discriminate|]. unfold guarded_insert.
  destruct (comp val xfirst).
  - intros [= <-]. symmetry. apply (Permutation_cons_append (xfirst :: pre)).
  - apply linear_insert_perm.
Qed.

(** The guard of [__insertion_sort] keeps [__unguarded_linear_insert] inside
    the range, whatever the comparison. *)
Lemma guarded_insert_total (val : T) (pre : list T) :
  pre <> [] -> exists placed, guarded_insert comp val pre = Some placed.
Proof.
  destruct pre as [|xfirst pre]; [contradiction|]. intros _.
  unfold guarded_insert. destruct (comp val xfirst) eqn:E; [eauto|].
  destruct (linear_insert comp val (xfirst :: pre)) eqn:El; [eauto|].
  apply linear_insert_None in El. inversion El; congruence.
Qed.

Lemma insert_all_perm (step : T -> list T -> option (list T)) :
  (forall val pre placed,
     step val pre = Some placed -> Permutation (pre ++ [val]) placed) ->
  forall mid pre placed,
    insert_all step pre mid = Some placed -> Permutation (pre ++ mid) placed.
Proof.
  intros Hstep. induction mid as [|val mid IH]; intros pre placed;
    cbn [insert_all].
  - intros [= <-]. now rewrite app_nil_r.
  - destruct (step val pre) as [pre'|] eqn:E; [|discriminate].
    intros H. apply IH in H. rewrite <- H.
    change (val :: mid) with ([val] ++ mid). rewrite app_assoc.
    apply Permutation_app_tail. now apply Hstep.
Qed.

Lemma insert_all_guarded_total (mid pre : list T) :
  pre <> [] -> exists placed, insert_all (guarded_insert comp) pre mid = Some placed.
Proof.
  revert pre. induction mid as [|val mid IH]; intros pre Hpre; cbn [insert_all].
  - eauto.
  - destruct (guarded_insert_total val pre Hpre) as [pre' E]. rewrite E.
    apply IH. intros ->. apply guarded_insert_length in E. discriminate.
Qed.

(** Up to sixteen elements [std::sort] returns, and returns a rearrangement,
    whatever the comparison. *)
Lemma sort_short_perm (v : list T) :
  (length v <= 16)%nat ->
  exists after, std.sort comp v = Some after /\ Permutation v after.
Proof.
  intros Hlen. rewrite sort_short by exact Hlen.
  destruct v as [|v0 rest]; [now exists []|].
  destruct (insert_all_guarded_total rest [v0]) as [after E]; [discriminate|].
  exists after. split; [exact E|].
  apply (insert_all_perm _ (guarded_insert_perm)) in E. exact E.
Qed.


Lemma is_sorted_app_r (l1 l2 : list T) :
  is_sorted comp (l1 ++ l2) = true -> is_sorted comp l2 = true.
Proof.
  induction l1 as [|a l1 IH]; [trivial|]. cbn [app].
  rewrite is_sorted_cons. intros (_ & _ & Hs). now apply IH.
Qed.

Lemma is_sorted_earlier (l1 : list T) (x : T) (l2 : list T) :
  is_sorted comp (l1 ++ x :: l2) = true ->
  Forall (fun y => comp x y = false) l1.
Proof.
  induction l1 as [|a l1 IH]; [constructor|]. cbn [app].
  rewrite is_sorted_cons. intros (_ & Hl & Hs).
  apply Forall_app in Hl. destruct Hl as [_ Hl].
  constructor; [now inversion Hl | now apply IH].
Qed.




(** With a strict weak ordering on the elements. *)
Variable dom : list T.
Hypothesis comp_swo : strict_weak_ordering_on comp dom.

Lemma swo_irrefl (a : T) : In a dom -> comp a a = false.
Proof. apply comp_swo. Qed.

Lemma swo_asym (a b : T) :
  In a dom -> In b dom -> comp a b = true -> comp b a = false.
Proof.
  intros Ha Hb Hab. destruct (comp b a) eqn:Hba; [|reflexivity].
  destruct comp_swo as (Hirr & Htrans & _).
  rewrite <- (Hirr a Ha). symmetry. now apply Htrans with b.
Qed.

Lemma swo_not_lt_trans (a b c : T) :
  In a dom -> In b dom -> In c dom ->
  comp a b = false -> comp b c = false -> comp a c = false.
Proof.
  intros Ha Hb Hc Hab Hbc. destruct (comp a c) eqn:Hac; [|reflexivity].
  destruct comp_swo as (Hirr & Htrans & Heq).
  assert (Hba : comp b a = false).
  { destruct (comp b a) eqn:Hba; [|reflexivity].
    rewrite <- Hbc. symmetry. now apply Htrans with a. }
  assert (Hcb : comp c b = false).
  { destruct (comp c b) eqn:Hcb; [|reflexivity].
    rewrite <- Hab. symmetry. now apply Htrans with c. }
  assert (E : equivalent comp a c = true).
  { apply (Heq a b c); trivial; unfold equivalent.
    - now rewrite Hab, Hba.
    - now rewrite Hbc, Hcb. }
  unfold equivalent in E. rewrite Hac in E. discriminate.
Qed.

Lemma guarded_insert_spec (val : T) (pre placed : list T) :
  In val dom -> incl pre dom -> is_sorted comp pre = true ->
  guarded_insert comp val pre = Some placed ->
  exists l1 l2,
    pre = l1 ++ l2 /\ placed = l1 ++ val :: l2
    /\ Forall (fun y => comp val y = false) l1
    /\ Forall (fun y => comp val y = true) l2.
Proof.
  intros Hval Hpre Hs. destruct pre as [|xfirst pre0] eqn:Epre; [discriminate|].
  rewrite <- Epre in *. unfold guarded_insert. rewrite Epre at 1.
  destruct (comp val xfirst) eqn:Hguard.
  - intros [= <-]. exists [], pre. repeat split; [constructor|].
    rewrite Epre in Hs |- *. apply is_sorted_cons in Hs.
    destruct Hs as (_ & Hlater & _).
    constructor; [exact Hguard|].
    rewrite Forall_forall in Hlater |- *. intros y Hy.
    destruct (comp val y) eqn:Hvy; [reflexivity|].
    rewrite <- Hguard. symmetry.
    apply (swo_not_lt_trans val y xfirst); trivial.
    + apply Hpre. rewrite Epre. now right.
    + apply Hpre. rewrite Epre. now left.
    + now apply Hlater.
  - intros H. apply linear_insert_split in H.
    destruct H as (l1 & x & l2 & E & -> & Hx & Hl2).
    exists (l1 ++ [x]), l2. rewrite <- !app_assoc. cbn [app].
    repeat split; trivial.
    rewrite E in Hs. apply is_sorted_earlier in Hs.
    apply Forall_app. split; [|now constructor].
    rewrite Forall_forall in Hs |- *. intros y Hy.
    apply (swo_not_lt_trans val x y); trivial.
    + apply Hpre. rewrite E. apply in_or_app. right. now left.
    + apply Hpre. rewrite E. apply in_or_app. now left.
    + now apply Hs.
Qed.

Lemma filter_none (f : T -> bool) (l : list T) :
  Forall (fun y => f y = false) l -> filter f l = [].
Proof.
  induction 1 as [|y l Hy _ IH]; cbn [filter]; [reflexivity|].
  now rewrite Hy.
Qed.

Lemma is_sorted_insert (val : T) (l1 l2 : list T) :
  In val dom -> incl l2 dom ->
  is_sorted comp (l1 ++ l2) = true ->
  Forall (fun y => comp val y = false) l1 ->
  Forall (fun y => comp val y = true) l2 ->
  is_sorted comp (l1 ++ val :: l2) = true.
Proof.
  intros Hval Hdom. induction l1 as [|a l1 IH]; cbn [app]; intros Hs H1 H2.
  - apply is_sorted_cons. repeat split; trivial.
    + now apply swo_irrefl.
    + rewrite Forall_forall in H2 |- *. intros y Hy.
      apply swo_asym; auto.
  - apply is_sorted_cons in Hs. destruct Hs as (Ha & Hl & Hs).
    apply is_sorted_cons. repeat split; trivial.
    + apply Forall_app in Hl. destruct Hl as [Hl1 Hl2].
      apply Forall_app. split; [exact Hl1|].
      constructor; [now inversion H1 | exact Hl2].
    + apply IH; trivial. now inversion H1.
Qed.

Lemma filter_insert_stable (a val : T) (l1 l2 : list T) :
  In a dom -> In val dom -> incl l2 dom ->
  Forall (fun y => comp val y = true) l2 ->
  filter (equivalent comp a) (l1 ++ val :: l2)
  = filter (equivalent comp a) ((l1 ++ l2) ++ [val]).
Proof.
  intros Ha Hval Hdom H2. rewrite !filter_app. cbn [filter].
  destruct (equivalent comp a val) eqn:E.
  - assert (Hnone : filter (equivalent comp a) l2 = []).
    { apply filter_none. apply Forall_forall. intros y Hy.
      destruct (equivalent comp a y) eqn:Ey; [|reflexivity].
      rewrite Forall_forall in H2. specialize (H2 y Hy).
      destruct comp_swo as (_ & _ & Heq).
      assert (E' : equivalent comp val a = true).
      { unfold equivalent in E |- *. now rewrite andb_comm. }
      pose proof (Heq val a y Hval Ha (Hdom y Hy) E' Ey) as Hvy.
      unfold equivalent in Hvy. rewrite H2 in Hvy. discriminate. }
    rewrite Hnone, app_nil_r. reflexivity.
  - now rewrite app_nil_r.
Qed.

Lemma insert_all_guarded_spec (mid : list T) :
  forall pre : list T,
    pre <> [] -> incl (pre ++ mid) dom -> is_sorted comp pre = true ->
    exists placed,
      insert_all (guarded_insert comp) pre mid = Some placed
      /\ is_sorted comp placed = true
      /\ (forall a, In a dom ->
            filter (equivalent comp a) placed
            = filter (equivalent comp a) (pre ++ mid)).
Proof.
  induction mid as [|val mid IH]; intros pre Hpre Hdom Hs; cbn [insert_all].
  - exists pre. rewrite app_nil_r. auto.
  - destruct (guarded_insert_total val pre Hpre) as [pre' E].
    rewrite E.
    assert (Hval : In val dom) by (apply Hdom, in_or_app; right; now left).
    assert (Hpre_dom : incl pre dom)
      by (intros y Hy; apply Hdom, in_or_app; now left).
    destruct (guarded_insert_spec val pre pre' Hval Hpre_dom Hs E)
      as (l1 & l2 & E1 & E2 & H1 & H2).
    assert (Hl2 : incl l2 dom)
      by (intros y Hy; apply Hpre_dom; rewrite E1; apply in_or_app; now right).
    destruct (IH pre') as (placed & Eplaced & Hsorted & Hstable).
    + rewrite E2. now destruct l1.
    + intros y Hy. apply in_app_or in Hy. destruct Hy as [Hy|Hy].
      * apply (Permutation_in _ (Permutation_sym (guarded_insert_perm _ _ _ E)))
          in Hy.
        apply Hdom. apply in_app_or in Hy. apply in_or_app.
        destruct Hy as [Hy|[<-|[]]]; [now left | right; now left].
      * apply Hdom, in_or_app. right. now right.
    + rewrite E2. apply is_sorted_insert; trivial. now rewrite <- E1.
    + exists placed. repeat split; trivial.
      intros a Ha. rewrite (Hstable a Ha), E2.
      rewrite !filter_app.
      rewrite <- filter_app, (filter_insert_stable a val l1 l2); trivial.
      rewrite <- E1, !filter_app. cbn [filter].
      destruct (equivalent comp a val); cbn [app];
        now rewrite <- ?app_assoc, ?app_nil_r.
Qed.

End InsertionFacts.

(** Up to sixteen elements under a strict weak ordering, [std::sort] returns
    the range sorted, and equivalent elements keep their order. *)
Lemma sort_short_spec (T : Type) (comp : T -> T -> bool) (v : list T) :
  (length v <= 16)%nat -> strict_weak_ordering_on comp v ->
  exists after,
    std.sort comp v = Some after
    /\ Permutation v after
    /\ is_sorted comp after = true
    /\ stable comp v after.
Proof.
  intros Hlen Hswo.
  destruct (sort_short_perm comp v Hlen) as (after & E & Hperm).
  exists after. split; [exact E|]. split; [exact Hperm|].
  rewrite sort_short in E by exact Hlen.
  destruct v as [|v0 rest].
  - injection E as <-. split; [reflexivity|]. intros a [].
  - destruct (insert_all_guarded_spec comp (v0 :: rest) Hswo rest [v0])
      as (placed & E' & Hs & Hst).
    + discriminate.
    + apply incl_refl.
    + apply is_sorted_cons. repeat split; [|constructor].
      apply Hswo. now left.
    + rewrite E in E'. injection E' as <-. split; [exact Hs|].
      intros a Ha. now apply Hst.
Qed.

Section RearrangeFacts.

Context {T : Type}.
Variable comp : T -> T -> bool.

Lemma deref_Some (v : list T) (i : Z) (y : T) :
  std.deref v i = Some y ->
  exists pre post, v = pre ++ y :: post /\ i = Z.of_nat (length pre).
Proof.
  unfold std.deref. destruct (Z.ltb_spec i 0) as [|Hi]; [discriminate|].
  intros H. apply nth_error_split in H. destruct H as (pre & post & -> & E).
  exists pre, post. split; [reflexivity | lia].
Qed.

Lemma assign_Some (v : list T) (i : Z) (x : T) (v' : list T) :
  std.assign v i x = Some v' ->
  exists pre y post,
    v = pre ++ y :: post /\ i = Z.of_nat (length pre) /\ v' = pre ++ x :: post.
Proof.
  intros H. assert (Hd : exists y, std.deref v i = Some y).
  { unfold std.assign in H. destruct (std.deref v i) as [y|]; [eauto|discriminate]. }
  destruct Hd as [y Hd]. apply deref_Some in Hd.
  destruct Hd as (pre & post & -> & ->).
  rewrite assign_app in H. injection H as <-. now exists pre, y, post.
Qed.

Lemma deref_other (pre : list T) (x y : T) (post : list T) (j : Z) :
  j <> Z.of_nat (length pre) ->
  std.deref (pre ++ x :: post) j = std.deref (pre ++ y :: post) j.
Proof.
  intros Hj. unfold std.deref. destruct (Z.ltb_spec j 0) as [|H0]; [reflexivity|].
  destruct (Nat.lt_ge_cases (Z.to_nat j) (length pre)) as [Hlt|Hge].
  - now rewrite !nth_error_app1.
  - rewrite !nth_error_app2 by exact Hge.
    destruct (Z.to_nat j - length pre)%nat eqn:E; [lia|reflexivity].
Qed.

(** Writing [x] over [y] trades one for the other. *)
Lemma assign_trade (v : list T) (i : Z) (x y : T) (v' : list T) :
  std.deref v i = Some y -> std.assign v i x = Some v' ->
  Permutation (y :: v') (x :: v).
Proof.
  intros Hd Ha. apply assign_Some in Ha.
  destruct Ha as (pre & y' & post & -> & -> & ->).
  rewrite deref_app in Hd. injection Hd as ->.
  rewrite <- !Permutation_middle. apply perm_swap.
Qed.

(** Reading position [j] after [v[i] = v[j]]. *)
Lemma deref_after_copy (v : list T) (i j : Z) (x : T) (v' : list T) :
  std.deref v j = Some x -> std.assign v i x = Some v' ->
  std.deref v' j = Some x.
Proof.
  intros Hd Ha. apply assign_Some in Ha.
  destruct Ha as (pre & y & post & -> & -> & ->).
  destruct (Z.eq_dec j (Z.of_nat (length pre))) as [->|Hj].
  - apply deref_app.
  - now rewrite (deref_other pre x y post j Hj).
Qed.

Lemma iter_swap_perm (v : list T) (a b : Z) (v' : list T) :
  std.iter_swap v a b = Some v' -> Permutation v v'.
Proof.
  unfold std.iter_swap.
  destruct (std.deref v a) as [xa|] eqn:Ea; [|discriminate].
  destruct (std.deref v b) as [xb|] eqn:Eb; [|discriminate].
  destruct (std.assign v a xb) as [v1|] eqn:E1; [|discriminate].
  intros E2.
  pose proof (assign_trade _ _ _ _ _ Ea E1) as H1.
  pose proof (deref_after_copy _ _ _ _ _ Eb E1) as Eb1.
  pose proof (assign_trade _ _ _ _ _ Eb1 E2) as H2.
  apply Permutation_cons_inv with xb. rewrite H2, H1. reflexivity.
Qed.


Lemma with_hole_move (v : list T) (hole from : Z) (value moved : T)
  (original v' : list T) :
  with_hole v hole value original ->
  std.deref v from = Some moved -> std.assign v hole moved = Some v' ->
  with_hole v' from value original.
Proof.
  intros (y & Hy & Hperm) Hfrom Ha.
  exists moved. split; [now apply (deref_after_copy v hole from)|].
  pose proof (assign_trade _ _ _ _ _ Hy Ha) as Htrade.
  apply Permutation_cons_inv with y.
  rewrite perm_swap, Htrade, perm_swap, Hperm. apply perm_swap.
Qed.

Lemma with_hole_fill (v : list T) (hole : Z) (value : T)
  (original v' : list T) :
  with_hole v hole value original ->
  std.assign v hole value = Some v' -> Permutation original v'.
Proof.
  intros (y & Hy & Hperm) Ha.
  pose proof (assign_trade _ _ _ _ _ Hy Ha) as Htrade.
  apply Permutation_cons_inv with y. now rewrite Htrade, Hperm.
Qed.

Lemma push_heap_loop_perm (fuel : nat) :
  forall (v : list T) (first holeIndex topIndex : Z) (value : T)
    (original v' : list T),
    with_hole v (first + holeIndex) value original ->
    std.__push_heap_loop comp fuel v first holeIndex topIndex value = Some v' ->
    Permutation original v'.
Proof.
  induction fuel as [|fuel IH]; intros v first holeIndex topIndex value
    original v' Hhole; cbn [std.__push_heap_loop]; [discriminate|].
  destruct (holeIndex >? topIndex)%Z; [|now apply with_hole_fill].
  destruct (std.deref v (first + Z.quot (holeIndex - 1) 2)) as [at_parent|]
    eqn:Eparent; [|discriminate].
  destruct (comp at_parent value); [|now apply with_hole_fill].
  destruct (std.assign v (first + holeIndex) at_parent) as [v1|] eqn:E1;
    [|discriminate].
  intros H. eapply IH; [|exact H].
  exact (with_hole_move _ _ _ _ _ _ _ Hhole Eparent E1).
Qed.

Lemma adjust_heap_loop_perm (fuel : nat) :
  forall (v : list T) (first holeIndex len secondChild : Z) (value : T)
    (original v' : list T) (holeIndex' secondChild' : Z),
    with_hole v (first + holeIndex) value original ->
    std.__adjust_heap_loop comp fuel v first holeIndex len secondChild
    = Some (v', holeIndex', secondChild') ->
    with_hole v' (first + holeIndex') value original.
Proof.
  induction fuel as [|fuel IH]; intros v first holeIndex len secondChild value
    original v' holeIndex' secondChild' Hhole;
    cbn [std.__adjust_heap_loop]; [discriminate|].
  destruct (secondChild <? Z.quot (len - 1) 2)%Z;
    [|intros [= <- <- <-]; exact Hhole].
  destruct (std.deref v (first + 2 * (secondChild + 1))) as [right_child|];
    [|discriminate].
  destruct (std.deref v (first + (2 * (secondChild + 1) - 1))) as [left_child|];
    [|discriminate].
  set (child := if comp right_child left_child
                then (2 * (secondChild + 1) - 1)%Z
                else (2 * (secondChild + 1))%Z).
  destruct (std.deref v (first + child)) as [moved|] eqn:Emoved; [|discriminate].
  destruct (std.assign v (first + holeIndex) moved) as [v1|] eqn:E1;
    [|discriminate].
  intros H. eapply IH; [|exact H].
  exact (with_hole_move _ _ _ _ _ _ _ Hhole Emoved E1).
Qed.

Lemma adjust_heap_perm (v : list T) (first holeIndex len : Z) (value : T)
  (original v' : list T) :
  with_hole v (first + holeIndex) value original ->
  std.__adjust_heap comp v first holeIndex len value = Some v' ->
  Permutation original v'.
Proof.
  intros Hhole. unfold std.__adjust_heap.
  destruct (std.__adjust_heap_loop comp (S (length v)) v first holeIndex len
              holeIndex) as [[[v1 hole1] child1]|] eqn:Eloop; [|discriminate].
  apply adjust_heap_loop_perm with (value := value) (original := original)
    in Eloop; [|exact Hhole].
  destruct ((Z.land len 1 =? 0)%Z && (child1 =? Z.quot (len - 2) 2)%Z).
  - destruct (std.deref v1 (first + (2 * (child1 + 1) - 1))) as [moved|]
      eqn:Emoved; [|discriminate].
    destruct (std.assign v1 (first + hole1) moved) as [v2|] eqn:E2;
      [|discriminate].
    apply push_heap_loop_perm.
    exact (with_hole_move _ _ _ _ _ _ _ Eloop Emoved E2).
  - now apply push_heap_loop_perm.
Qed.

Lemma pop_heap_perm (v : list T) (first last result : Z) (v' : list T) :
  std.__pop_heap comp v first last result = Some v' -> Permutation v v'.
Proof.
  unfold std.__pop_heap.
  destruct (std.deref v result) as [value|] eqn:Evalue; [|discriminate].
  destruct (std.deref v first) as [at_first|] eqn:Efirst; [|discriminate].
  destruct (std.assign v result at_first) as [v1|] eqn:E1; [|discriminate].
  apply adjust_heap_perm. exists at_first. split.
  - rewrite Z.add_0_r. now apply (deref_after_copy v result first).
  - now apply (assign_trade v result).
Qed.

Lemma make_heap_loop_perm (fuel : nat) :
  forall (v : list T) (first len parent : Z) (v' : list T),
    std.__make_heap_loop comp fuel v first len parent = Some v' ->
    Permutation v v'.
Proof.
  induction fuel as [|fuel IH]; intros v first len parent v';
    cbn [std.__make_heap_loop]; [discriminate|].
  destruct (std.deref v (first + parent)) as [value|] eqn:Evalue; [|discriminate].
  destruct (std.__adjust_heap comp v first parent len value) as [v1|] eqn:E1;
    [|discriminate].
  apply adjust_heap_perm with (original := v) in E1;
    [|now exists value].
  destruct (parent =? 0)%Z.
  - now intros [= <-].
  - intros H. apply IH in H. now rewrite E1.
Qed.

Lemma make_heap_perm (v : list T) (first last : Z) (v' : list T) :
  std.__make_heap comp v first last = Some v' -> Permutation v v'.
Proof.
  unfold std.__make_heap. destruct (last - first <? 2)%Z.
  - now intros [= <-].
  - apply make_heap_loop_perm.
Qed.

Lemma sort_heap_loop_perm (fuel : nat) :
  forall (v : list T) (first last : Z) (v' : list T),
    std.__sort_heap_loop comp fuel v first last = Some v' -> Permutation v v'.
Proof.
  induction fuel as [|fuel IH]; intros v first last v';
    cbn [std.__sort_heap_loop]; [discriminate|].
  destruct (last - first >? 1)%Z; [|now intros [= <-]].
  destruct (std.__pop_heap comp v first (last - 1) (last - 1)) as [v1|] eqn:E1;
    [|discriminate].
  intros H. apply IH in H. apply pop_heap_perm in E1. now rewrite E1.
Qed.

Lemma heap_select_loop_perm (fuel : nat) :
  forall (v : list T) (first middle last i : Z) (v' : list T),
    std.__heap_select_loop comp fuel v first middle last i = Some v' ->
    Permutation v v'.
Proof.
  induction fuel as [|fuel IH]; intros v first middle last i v';
    cbn [std.__heap_select_loop]; [discriminate|].
  destruct (i <? last)%Z; [|now intros [= <-]].
  destruct (std.deref v i) as [xi|]; [|discriminate].
  destruct (std.deref v first) as [xfirst|]; [|discriminate].
  destruct (comp xi xfirst).
  - destruct (std.__pop_heap comp v first middle i) as [v1|] eqn:E1;
      [|discriminate].
    intros H. apply IH in H. apply pop_heap_perm in E1. now rewrite E1.
  - apply IH.
Qed.

Lemma partial_sort_perm (v : list T) (first middle last : Z) (v' : list T) :
  std.__partial_sort comp v first middle last = Some v' -> Permutation v v'.
Proof.
  unfold std.__partial_sort, std.__heap_select, std.__sort_heap.
  destruct (std.__make_heap comp v first middle) as [v1|] eqn:E1; [|discriminate].
  destruct (std.__heap_select_loop comp (S (length v1)) v1 first middle last
              middle) as [v2|] eqn:E2; [|discriminate].
  intros E3. apply make_heap_perm in E1. apply heap_select_loop_perm in E2.
  apply sort_heap_loop_perm in E3. now rewrite E1, E2.
Qed.

Lemma move_median_to_first_perm (v : list T) (result a b c : Z) (v' : list T) :
  std.__move_median_to_first comp v result a b c = Some v' -> Permutation v v'.
Proof.
  unfold std.__move_median_to_first.
  destruct (std.deref v a) as [xa|]; [|discriminate].
  destruct (std.deref v b) as [xb|]; [|discriminate].
  destruct (std.deref v c) as [xc|]; [|discriminate].
  destruct (comp xa xb), (comp xb xc), (comp xa xc); apply iter_swap_perm.
Qed.

Lemma unguarded_partition_perm (fuel : nat) :
  forall (v : list T) (first last pivot : Z) (v' : list T) (cut : Z),
    std.__unguarded_partition comp fuel v first last pivot = Some (v', cut) ->
    Permutation v v'.
Proof.
  induction fuel as [|fuel IH]; intros v first last pivot v' cut;
    cbn [std.__unguarded_partition]; [discriminate|].
  destruct (std.scan_up comp (S (length v)) v first pivot) as [first'|];
    [|discriminate].
  destruct (std.scan_down comp (S (length v)) v pivot (last - 1)) as [last'|];
    [|discriminate].
  destruct (negb (first' <? last')%Z); [now intros [= <- _]|].
  destruct (std.iter_swap v first' last') as [v1|] eqn:E1; [|discriminate].
  intros H. apply IH in H. apply iter_swap_perm in E1. now rewrite E1.
Qed.

Lemma unguarded_partition_pivot_perm (v : list T) (first last : Z)
  (v' : list T) (cut : Z) :
  std.__unguarded_partition_pivot comp v first last = Some (v', cut) ->
  Permutation v v'.
Proof.
  unfold std.__unguarded_partition_pivot.
  destruct (std.__move_median_to_first comp v first (first + 1)
              (first + Z.quot (last - first) 2) (last - 1)) as [v1|] eqn:E1;
    [|discriminate].
  intros H. apply unguarded_partition_perm in H.
  apply move_median_to_first_perm in E1. now rewrite E1.
Qed.

Lemma introsort_loop_perm (depth_limit : nat) :
  forall (v : list T) (first last : Z) (v' : list T),
    std.__introsort_loop comp depth_limit v first last = Some v' ->
    Permutation v v'.
Proof.
  induction depth_limit as [|depth_limit IH]; intros v first last v';
    cbn [std.__introsort_loop];
    (destruct (last - first >? std._S_threshold)%Z; [|now intros [= <-]]).
  - apply partial_sort_perm.
  - destruct (std.__unguarded_partition_pivot comp v first last)
      as [[v1 cut]|] eqn:E1; [|discriminate].
    destruct (std.__introsort_loop comp depth_limit v1 cut last) as [v2|]
      eqn:E2; [|discriminate].
    intros E3. apply unguarded_partition_pivot_perm in E1.
    apply IH in E2. apply IH in E3. now rewrite E1, E2.
Qed.

End RearrangeFacts.

Section SortRearranges.

Context {T : Type}.
Variable comp : T -> T -> bool.

Lemma insertion_sort_perm_prefix (v0 : T) (mid rest v' : list T) :
  std.__insertion_sort comp (v0 :: mid ++ rest) 0 (Z.of_nat (S (length mid)))
  = Some v' ->
  exists placed,
    v' = placed ++ rest /\ Permutation (v0 :: mid) placed.
Proof.
  unfold std.__insertion_sort.
  destruct (Z.eqb_spec 0 (Z.of_nat (S (length mid)))) as [E|_]; [lia|].
  pose proof (insertion_sort_loop_spec comp mid [v0] rest
                (S (length (v0 :: mid ++ rest)))) as Hloop.
  intros H.
  assert (Hfuel : (length mid < S (length (v0 :: mid ++ rest)))%nat)
    by (cbn [length]; rewrite length_app; lia).
  specialize (Hloop ltac:(discriminate) Hfuel).
  pose proof (eq_trans (eq_sym Hloop) H) as H'. clear H Hloop.
  destruct (insert_all (guarded_insert comp) [v0] mid) as [placed|] eqn:E;
    [|discriminate].
  injection H' as <-. exists placed. split; [reflexivity|].
  exact (insert_all_perm _ (guarded_insert_perm comp) _ _ _ E).
Qed.

Lemma unguarded_insertion_sort_perm (pre mid v' : list T) :
  std.__unguarded_insertion_sort comp (pre ++ mid) (Z.of_nat (length pre))
    (Z.of_nat (length pre + length mid)) = Some v' ->
  Permutation (pre ++ mid) v'.
Proof.
  unfold std.__unguarded_insertion_sort.
  pose proof (unguarded_insertion_sort_loop_spec comp mid pre []
                (S (length (pre ++ mid)))) as Hloop.
  rewrite app_nil_r in Hloop.
  intros H. rewrite Hloop in H by (rewrite length_app; lia).
  destruct (insert_all (linear_insert comp) pre mid) as [placed|] eqn:E;
    [|discriminate].
  injection H as <-. rewrite app_nil_r.
  exact (insert_all_perm _ (linear_insert_perm comp) _ _ _ E).
Qed.

Lemma final_insertion_sort_perm (v v' : list T) :
  std.__final_insertion_sort comp v 0 (Z.of_nat (length v)) = Some v' ->
  Permutation v v'.
Proof.
  unfold std.__final_insertion_sort, std._S_threshold.
  destruct (Z.gtb_spec (Z.of_nat (length v) - 0) 16) as [Hlong|Hshort].
  - destruct v as [|v0 tail]; [cbn in Hlong; lia|].
    cbn [length] in Hlong.
    rewrite <- (firstn_skipn 15 tail).
    set (mid := firstn 15 tail). set (rest := skipn 15 tail).
    assert (Hmid : length mid = 15%nat)
      by (unfold mid; rewrite length_firstn; lia).
    change (0 + 16)%Z with (Z.of_nat (S 15)). rewrite <- Hmid.
    destruct (std.__insertion_sort comp (v0 :: mid ++ rest) 0
                (Z.of_nat (S (length mid)))) as [v1|] eqn:E1; [|discriminate].
    apply insertion_sort_perm_prefix in E1.
    destruct E1 as (placed & -> & Hplaced).
    assert (Hlen : length placed = S (length mid))
      by now rewrite <- Hplaced.
    rewrite <- Hlen.
    replace (length (v0 :: mid ++ rest)) with (length placed + length rest)%nat
      by (cbn [length]; rewrite length_app; lia).
    intros H. apply unguarded_insertion_sort_perm in H.
    rewrite <- H. change (v0 :: mid ++ rest) with ((v0 :: mid) ++ rest).
    now apply Permutation_app_tail.
  - destruct v as [|v0 tail]; [now intros [= <-]|].
    pose proof (insertion_sort_perm_prefix v0 tail [] v') as H.
    rewrite app_nil_r in H. intros E. apply H in E.
    destruct E as (placed & -> & Hplaced). now rewrite app_nil_r.
Qed.

(** Whatever [std::sort] returns is a rearrangement of the range, for every
    length and every comparison. *)
Lemma sort_perm (v after : list T) :
  std.sort comp v = Some after -> Permutation v after.
Proof.
  unfold std.sort, std.__sort.
  destruct (0 =? Z.of_nat (length v))%Z; [now intros [= <-]|].
  destruct (std.__introsort_loop comp
              (Z.to_nat (std.__lg (Z.of_nat (length v) - 0) * 2)) v 0
              (Z.of_nat (length v))) as [v1|] eqn:E1; [|discriminate].
  apply introsort_loop_perm in E1.
  rewrite (Permutation_length E1). intros E2.
  apply final_insertion_sort_perm in E2. now rewrite E1.
Qed.

End SortRearranges.

(** * The library's sort under a strict weak ordering *)

Section ArrayPositions.

Context {T : Type}.

Local Open Scope Z_scope.

Lemma deref_range (v : list T) (k : Z) (x : T) :
  std.deref v k = Some x -> 0 <= k < Z.of_nat (length v).
Proof.
  unfold std.deref. destruct (Z.ltb_spec k 0) as [|Hk]; [discriminate|].
  intros H. assert (Hn : nth_error v (Z.to_nat k) <> None) by congruence.
  apply nth_error_Some in Hn. lia.
Qed.

Lemma deref_in_range (v : list T) (k : Z) :
  0 <= k < Z.of_nat (length v) -> exists x, std.deref v k = Some x.
Proof.
  intros Hk. unfold std.deref. destruct (Z.ltb_spec k 0) as [|_]; [lia|].
  destruct (nth_error v (Z.to_nat k)) as [x|] eqn:E; [now exists x|].
  apply nth_error_None in E. lia.
Qed.

Lemma assign_spec (v : list T) (k : Z) (x : T) (v' : list T) :
  std.assign v k x = Some v' ->
  length v' = length v
  /\ std.deref v' k = Some x
  /\ forall j, j <> k -> std.deref v' j = std.deref v j.
Proof.
  intros H. apply assign_Some in H.
  destruct H as (pre & y & post & -> & -> & ->).
  split; [rewrite !length_app; reflexivity|].
  split; [apply deref_app|].
  intros j Hj. now apply deref_other.
Qed.

Lemma assign_in_range (v : list T) (k : Z) (x : T) :
  0 <= k < Z.of_nat (length v) -> exists v', std.assign v k x = Some v'.
Proof.
  intros Hk. destruct (deref_in_range v k Hk) as [y Hy].
  unfold std.assign. rewrite Hy. eauto.
Qed.

Lemma iter_swap_spec (v : list T) (a b : Z) :
  0 <= a < Z.of_nat (length v) -> 0 <= b < Z.of_nat (length v) ->
  exists v',
    std.iter_swap v a b = Some v'
    /\ length v' = length v
    /\ std.deref v' a = std.deref v b
    /\ std.deref v' b = std.deref v a
    /\ forall j, j <> a -> j <> b -> std.deref v' j = std.deref v j.
Proof.
  intros Ha Hb. unfold std.iter_swap.
  destruct (deref_in_range v a Ha) as [xa Exa].
  destruct (deref_in_range v b Hb) as [xb Exb].
  rewrite Exa, Exb.
  destruct (assign_in_range v a xb Ha) as [v1 E1]. rewrite E1.
  destruct (assign_spec _ _ _ _ E1) as (Hlen1 & Hsame1 & Hother1).
  assert (Hb1 : 0 <= b < Z.of_nat (length v1)) by now rewrite Hlen1.
  destruct (assign_in_range v1 b xa Hb1) as [v2 E2]. rewrite E2.
  destruct (assign_spec _ _ _ _ E2) as (Hlen2 & Hsame2 & Hother2).
  exists v2. split; [reflexivity|]. split; [congruence|].
  split; [|split].
  - destruct (Z.eq_dec a b) as [->|Hab]; [congruence|].
    rewrite Hother2 by exact Hab. congruence.
  - congruence.
  - intros j Hja Hjb. rewrite Hother2, Hother1 by assumption. reflexivity.
Qed.

Lemma same_outside_refl (lo hi : Z) (v : list T) : same_outside lo hi v v.
Proof. split; auto. Qed.

Lemma same_outside_trans (lo hi : Z) (v1 v2 v3 : list T) :
  same_outside lo hi v1 v2 -> same_outside lo hi v2 v3 ->
  same_outside lo hi v1 v3.
Proof.
  intros [Hl1 H1] [Hl2 H2]. split; [congruence|].
  intros k Hk. rewrite H2, H1 by exact Hk. reflexivity.
Qed.

Lemma same_outside_wider (lo hi lo' hi' : Z) (v v' : list T) :
  lo' <= lo -> hi <= hi' ->
  same_outside lo hi v v' -> same_outside lo' hi' v v'.
Proof.
  intros Hlo Hhi [Hl H]. split; [exact Hl|].
  intros k Hk. apply H. lia.
Qed.

Lemma assign_same_outside (lo hi : Z) (v : list T) (k : Z) (x : T)
  (v' : list T) :
  lo <= k < hi -> std.assign v k x = Some v' -> same_outside lo hi v v'.
Proof.
  intros Hk H. destruct (assign_spec _ _ _ _ H) as (Hlen & _ & Hother).
  split; [exact Hlen|]. intros j Hj. apply Hother. lia.
Qed.

Lemma nth_error_deref (v : list T) (n : nat) :
  nth_error v n = std.deref v (Z.of_nat n).
Proof.
  unfold std.deref. destruct (Z.ltb_spec (Z.of_nat n) 0) as [|_]; [lia|].
  now rewrite Nat2Z.id.
Qed.

(** A change inside [lo, hi) leaves what is before and what is after. *)
Lemma same_outside_split (A seg B v' : list T) :
  same_outside (Z.of_nat (length A)) (Z.of_nat (length A + length seg))
    (A ++ seg ++ B) v' ->
  exists seg', v' = A ++ seg' ++ B /\ length seg' = length seg.
Proof.
  intros [Hlen Hout].
  exists (firstn (length seg) (skipn (length A) v')).
  rewrite !length_app in Hlen.
  split; [|rewrite length_firstn, length_skipn; lia].
  apply nth_error_ext. intros n.
  destruct (Nat.lt_ge_cases n (length A)) as [HA|HA].
  - rewrite nth_error_app1 by exact HA.
    rewrite nth_error_deref, Hout by lia.
    rewrite <- nth_error_deref. now rewrite nth_error_app1.
  - rewrite (nth_error_app2 A) by exact HA.
    destruct (Nat.lt_ge_cases (n - length A) (length seg)) as [Hs|Hs].
    + rewrite nth_error_app1
        by (rewrite length_firstn, length_skipn; lia).
      rewrite nth_error_firstn.
      destruct (Nat.ltb_spec (n - length A) (length seg)) as [_|]; [|lia].
      rewrite nth_error_skipn. f_equal. lia.
    + rewrite nth_error_app2
        by (rewrite length_firstn, length_skipn; lia).
      rewrite length_firstn, length_skipn.
      replace (Nat.min (length seg) (length v' - length A)) with (length seg)
        by lia.
      rewrite nth_error_deref, Hout by lia.
      rewrite <- nth_error_deref.
      rewrite nth_error_app2 by lia.
      rewrite nth_error_app2 by lia. reflexivity.
Qed.

(** Positions of [A ++ seg ++ B] that fall into [seg]. *)
Lemma deref_middle (A seg B : list T) (k : Z) :
  Z.of_nat (length A) <= k < Z.of_nat (length A + length seg) ->
  std.deref (A ++ seg ++ B) k = std.deref seg (k - Z.of_nat (length A)).
Proof.
  intros Hk. unfold std.deref.
  destruct (Z.ltb_spec k 0) as [|_]; [lia|].
  destruct (Z.ltb_spec (k - Z.of_nat (length A)) 0) as [|_]; [lia|].
  rewrite nth_error_app2 by lia. rewrite nth_error_app1 by lia.
  f_equal. lia.
Qed.

Lemma In_deref (seg : list T) (x : T) :
  In x seg <-> exists k, std.deref seg k = Some x.
Proof.
  split.
  - intros H. apply In_nth_error in H. destruct H as [n Hn].
    exists (Z.of_nat n). now rewrite <- nth_error_deref.
  - intros [k Hk]. unfold std.deref in Hk.
    destruct (k <? 0); [discriminate|]. now apply nth_error_In in Hk.
Qed.

Lemma split_range (v : list T) (lo hi : Z) :
  0 <= lo <= hi -> hi <= Z.of_nat (length v) ->
  exists A seg B,
    v = A ++ seg ++ B
    /\ Z.of_nat (length A) = lo /\ Z.of_nat (length seg) = hi - lo.
Proof.
  intros Hlo Hhi.
  exists (firstn (Z.to_nat lo) v),
    (firstn (Z.to_nat (hi - lo)) (skipn (Z.to_nat lo) v)),
    (skipn (Z.to_nat (hi - lo)) (skipn (Z.to_nat lo) v)).
  split; [now rewrite !firstn_skipn|].
  rewrite !length_firstn, length_skipn. lia.
Qed.

(** A rearrangement that leaves what is outside [lo, hi) in place
    rearranges the range within itself. *)
Lemma range_perm (A seg B seg' : list T) :
  Permutation (A ++ seg ++ B) (A ++ seg' ++ B) -> Permutation seg seg'.
Proof.
  intros H. apply Permutation_app_inv_l in H.
  now apply Permutation_app_inv_r in H.
Qed.

Lemma range_provenance (v v' : list T) (lo hi : Z) :
  Permutation v v' -> same_outside lo hi v v' ->
  0 <= lo <= hi -> hi <= Z.of_nat (length v) ->
  forall k x, lo <= k < hi -> std.deref v' k = Some x ->
    exists k', lo <= k' < hi /\ std.deref v k' = Some x.
Proof.
  intros Hperm Hout Hlo Hhi k x Hk Hx.
  destruct (split_range v lo hi Hlo Hhi) as (A & seg & B & -> & HA & Hseg).
  assert (Hout' : same_outside (Z.of_nat (length A))
                    (Z.of_nat (length A + length seg)) (A ++ seg ++ B) v').
  { replace (Z.of_nat (length A + length seg)) with hi by lia.
    now rewrite HA. }
  destruct (same_outside_split _ _ _ _ Hout') as (seg' & -> & Hlen').
  apply range_perm in Hperm.
  rewrite deref_middle in Hx by lia.
  assert (Hin : In x seg) .
  { apply (Permutation_in _ (Permutation_sym Hperm)).
    apply In_deref. eauto. }
  apply In_deref in Hin. destruct Hin as [k0 Hk0].
  pose proof (deref_range _ _ _ Hk0) as Hr.
  exists (k0 + Z.of_nat (length A)). split; [lia|].
  rewrite deref_middle by lia.
  now replace (k0 + Z.of_nat (length A) - Z.of_nat (length A)) with k0 by lia.
Qed.

End ArrayPositions.

Section PartitionFacts.

Context {T : Type}.
Variable comp : T -> T -> bool.

(** The comparison is a strict weak ordering on the elements that satisfy
    [P]. *)
Variable P : T -> Prop.
Hypothesis sw_irrefl : forall a, P a -> comp a a = false.
Hypothesis sw_trans :
  forall a b c, P a -> P b -> P c ->
    comp a b = true -> comp b c = true -> comp a c = true.
Hypothesis sw_not_lt_trans :
  forall a b c, P a -> P b -> P c ->
    comp a b = false -> comp b c = false -> comp a c = false.

Local Open Scope Z_scope.

Lemma sw_asym (a b : T) : P a -> P b -> comp a b = true -> comp b a = false.
Proof.
  intros Ha Hb Hab. destruct (comp b a) eqn:Hba; [|reflexivity].
  rewrite <- (sw_irrefl a Ha). symmetry. now apply sw_trans with b.
Qed.

Lemma deref_P (v : list T) (k : Z) (x : T) :
  Forall P v -> std.deref v k = Some x -> P x.
Proof.
  intros HP H. rewrite Forall_forall in HP. apply HP.
  apply In_deref. now exists k.
Qed.

Lemma scan_up_spec (v : list T) (pivot : Z) (p : T) (s : Z) (fuel : nat) :
  forall first : Z,
    std.deref v pivot = Some p ->
    0 <= first <= s -> s - first < Z.of_nat fuel ->
    (exists xs, std.deref v s = Some xs /\ comp xs p = false) ->
    exists first',
      std.scan_up comp fuel v first pivot = Some first'
      /\ first <= first' <= s
      /\ (exists x, std.deref v first' = Some x /\ comp x p = false)
      /\ forall k x, first <= k < first' -> std.deref v k = Some x ->
                     comp x p = true.
Proof.
  induction fuel as [|fuel IH]; intros first Hp Hfirst Hfuel Hs; [lia|].
  destruct Hs as (xs & Hxs & Hstop).
  pose proof (deref_range _ _ _ Hxs) as Hrange.
  destruct (deref_in_range v first) as [x Hx]; [lia|].
  cbn [std.scan_up]. rewrite Hx, Hp.
  destruct (comp x p) eqn:Hxp.
  - assert (first <> s) by (intros ->; congruence).
    destruct (IH (first + 1)) as (first' & E & Hb & Hstop' & Hbelow);
      [exact Hp | lia | lia | now exists xs |].
    exists first'. split; [exact E|]. split; [lia|]. split; [exact Hstop'|].
    intros k y Hk Hy. destruct (Z.eq_dec k first) as [->|Hne].
    + congruence.
    + apply (Hbelow k); [lia | exact Hy].
  - exists first. split; [reflexivity|]. split; [lia|].
    split; [now exists x|]. intros k y Hk. lia.
Qed.

Lemma scan_down_spec (v : list T) (pivot : Z) (p : T) (s : Z) (fuel : nat) :
  forall last : Z,
    std.deref v pivot = Some p ->
    0 <= s <= last -> last < Z.of_nat (length v) ->
    last - s < Z.of_nat fuel ->
    (exists xs, std.deref v s = Some xs /\ comp p xs = false) ->
    exists last',
      std.scan_down comp fuel v pivot last = Some last'
      /\ s <= last' <= last
      /\ (exists x, std.deref v last' = Some x /\ comp p x = false)
      /\ forall k x, last' < k <= last -> std.deref v k = Some x ->
                     comp p x = true.
Proof.
  induction fuel as [|fuel IH]; intros last Hp Hlast Hrange Hfuel Hs; [lia|].
  destruct Hs as (xs & Hxs & Hstop).
  destruct (deref_in_range v last) as [x Hx]; [lia|].
  cbn [std.scan_down]. rewrite Hx, Hp.
  destruct (comp p x) eqn:Hpx.
  - assert (last <> s) by (intros ->; congruence).
    destruct (IH (last - 1)) as (last' & E & Hb & Hstop' & Habove);
      [exact Hp | lia | lia | lia | now exists xs |].
    exists last'. split; [exact E|]. split; [lia|]. split; [exact Hstop'|].
    intros k y Hk Hy. destruct (Z.eq_dec k last) as [->|Hne].
    + congruence.
    + apply (Habove k); [lia | exact Hy].
  - exists last. split; [reflexivity|]. split; [lia|].
    split; [now exists x|]. intros k y Hk. lia.
Qed.

(** The partition loop, from a state where [F, first) is not above the
    pivot, [last, L) is not below it, and something in [first, L) stops the
    upward scan. *)
Lemma unguarded_partition_spec (pivot : Z) (p : T) (F L : Z) (fuel : nat) :
  forall (v : list T) (first last : Z),
    Forall P v ->
    std.deref v pivot = Some p ->
    0 <= pivot < F -> F <= first <= last -> last <= L ->
    L <= Z.of_nat (length v) ->
    last - first < Z.of_nat fuel ->
    all_in F first v (fun x => comp p x = false) ->
    all_in last L v (fun x => comp x p = false) ->
    (exists s xs, first <= s < L /\ std.deref v s = Some xs
                  /\ comp xs p = false) ->
    exists v' cut,
      std.__unguarded_partition comp fuel v first last pivot = Some (v', cut)
      /\ same_outside F L v v'
      /\ F <= cut < L
      /\ all_in F cut v' (fun x => comp p x = false)
      /\ all_in cut L v' (fun x => comp x p = false).
Proof.
  induction fuel as [|fuel IH];
    intros v first last HP Hp Hpivot Hfirst Hlast HL Hfuel Hleft Hright Hs;
    [lia|].
  destruct Hs as (s & xs & Hsr & Hxs & Hstop).
  assert (Pp : P p) by exact (deref_P _ _ _ HP Hp).
  cbn [std.__unguarded_partition].
  destruct (scan_up_spec v pivot p s (S (length v)) first Hp)
    as (first' & -> & Hf' & (xf & Hxf & Hxfp) & Hbelow);
    [lia | pose proof (deref_range _ _ _ Hxs); lia | now exists xs |].
  destruct (scan_down_spec v pivot p pivot (S (length v)) (last - 1) Hp)
    as (last' & -> & Hl' & (xl & Hxl & Hpxl) & Habove);
    [lia | lia | lia | exists p; split; [exact Hp | now apply sw_irrefl] |].
  assert (Hleft' : all_in F first' v (fun x => comp p x = false)).
  { intros k x Hk Hx. destruct (Z.lt_ge_cases k first) as [Hlt|Hge].
    - apply (Hleft k); [lia | exact Hx].
    - apply sw_asym; [exact (deref_P _ _ _ HP Hx) | exact Pp|].
      apply (Hbelow k); [lia | exact Hx]. }
  assert (Hright' : all_in (last' + 1) L v (fun x => comp x p = false)).
  { intros k x Hk Hx. destruct (Z.lt_ge_cases k last) as [Hlt|Hge].
    - apply sw_asym; [exact Pp | exact (deref_P _ _ _ HP Hx)|].
      apply (Habove k); [lia | exact Hx].
    - apply (Hright k); [lia | exact Hx]. }
  destruct (Z.ltb_spec first' last') as [Hlt|Hge]; cbn [negb].
  - destruct (iter_swap_spec v first' last')
      as (v1 & E1 & Hlen1 & Hsa & Hsb & Hother);
      [pose proof (deref_range _ _ _ Hxf); lia
      |pose proof (deref_range _ _ _ Hxl); lia|].
    rewrite E1.
    assert (HP1 : Forall P v1).
    { apply (Permutation_Forall (iter_swap_perm _ _ _ _ E1)). exact HP. }
    destruct (IH v1 (first' + 1) last') as (v' & cut & E & Hout & Hcut & Hl2 & Hr2).
    + exact HP1.
    + rewrite Hother by lia. exact Hp.
    + exact Hpivot.
    + lia.
    + lia.
    + rewrite Hlen1. exact HL.
    + lia.
    + intros k x Hk Hx. destruct (Z.eq_dec k first') as [->|Hne].
      * rewrite Hsa, Hxl in Hx. injection Hx as <-. exact Hpxl.
      * rewrite Hother in Hx by lia. apply (Hleft' k); [lia | exact Hx].
    + intros k x Hk Hx. destruct (Z.eq_dec k last') as [->|Hne].
      * rewrite Hsb, Hxf in Hx. injection Hx as <-. exact Hxfp.
      * rewrite Hother in Hx by lia. apply (Hright' k); [lia | exact Hx].
    + exists last', xf. split; [lia|]. split; [|exact Hxfp].
      now rewrite Hsb.
    + exists v', cut. split; [exact E|]. split; [|auto].
      apply same_outside_trans with v1; [|exact Hout].
      split; [exact Hlen1|]. intros k Hk. apply Hother; lia.
  - exists v, first'. split; [reflexivity|].
    split; [apply same_outside_refl|]. split; [lia|]. split; [exact Hleft'|].
    intros k x Hk Hx. destruct (Z.eq_dec k last') as [->|Hne].
    + assert (first' = last') as -> by lia. congruence.
    + apply (Hright' k); [lia | exact Hx].
Qed.

Lemma move_median_to_first_spec (v : list T) (first mid last : Z) :
  Forall P v ->
  0 <= first -> first + 1 < mid -> mid < last - 1 ->
  last <= Z.of_nat (length v) ->
  exists v' p s xs,
    std.__move_median_to_first comp v first (first + 1) mid (last - 1)
    = Some v'
    /\ Forall P v'
    /\ same_outside first last v v'
    /\ std.deref v' first = Some p
    /\ first < s < last /\ std.deref v' s = Some xs /\ comp xs p = false.
Proof.
  intros HP Hfirst Hmid Hlast Hlen.
  destruct (deref_in_range v (first + 1)) as [xa Ha]; [lia|].
  destruct (deref_in_range v mid) as [xb Hb]; [lia|].
  destruct (deref_in_range v (last - 1)) as [xc Hc]; [lia|].
  pose proof (deref_P _ _ _ HP Ha) as Pa.
  pose proof (deref_P _ _ _ HP Hb) as Pb.
  pose proof (deref_P _ _ _ HP Hc) as Pc.
  unfold std.__move_median_to_first. rewrite Ha, Hb, Hc.
  assert (Hswap : forall m s xm xs,
            first < m < last -> first < s < last -> s <> m ->
            std.deref v m = Some xm -> std.deref v s = Some xs ->
            comp xs xm = false ->
            exists v' p s xs,
              std.iter_swap v first m = Some v'
              /\ Forall P v'
              /\ same_outside first last v v'
              /\ std.deref v' first = Some p
              /\ first < s < last /\ std.deref v' s = Some xs
              /\ comp xs p = false).
  { intros m s xm xs Hm Hs Hsm Hxm Hxs Hcomp.
    destruct (iter_swap_spec v first m)
      as (v' & E & Hlen' & Hsa & Hsb & Hother); [lia | lia |].
    exists v', xm, s, xs. split; [exact E|].
    split; [exact (Permutation_Forall (iter_swap_perm _ _ _ _ E) HP)|]. split.
    { split; [exact Hlen'|]. intros k Hk. apply Hother; lia. }
    split; [congruence|]. split; [exact Hs|]. split; [|exact Hcomp].
    rewrite Hother by lia. exact Hxs. }
  destruct (comp xa xb) eqn:Hab; [destruct (comp xb xc) eqn:Hbc|].
  - apply (Hswap mid (last - 1) xb xc); try lia; trivial.
    now apply sw_asym.
  - destruct (comp xa xc) eqn:Hac.
    + apply (Hswap (last - 1) mid xc xb); try lia; trivial.
    + apply (Hswap (first + 1) mid xa xb); try lia; trivial.
      now apply sw_asym.
  - destruct (comp xa xc) eqn:Hac; [|destruct (comp xb xc) eqn:Hbc].
    + apply (Hswap (first + 1) (last - 1) xa xc); try lia; trivial.
      now apply sw_asym.
    + apply (Hswap (last - 1) (first + 1) xc xa); try lia; trivial.
    + apply (Hswap mid (first + 1) xb xa); try lia; trivial.
Qed.

(** One partition step on a range of more than three elements: the range
    splits at [cut] into a lower part, not empty, with nothing above the
    pivot, and an upper part with nothing below it. *)
Lemma unguarded_partition_pivot_spec (v : list T) (first last : Z) :
  Forall P v ->
  0 <= first -> 4 < last - first -> last <= Z.of_nat (length v) ->
  exists v' cut p,
    std.__unguarded_partition_pivot comp v first last = Some (v', cut)
    /\ same_outside first last v v'
    /\ first < cut < last
    /\ P p
    /\ all_in first cut v' (fun x => comp p x = false)
    /\ all_in cut last v' (fun x => comp x p = false).
Proof.
  intros HP Hfirst Hsize Hlen. unfold std.__unguarded_partition_pivot.
  assert (Hq : 2 <= Z.quot (last - first) 2 < last - first - 1).
  { rewrite Z.quot_div_nonneg by lia.
    split.
    - apply Z.div_le_lower_bound; lia.
    - apply Z.div_lt_upper_bound; lia. }
  destruct (move_median_to_first_spec v first
              (first + Z.quot (last - first) 2) last)
    as (v1 & p & s & xs & -> & HP1 & Hout1 & Hp & Hs & Hxs & Hstop);
    [exact HP | lia | lia | lia | lia |].
  assert (Pp : P p) by exact (deref_P _ _ _ HP1 Hp).
  destruct Hout1 as [Hlen1 Hout1].
  destruct (unguarded_partition_spec first p (first + 1) last
              (S (length v1)) v1 (first + 1) last)
    as (v' & cut & E & Hout & Hcut & Hleft & Hright).
  - exact HP1.
  - exact Hp.
  - lia.
  - lia.
  - lia.
  - rewrite Hlen1. exact Hlen.
  - lia.
  - intros k x Hk. lia.
  - intros k x Hk. lia.
  - exists s, xs. split; [lia|]. now split.
  - exists v', cut, p. split; [exact E|]. split.
    { apply same_outside_trans with v1; [now split|].
      apply (same_outside_wider (first + 1) last); [lia | lia | exact Hout]. }
    split; [lia|]. split; [exact Pp|]. split; [|exact Hright].
    intros k x Hk Hx. destruct (Z.eq_dec k first) as [->|Hne].
    + destruct Hout as [_ Hout]. rewrite Hout, Hp in Hx by lia.
      injection Hx as <-. now apply sw_irrefl.
    + apply (Hleft k); [lia | exact Hx].
Qed.

End PartitionFacts.

Section HeapFacts.

Context {T : Type}.
Variable comp : T -> T -> bool.

Variable P : T -> Prop.
Hypothesis sw_irrefl : forall a, P a -> comp a a = false.
Hypothesis sw_trans :
  forall a b c, P a -> P b -> P c ->
    comp a b = true -> comp b c = true -> comp a c = true.
Hypothesis sw_not_lt_trans :
  forall a b c, P a -> P b -> P c ->
    comp a b = false -> comp b c = false -> comp a c = false.

Local Open Scope Z_scope.

Lemma below_ge (h0 h : Z) : below h0 h -> h0 <= h.
Proof. induction 1; lia. Qed.

Lemma below_parent (h0 h : Z) :
  below h0 h -> h0 < h -> below h0 ((h - 1) / 2).
Proof. intros H Hlt. inversion H; [lia | assumption]. Qed.

Lemma assign_Forall (v : list T) (k : Z) (x : T) (v' : list T) :
  Forall P v -> P x -> std.assign v k x = Some v' -> Forall P v'.
Proof.
  intros HP Hx H. apply assign_Some in H.
  destruct H as (pre & y & post & -> & _ & ->).
  apply Forall_app in HP. destruct HP as [Hpre Hpost].
  apply Forall_app. split; [exact Hpre|].
  constructor; [exact Hx | now inversion Hpost].
Qed.

(** Writing [x] into the node [h] of a heap. *)
Lemma assign_node (v : list T) (first h : Z) (x : T) (v' : list T) :
  std.assign v (first + h) x = Some v' ->
  forall i, std.deref v' (first + i)
            = if Z.eq_dec i h then Some x else std.deref v (first + i).
Proof.
  intros H i. destruct (assign_spec _ _ _ _ H) as (_ & Hsame & Hother).
  destruct (Z.eq_dec i h) as [->|Hne]; [exact Hsame|].
  apply Hother. lia.
Qed.

(** Putting [value] into the hole closes the heap, when [value] is not
    below the children of the hole and not above its parent. *)
Lemma heap_fill (first len h0 h : Z) (value : T) (v v' : list T) :
  Forall P v -> P value -> 0 <= h0 <= h ->
  heap_from comp first len v h0 ->
  (forall c xc, (c = 2 * h + 1 \/ c = 2 * h + 2) -> c < len ->
     std.deref v (first + c) = Some xc -> comp value xc = false) ->
  (h0 < h ->
   forall xp, std.deref v (first + (h - 1) / 2) = Some xp ->
              comp xp value = false) ->
  std.assign v (first + h) value = Some v' ->
  heap_from comp first len v' h0.
Proof.
  intros HP Pvalue Hh Hheap Hchildren Hparent Hassign.
  pose proof (assign_node _ _ _ _ _ Hassign) as Hnode.
  intros i xp xi Hi Hp0 Hxp Hxi.
  rewrite Hnode in Hxp, Hxi.
  destruct (Z.eq_dec i h) as [->|Hih].
  - injection Hxi as <-.
    destruct (Z.eq_dec ((h - 1) / 2) h) as [E|_]; [zlia|].
    apply Hparent; [zlia | exact Hxp].
  - destruct (Z.eq_dec ((i - 1) / 2) h) as [E|Hne].
    + injection Hxp as <-.
      apply (Hchildren i); [zlia | lia | exact Hxi].
    + now apply (Hheap i).
Qed.

(** Moving the parent of the hole down into the hole. *)
Lemma heap_pull_parent (first len h0 h : Z) (xp : T) (v v' : list T) :
  Forall P v -> 0 <= h0 < h -> h0 <= (h - 1) / 2 -> h < len ->
  heap_from comp first len v h0 ->
  std.deref v (first + (h - 1) / 2) = Some xp ->
  std.assign v (first + h) xp = Some v' ->
  heap_from comp first len v' h0.
Proof.
  intros HP Hh Hp0 Hlen Hheap Hxp Hassign.
  pose proof (assign_node _ _ _ _ _ Hassign) as Hnode.
  pose proof (deref_P P _ _ _ HP Hxp) as Pxp.
  assert (Hold : exists xh, std.deref v (first + h) = Some xh).
  { unfold std.assign in Hassign.
    destruct (std.deref v (first + h)) as [xh|]; [eauto | discriminate]. }
  destruct Hold as [xh Hxh].
  pose proof (deref_P P _ _ _ HP Hxh) as Pxh.
  assert (Hph : comp xp xh = false) by (apply (Hheap h); trivial; lia).
  intros i yp yi Hi Hi0 Hyp Hyi.
  rewrite Hnode in Hyp, Hyi.
  destruct (Z.eq_dec i h) as [->|Hih].
  - injection Hyi as <-.
    destruct (Z.eq_dec ((h - 1) / 2) h) as [E|_]; [zlia|].
    assert (yp = xp) as -> by congruence. now apply sw_irrefl.
  - destruct (Z.eq_dec ((i - 1) / 2) h) as [E|Hne].
    + injection Hyp as <-.
      pose proof (deref_P P _ _ _ HP Hyi) as Pyi.
      apply (sw_not_lt_trans xp xh yi); trivial.
      apply (Hheap i); trivial. now rewrite E.
    + now apply (Hheap i).
Qed.

Lemma push_heap_loop_spec (first len h0 : Z) (value : T) (fuel : nat) :
  forall (v : list T) (h : Z),
    Forall P v -> P value ->
    0 <= first -> first + len <= Z.of_nat (length v) ->
    0 <= h0 -> below h0 h -> h < len -> h < Z.of_nat fuel ->
    heap_from comp first len v h0 ->
    (forall c xc, (c = 2 * h + 1 \/ c = 2 * h + 2) -> c < len ->
       std.deref v (first + c) = Some xc -> comp value xc = false) ->
    exists v',
      std.__push_heap_loop comp fuel v first h h0 value = Some v'
      /\ heap_from comp first len v' h0
      /\ same_outside first (first + len) v v'
      /\ Forall P v'.
Proof.
  induction fuel as [|fuel IH];
    intros v h HP Pvalue Hfirst Hlen Hh0 Hbelow Hh Hfuel Hheap Hchildren;
    pose proof (below_ge _ _ Hbelow) as Hge; [lia|].
  cbn [std.__push_heap_loop].
  assert (Hfill : forall v',
            (h0 < h -> forall xp, std.deref v (first + (h - 1) / 2) = Some xp ->
                                  comp xp value = false) ->
            std.assign v (first + h) value = Some v' ->
            heap_from comp first len v' h0
            /\ same_outside first (first + len) v v' /\ Forall P v').
  { intros v' Hparent Hassign. split; [|split].
    - now apply (heap_fill first len h0 h value v v').
    - apply (assign_same_outside _ _ _ (first + h) value); [lia | exact Hassign].
    - now apply (assign_Forall v (first + h) value). }
  destruct (Z.gtb_spec h h0) as [Hgt|Hle].
  - replace (Z.quot (h - 1) 2) with ((h - 1) / 2) by zlia.
    destruct (deref_in_range v (first + (h - 1) / 2)) as [xp Hxp]; [zlia|].
    rewrite Hxp. destruct (comp xp value) eqn:Hcomp.
    + destruct (assign_in_range v (first + h) xp) as [v1 E1]; [lia|].
      rewrite E1.
      pose proof (deref_P P _ _ _ HP Hxp) as Pxp.
      pose proof (assign_node _ _ _ _ _ E1) as Hnode.
      pose proof (below_parent _ _ Hbelow Hgt) as Hbelow'.
      pose proof (below_ge _ _ Hbelow') as Hge'.
      destruct (IH v1 ((h - 1) / 2)) as (v' & E & Hheap' & Hout & HP').
      * now apply (assign_Forall v (first + h) xp).
      * exact Pvalue.
      * exact Hfirst.
      * destruct (assign_spec _ _ _ _ E1) as [-> _]. exact Hlen.
      * exact Hh0.
      * exact Hbelow'.
      * zlia.
      * zlia.
      * now apply (heap_pull_parent first len h0 h xp v v1).
      * intros c xc Hc Hclen Hxc. rewrite Hnode in Hxc.
        destruct (Z.eq_dec c h) as [->|Hch].
        -- injection Hxc as <-.
           apply (sw_asym comp P sw_irrefl sw_trans); trivial.
        -- pose proof (deref_P P _ _ _ HP Hxc) as Pxc.
           destruct (comp value xc) eqn:Hvc; [|reflexivity].
           assert (Hedge : comp xp xc = false).
           { apply (Hheap c); trivial; try zlia.
             replace ((c - 1) / 2) with ((h - 1) / 2) by zlia. exact Hxp. }
           rewrite <- Hedge. symmetry.
           now apply (sw_trans xp value xc).
      * exists v'. split; [exact E|]. split; [exact Hheap'|].
        split; [|exact HP'].
        apply same_outside_trans with v1; [|exact Hout].
        apply (assign_same_outside _ _ _ (first + h) xp); [lia | exact E1].
    + destruct (assign_in_range v (first + h) value) as [v' E]; [lia|].
      exists v'. split; [exact E|]. apply Hfill; [|exact E].
      intros _ xp' Hxp'. congruence.
  - destruct (assign_in_range v (first + h) value) as [v' E]; [lia|].
    exists v'. split; [exact E|]. apply Hfill; [|exact E].
    intros Hlt. lia.
Qed.

Lemma heap_from_later (first len h0 h1 : Z) (v : list T) :
  h0 <= h1 -> heap_from comp first len v h0 -> heap_from comp first len v h1.
Proof.
  intros Hle Hheap i xp xi Hi Hp0. apply (Hheap i); [exact Hi | lia].
Qed.

(** Moving the largest child of the hole up into the hole. *)
Lemma heap_pull_child (first len h0 h c : Z) (xc : T) (v v' : list T) :
  Forall P v -> 0 <= h0 <= h -> (c = 2 * h + 1 \/ c = 2 * h + 2) -> c < len ->
  heap_from comp first len v (h0 + 1) ->
  (h0 < h -> heap_from comp first len v h0) ->
  std.deref v (first + c) = Some xc ->
  (forall s xs, (s = 2 * h + 1 \/ s = 2 * h + 2) -> s < len ->
     std.deref v (first + s) = Some xs -> comp xc xs = false) ->
  std.assign v (first + h) xc = Some v' ->
  heap_from comp first len v' h0.
Proof.
  intros HP Hh Hc Hclen Hheap1 Hheap0 Hxc Hlargest Hassign.
  pose proof (assign_node _ _ _ _ _ Hassign) as Hnode.
  pose proof (deref_P P _ _ _ HP Hxc) as Pxc.
  assert (Hold : exists xh, std.deref v (first + h) = Some xh).
  { unfold std.assign in Hassign.
    destruct (std.deref v (first + h)) as [xh|]; [eauto | discriminate]. }
  destruct Hold as [xh Hxh].
  pose proof (deref_P P _ _ _ HP Hxh) as Pxh.
  intros i yp yi Hi Hi0 Hyp Hyi.
  rewrite Hnode in Hyp, Hyi.
  destruct (Z.eq_dec i h) as [->|Hih].
  - assert (yi = xc) as -> by congruence.
    destruct (Z.eq_dec ((h - 1) / 2) h) as [E|_]; [zlia|].
    assert (Hlt : h0 < h) by zlia.
    pose proof (deref_P P _ _ _ HP Hyp) as Pyp.
    apply (sw_not_lt_trans yp xh xc); trivial.
    + apply (Hheap0 Hlt h); trivial.
    + apply (Hheap0 Hlt c); trivial; try zlia.
      replace ((c - 1) / 2) with h by zlia. exact Hxh.
  - destruct (Z.eq_dec ((i - 1) / 2) h) as [E|Hne].
    + assert (yp = xc) as -> by congruence.
      apply (Hlargest i); [zlia | lia | exact Hyi].
    + destruct (Z.eq_dec h h0) as [->|Hhh0].
      * apply (Hheap1 i); trivial. lia.
      * apply (Hheap0 ltac:(lia) i); trivial.
Qed.

Lemma adjust_heap_loop_spec (first len h0 : Z) (fuel : nat) :
  forall (v : list T) (h : Z),
    Forall P v ->
    0 <= first -> first + len <= Z.of_nat (length v) ->
    0 <= h0 -> below h0 h -> h < len -> len - h <= Z.of_nat fuel ->
    heap_from comp first len v (h0 + 1) ->
    (h0 < h -> heap_from comp first len v h0) ->
    exists v' h',
      std.__adjust_heap_loop comp fuel v first h len h = Some (v', h', h')
      /\ below h0 h' /\ h' < len
      /\ ~ h' < (len - 1) / 2
      /\ heap_from comp first len v' (h0 + 1)
      /\ (h0 < h' -> heap_from comp first len v' h0)
      /\ same_outside first (first + len) v v'
      /\ Forall P v'.
Proof.
  induction fuel as [|fuel IH];
    intros v h HP Hfirst Hlen Hh0 Hbelow Hh Hfuel Hheap1 Hheap0;
    pose proof (below_ge _ _ Hbelow) as Hge; [lia|].
  cbn [std.__adjust_heap_loop].
  replace (Z.quot (len - 1) 2) with ((len - 1) / 2) by zlia.
  destruct (Z.ltb_spec h ((len - 1) / 2)) as [Hlt|Hnlt].
  - destruct (deref_in_range v (first + 2 * (h + 1))) as [xr Hxr]; [zlia|].
    destruct (deref_in_range v (first + (2 * (h + 1) - 1))) as [xl Hxl];
      [zlia|].
    rewrite Hxr, Hxl.
    pose proof (deref_P P _ _ _ HP Hxr) as Pxr.
    pose proof (deref_P P _ _ _ HP Hxl) as Pxl.
    set (c := if comp xr xl then 2 * (h + 1) - 1 else 2 * (h + 1)).
    assert (Hc : c = 2 * h + 1 \/ c = 2 * h + 2)
      by (unfold c; destruct (comp xr xl); lia).
    destruct (deref_in_range v (first + c)) as [xc Hxc]; [zlia|].
    rewrite Hxc.
    destruct (assign_in_range v (first + h) xc) as [v1 E1]; [lia|].
    rewrite E1.
    assert (Hlargest : forall s xs, (s = 2 * h + 1 \/ s = 2 * h + 2) ->
              s < len -> std.deref v (first + s) = Some xs ->
              comp xc xs = false).
    { intros s xs Hs _ Hxs. unfold c in Hxc.
      destruct (comp xr xl) eqn:Hrl.
      - assert (xc = xl) as -> by congruence.
        destruct Hs as [-> | ->].
        + replace (2 * h + 1) with (2 * (h + 1) - 1) in Hxs by lia.
          assert (xs = xl) as -> by congruence. now apply sw_irrefl.
        + replace (2 * h + 2) with (2 * (h + 1)) in Hxs by lia.
          assert (xs = xr) as -> by congruence.
          now apply (sw_asym comp P sw_irrefl sw_trans).
      - assert (xc = xr) as -> by congruence.
        destruct Hs as [-> | ->].
        + replace (2 * h + 1) with (2 * (h + 1) - 1) in Hxs by lia.
          assert (xs = xl) as -> by congruence. exact Hrl.
        + replace (2 * h + 2) with (2 * (h + 1)) in Hxs by lia.
          assert (xs = xr) as -> by congruence. now apply sw_irrefl. }
    assert (Hheap' : heap_from comp first len v1 h0).
    { apply (heap_pull_child first len h0 h c xc v v1); trivial; zlia. }
    destruct (IH v1 c) as (v' & h' & E & Hb' & Hh' & Hexit & H1 & H0 & Hout & HP').
    + apply (assign_Forall v (first + h) xc); trivial.
      exact (deref_P P _ _ _ HP Hxc).
    + exact Hfirst.
    + destruct (assign_spec _ _ _ _ E1) as [-> _]. exact Hlen.
    + exact Hh0.
    + apply below_child; [lia|]. replace ((c - 1) / 2) with h by zlia.
      exact Hbelow.
    + zlia.
    + lia.
    + apply (heap_from_later first len h0); [lia | exact Hheap'].
    + intros _. exact Hheap'.
    + exists v', h'. split; [exact E|]. repeat (split; [assumption|]).
      split; [|exact HP'].
      apply same_outside_trans with v1; [|exact Hout].
      apply (assign_same_outside _ _ _ (first + h) xc); [lia | exact E1].
  - exists v, h. split; [reflexivity|]. split; [exact Hbelow|].
    split; [exact Hh|]. split; [lia|]. split; [exact Hheap1|].
    split; [exact Hheap0|]. split; [apply same_outside_refl | exact HP].
Qed.

Lemma land_1 (len : Z) : 0 <= len -> Z.land len 1 = len mod 2.
Proof.
  intros H. change 1 with (Z.ones 1). now rewrite Z.land_ones by lia.
Qed.

Lemma adjust_heap_spec (v : list T) (first len h0 : Z) (value : T) :
  Forall P v -> P value ->
  0 <= first -> first + len <= Z.of_nat (length v) -> 0 <= h0 < len ->
  heap_from comp first len v (h0 + 1) ->
  exists v',
    std.__adjust_heap comp v first h0 len value = Some v'
    /\ heap_from comp first len v' h0
    /\ same_outside first (first + len) v v'
    /\ Forall P v'.
Proof.
  intros HP Pvalue Hfirst Hlen Hh0 Hheap1. unfold std.__adjust_heap.
  destruct (adjust_heap_loop_spec first len h0 (S (length v)) v h0)
    as (v1 & h1 & -> & Hbelow & Hh1 & Hexit & H1 & H0 & Hout1 & HP1);
    trivial; try lia; [apply below_root|].
  pose proof (below_ge _ _ Hbelow) as Hge.
  assert (Hlen1 : first + len <= Z.of_nat (length v1))
    by (destruct Hout1 as [-> _]; exact Hlen).
  unfold std.__push_heap.
  rewrite land_1 by lia.
  destruct (Z.eqb_spec (len mod 2) 0) as [Heven|Hodd];
    [destruct (Z.eqb_spec h1 (Z.quot (len - 2) 2)) as [Hlast|Hnlast]|];
    cbn [andb].
  - assert (Hc : 2 * (h1 + 1) - 1 = len - 1) by zlia.
    destruct (deref_in_range v1 (first + (2 * (h1 + 1) - 1))) as [xc Hxc];
      [lia|].
    rewrite Hxc.
    destruct (assign_in_range v1 (first + h1) xc) as [v2 E2]; [lia|].
    rewrite E2.
    pose proof (deref_P P _ _ _ HP1 Hxc) as Pxc.
    assert (Hheap2 : heap_from comp first len v2 h0).
    { apply (heap_pull_child first len h0 h1 (2 * (h1 + 1) - 1) xc v1 v2);
        trivial; try lia.
      intros s xs Hs Hslen Hxs.
      assert (s = 2 * (h1 + 1) - 1) as -> by lia.
      assert (xs = xc) as -> by congruence. now apply sw_irrefl. }
    destruct (push_heap_loop_spec first len h0 value (S (length v2)) v2
                (2 * (h1 + 1) - 1))
      as (v' & E & Hheap' & Hout & HP'); trivial.
    + now apply (assign_Forall v1 (first + h1) xc).
    + destruct (assign_spec _ _ _ _ E2) as [-> _]. exact Hlen1.
    + lia.
    + apply below_child; [lia|].
      replace ((2 * (h1 + 1) - 1 - 1) / 2) with h1 by zlia. exact Hbelow.
    + lia.
    + destruct (assign_spec _ _ _ _ E2) as [-> _]. lia.
    + intros c xc' Hcc Hclen. lia.
    + exists v'. split; [exact E|]. split; [exact Hheap'|].
      split; [|exact HP'].
      apply same_outside_trans with v1; [exact Hout1|].
      apply same_outside_trans with v2; [|exact Hout].
      apply (assign_same_outside _ _ _ (first + h1) xc); [lia | exact E2].
  - destruct (push_heap_loop_spec first len h0 value (S (length v1)) v1 h1)
      as (v' & E & Hheap' & Hout & HP'); trivial; try lia.
    + destruct (Z.eq_dec h1 h0) as [->|Hne]; [|apply H0; lia].
      intros i xp xi Hi Hi0. destruct (Z.eq_dec ((i - 1) / 2) h0) as [E|Hne].
      * zlia.
      * apply (H1 i); [exact Hi | lia].
    + intros c xc Hc Hclen. zlia.
    + exists v'. split; [exact E|]. split; [exact Hheap'|].
      split; [|exact HP']. now apply same_outside_trans with v1.
  - destruct (push_heap_loop_spec first len h0 value (S (length v1)) v1 h1)
      as (v' & E & Hheap' & Hout & HP'); trivial; try lia.
    + destruct (Z.eq_dec h1 h0) as [->|Hne]; [|apply H0; lia].
      intros i xp xi Hi Hi0. destruct (Z.eq_dec ((i - 1) / 2) h0) as [E|Hne].
      * zlia.
      * apply (H1 i); [exact Hi | lia].
    + intros c xc Hc Hclen. zlia.
    + exists v'. split; [exact E|]. split; [exact Hheap'|].
      split; [|exact HP']. now apply same_outside_trans with v1.
Qed.

Lemma make_heap_loop_spec (first len : Z) (fuel : nat) :
  forall (v : list T) (parent : Z),
    Forall P v ->
    0 <= first -> first + len <= Z.of_nat (length v) ->
    0 <= parent < len -> parent < Z.of_nat fuel ->
    heap_from comp first len v (parent + 1) ->
    exists v',
      std.__make_heap_loop comp fuel v first len parent = Some v'
      /\ heap_from comp first len v' 0
      /\ same_outside first (first + len) v v'
      /\ Forall P v'.
Proof.
  induction fuel as [|fuel IH];
    intros v parent HP Hfirst Hlen Hparent Hfuel Hheap; [lia|].
  cbn [std.__make_heap_loop].
  destruct (deref_in_range v (first + parent)) as [value Hvalue]; [lia|].
  rewrite Hvalue.
  destruct (adjust_heap_spec v first len parent value)
    as (v1 & -> & Hheap1 & Hout1 & HP1); trivial.
  { exact (deref_P P _ _ _ HP Hvalue). }
  destruct (Z.eqb_spec parent 0) as [->|Hne].
  - exists v1. auto.
  - destruct (IH v1 (parent - 1)) as (v' & E & Hheap' & Hout & HP');
      trivial; try lia.
    + destruct Hout1 as [-> _]. exact Hlen.
    + now replace (parent - 1 + 1) with parent by lia.
    + exists v'. split; [exact E|]. split; [exact Hheap'|].
      split; [|exact HP']. now apply same_outside_trans with v1.
Qed.

Lemma make_heap_spec (v : list T) (first last : Z) :
  Forall P v ->
  0 <= first <= last -> last <= Z.of_nat (length v) ->
  exists v',
    std.__make_heap comp v first last = Some v'
    /\ heap_from comp first (last - first) v' 0
    /\ same_outside first last v v'
    /\ Forall P v'.
Proof.
  intros HP Hfirst Hlast. unfold std.__make_heap.
  destruct (Z.ltb_spec (last - first) 2) as [Hsmall|Hbig].
  - exists v. split; [reflexivity|]. split; [|split].
    + intros i xp xi Hi Hi0. zlia.
    + apply same_outside_refl.
    + exact HP.
  - replace (Z.quot (last - first - 2) 2) with ((last - first - 2) / 2)
      by zlia.
    destruct (make_heap_loop_spec first (last - first) (S (length v)) v
                ((last - first - 2) / 2))
      as (v' & E & Hheap' & Hout & HP'); trivial; try zlia.
    + intros i xp xi Hi Hi0. zlia.
    + exists v'. split; [exact E|]. split; [exact Hheap'|].
      split; [|exact HP'].
      now replace (first + (last - first)) with last in Hout by lia.
Qed.

(** In a heap nothing is above the root. *)
Lemma heap_root_max (first len : Z) (v : list T) (xr : T) :
  Forall P v -> 0 <= first -> first + len <= Z.of_nat (length v) ->
  heap_from comp first len v 0 ->
  std.deref v first = Some xr ->
  forall (n : nat) (i : Z) (xi : T),
    Z.to_nat i = n -> 0 <= i < len ->
    std.deref v (first + i) = Some xi -> comp xr xi = false.
Proof.
  intros HP Hfirst Hlen Hheap Hxr.
  pose proof (deref_P P _ _ _ HP Hxr) as Pxr.
  induction n as [n IH] using lt_wf_ind. intros i xi Hn Hi Hxi.
  destruct (Z.eq_dec i 0) as [->|Hne].
  - rewrite Z.add_0_r in Hxi. assert (xi = xr) as -> by congruence.
    now apply sw_irrefl.
  - destruct (deref_in_range v (first + (i - 1) / 2)) as [xp Hxp]; [zlia|].
    pose proof (deref_P P _ _ _ HP Hxp) as Pxp.
    pose proof (deref_P P _ _ _ HP Hxi) as Pxi.
    apply (sw_not_lt_trans xr xp xi); trivial.
    + apply (IH (Z.to_nat ((i - 1) / 2))) with (i := (i - 1) / 2);
        trivial; zlia.
    + apply (Hheap i); trivial; zlia.
Qed.

Lemma sort_heap_loop_spec (first END : Z) (fuel : nat) :
  forall (v : list T) (last : Z),
    Forall P v ->
    0 <= first < last -> last <= END -> END <= Z.of_nat (length v) ->
    last - first <= Z.of_nat fuel ->
    heap_from comp first (last - first) v 0 ->
    (forall k j xk xj, last <= k < END -> first <= j < last ->
       std.deref v k = Some xk -> std.deref v j = Some xj ->
       comp xk xj = false) ->
    exists v',
      std.__sort_heap_loop comp fuel v first last = Some v'
      /\ same_outside first END v v'
      /\ Forall P v'
      /\ forall k xk xm, first < k < END ->
           std.deref v' k = Some xk -> std.deref v' first = Some xm ->
           comp xk xm = false.
Proof.
  induction fuel as [|fuel IH];
    intros v last HP Hfirst Hlast HEND Hfuel Hheap Hpopped; [lia|].
  cbn [std.__sort_heap_loop].
  destruct (Z.gtb_spec (last - first) 1) as [Hbig|Hsmall].
  - destruct (deref_in_range v (last - 1)) as [value Hvalue]; [lia|].
    destruct (deref_in_range v first) as [xr Hxr]; [lia|].
    destruct (assign_in_range v (last - 1) xr) as [v1 E1]; [lia|].
    destruct (assign_spec _ _ _ _ E1) as (Hlen1 & Hsame1 & Hother1).
    pose proof (deref_P P _ _ _ HP Hvalue) as Pvalue.
    pose proof (deref_P P _ _ _ HP Hxr) as Pxr.
    destruct (adjust_heap_spec v1 first (last - 1 - first) 0 value)
      as (v2 & E2 & Hheap2 & Hout2 & HP2); trivial; try lia.
    { now apply (assign_Forall v (last - 1) xr). }
    { intros i xp xi Hi Hi0 Hxp Hxi.
      rewrite Hother1 in Hxp, Hxi by zlia.
      apply (Hheap i); trivial; zlia. }
    assert (Epop : std.__pop_heap comp v first (last - 1) (last - 1) = Some v2).
    { unfold std.__pop_heap. now rewrite Hvalue, Hxr, E1. }
    rewrite Epop.
    pose proof (pop_heap_perm _ _ _ _ _ _ Epop) as Hperm.
    replace (first + (last - 1 - first)) with (last - 1) in Hout2 by lia.
    assert (Hout : same_outside first last v v2).
    { apply same_outside_trans with v1.
      - apply (assign_same_outside _ _ _ (last - 1) xr); [lia | exact E1].
      - apply (same_outside_wider first (last - 1)); [lia | lia | exact Hout2]. }
    destruct (IH v2 (last - 1)) as (v' & E & Hout' & HP' & Hmin);
      trivial; try lia.
    + destruct Hout as [-> _]. exact HEND.
    + intros k j xk xj Hk Hj Hxk Hxj.
      destruct (range_provenance v v2 first last Hperm Hout ltac:(lia)
                  ltac:(lia) j xj ltac:(lia) Hxj) as (j' & Hj' & Hxj').
      destruct (Z.eq_dec k (last - 1)) as [->|Hne].
      * destruct Hout2 as [_ Hout2]. rewrite Hout2, Hsame1 in Hxk by lia.
        assert (xk = xr) as -> by congruence.
        apply (heap_root_max first (last - first) v xr HP) with
          (n := Z.to_nat (j' - first)) (i := j' - first); trivial; try lia.
        now replace (first + (j' - first)) with j' by lia.
      * destruct Hout as [_ Hout]. rewrite Hout in Hxk by lia.
        apply (Hpopped k j'); trivial; lia.
    + exists v'. split; [exact E|]. split; [|split; [exact HP' | exact Hmin]].
      apply same_outside_trans with v2; [|exact Hout'].
      apply (same_outside_wider first last); [lia | lia | exact Hout].
  - exists v. split; [reflexivity|]. split; [apply same_outside_refl|].
    split; [exact HP|]. intros k xk xm Hk Hxk Hxm.
    apply (Hpopped k first); trivial; lia.
Qed.

(** [__partial_sort] over a whole range: it returns, and leaves at the front
    of the range an element that nothing in the range is below. *)
Lemma partial_sort_spec (v : list T) (first last : Z) :
  Forall P v -> 0 <= first < last -> last <= Z.of_nat (length v) ->
  exists v',
    std.__partial_sort comp v first last last = Some v'
    /\ same_outside first last v v'
    /\ Forall P v'
    /\ forall k xk xm, first < k < last ->
         std.deref v' k = Some xk -> std.deref v' first = Some xm ->
         comp xk xm = false.
Proof.
  intros HP Hfirst Hlast.
  unfold std.__partial_sort, std.__heap_select, std.__sort_heap.
  destruct (make_heap_spec v first last) as (v1 & -> & Hheap & Hout1 & HP1);
    trivial; try lia.
  cbn [std.__heap_select_loop]. rewrite Z.ltb_irrefl.
  destruct (sort_heap_loop_spec first last (S (length v1)) v1 last)
    as (v' & E & Hout & HP' & Hmin); trivial; try lia.
  - destruct Hout1 as [-> _]. exact Hlast.
  - destruct Hout1 as [Hlen1 _]. lia.
  - exists v'. split; [exact E|]. split; [|split; [exact HP' | exact Hmin]].
    now apply same_outside_trans with v1.
Qed.

End HeapFacts.

Section IntrosortFacts.

Context {T : Type}.
Variable comp : T -> T -> bool.

Variable P : T -> Prop.
Hypothesis sw_irrefl : forall a, P a -> comp a a = false.
Hypothesis sw_trans :
  forall a b c, P a -> P b -> P c ->
    comp a b = true -> comp b c = true -> comp a c = true.
Hypothesis sw_not_lt_trans :
  forall a b c, P a -> P b -> P c ->
    comp a b = false -> comp b c = false -> comp a c = false.

Local Open Scope Z_scope.

Lemma all_in_provenance (v v' : list T) (lo hi : Z) (Q : T -> Prop) :
  Permutation v v' -> same_outside lo hi v v' ->
  0 <= lo <= hi -> hi <= Z.of_nat (length v) ->
  all_in lo hi v Q -> all_in lo hi v' Q.
Proof.
  intros Hperm Hout Hlo Hhi Hall k x Hk Hx.
  destruct (range_provenance v v' lo hi Hperm Hout Hlo Hhi k x Hk Hx)
    as (k' & Hk' & Hx').
  now apply (Hall k').
Qed.

Lemma all_in_outside (v v' : list T) (lo hi a b : Z) (Q : T -> Prop) :
  same_outside lo hi v v' -> (b <= lo \/ hi <= a) ->
  all_in a b v Q -> all_in a b v' Q.
Proof.
  intros [_ Hout] Hdisjoint Hall k x Hk Hx.
  rewrite Hout in Hx by lia. now apply (Hall k).
Qed.

Lemma introsort_loop_spec (depth_limit : nat) :
  forall (v : list T) (first last : Z),
    Forall P v -> 0 <= first <= last -> last <= Z.of_nat (length v) ->
    exists v',
      std.__introsort_loop comp depth_limit v first last = Some v'
      /\ same_outside first last v v'
      /\ guarded_beyond comp first last v'.
Proof.
  induction depth_limit as [|depth_limit IH]; intros v first last HP Hfirst Hlast;
    cbn [std.__introsort_loop]; unfold guarded_beyond, std._S_threshold;
    (destruct (Z.gtb_spec (last - first) 16) as [Hbig|Hsmall];
     [|exists v; split; [reflexivity|]; split; [apply same_outside_refl|];
       intros k xk Hk; lia]).
  - destruct (partial_sort_spec comp P sw_irrefl sw_trans sw_not_lt_trans
                v first last) as (v' & E & Hout & HP' & Hmin);
      trivial; try lia.
    exists v'. split; [exact E|]. split; [exact Hout|].
    intros k xk Hk Hxk.
    destruct (deref_in_range v' first) as [xm Hxm];
      [destruct Hout as [-> _]; lia|].
    exists first, xm. split; [lia|]. split; [exact Hxm|].
    apply (Hmin k); trivial. lia.
  - destruct (unguarded_partition_pivot_spec comp P sw_irrefl sw_trans
                v first last)
      as (v1 & cut & p & E1 & Hout1 & Hcut & Pp & Hleft1 & Hright1);
      trivial; try lia.
    rewrite E1.
    pose proof (unguarded_partition_pivot_perm _ _ _ _ _ _ E1) as Hperm1.
    assert (HP1 : Forall P v1) by exact (Permutation_Forall Hperm1 HP).
    assert (Hlen1 : length v1 = length v) by apply Hout1.
    destruct (IH v1 cut last) as (v2 & E2 & Hout2 & _);
      trivial; try lia.
    rewrite E2.
    pose proof (introsort_loop_perm _ _ _ _ _ _ E2) as Hperm2.
    assert (HP2 : Forall P v2) by exact (Permutation_Forall Hperm2 HP1).
    assert (Hlen2 : length v2 = length v1) by apply Hout2.
    destruct (IH v2 first cut) as (v3 & E3 & Hout3 & Hguard3);
      trivial; try lia.
    pose proof (introsort_loop_perm _ _ _ _ _ _ E3) as Hperm3.
    assert (HP3 : Forall P v3) by exact (Permutation_Forall Hperm3 HP2).
    assert (Hleft3 : all_in first cut v3 (fun x => comp p x = false)).
    { apply (all_in_provenance v2 v3); trivial; try lia.
      apply (all_in_outside v1 v2 cut last); trivial. now left. }
    assert (Hright3 : all_in cut last v3 (fun x => comp x p = false)).
    { apply (all_in_outside v2 v3 first cut); trivial; [now right|].
      apply (all_in_provenance v1 v2); trivial; lia. }
    exists v3. split; [exact E3|]. split.
    { apply same_outside_trans with v1; [exact Hout1|].
      apply same_outside_trans with v2.
      - apply (same_outside_wider cut last); [lia | lia | exact Hout2].
      - apply (same_outside_wider first cut); [lia | lia | exact Hout3]. }
    intros k xk Hk Hxk.
    destruct (Z.lt_ge_cases k cut) as [Hlow|Hhigh].
    + apply Hguard3; trivial. unfold std._S_threshold. lia.
    + destruct (deref_in_range v3 first) as [xm Hxm];
        [destruct Hout3 as [-> _]; lia|].
      exists first, xm. split; [lia|]. split; [exact Hxm|].
      pose proof (deref_P P _ _ _ HP3 Hxk) as Pxk.
      pose proof (deref_P P _ _ _ HP3 Hxm) as Pxm.
      apply (sw_not_lt_trans xk p xm); trivial.
      * apply (Hright3 k); trivial. lia.
      * apply (Hleft3 first); trivial. lia.
Qed.

End IntrosortFacts.

Section SortSpec.

Context {T : Type}.
Variable comp : T -> T -> bool.
Variable dom : list T.
Hypothesis comp_swo : strict_weak_ordering_on comp dom.

Local Open Scope Z_scope.

Lemma insertion_sort_prefix (v0 : T) (mid rest : list T) :
  std.__insertion_sort comp (v0 :: mid ++ rest) 0 (Z.of_nat (S (length mid)))
  = option_map (fun placed => placed ++ rest)
      (insert_all (guarded_insert comp) [v0] mid).
Proof.
  unfold std.__insertion_sort.
  destruct (Z.eqb_spec 0 (Z.of_nat (S (length mid)))) as [E|_]; [lia|].
  apply (insertion_sort_loop_spec comp mid [v0] rest
           (S (length (v0 :: mid ++ rest)))); [discriminate|].
  cbn [length]. rewrite length_app. lia.
Qed.

Lemma unguarded_insertion_sort_suffix (pre mid : list T) :
  std.__unguarded_insertion_sort comp (pre ++ mid) (Z.of_nat (length pre))
    (Z.of_nat (length pre + length mid))
  = insert_all (linear_insert comp) pre mid.
Proof.
  unfold std.__unguarded_insertion_sort.
  pose proof (unguarded_insertion_sort_loop_spec comp mid pre []
                (S (length (pre ++ mid)))) as Hloop.
  rewrite app_nil_r in Hloop. rewrite Hloop by (rewrite length_app; lia).
  destruct (insert_all (linear_insert comp) pre mid); cbn; [|reflexivity].
  now rewrite app_nil_r.
Qed.

Lemma linear_insert_sorted (val : T) (pre placed : list T) :
  In val dom -> incl pre dom -> is_sorted comp pre = true ->
  linear_insert comp val pre = Some placed ->
  is_sorted comp placed = true.
Proof.
  intros Hval Hpre Hs H. apply linear_insert_split in H.
  destruct H as (l1 & x & l2 & E & -> & Hx & Hl2).
  replace (l1 ++ x :: val :: l2) with ((l1 ++ [x]) ++ val :: l2)
    by now rewrite <- app_assoc.
  apply (is_sorted_insert comp dom comp_swo); trivial.
  - intros y Hy. apply Hpre. rewrite E. apply in_or_app. right. now right.
  - rewrite <- app_assoc. cbn [app]. now rewrite <- E.
  - rewrite E in Hs. apply is_sorted_earlier in Hs.
    apply Forall_app. split; [|now constructor].
    rewrite Forall_forall in Hs |- *. intros y Hy.
    apply (swo_not_lt_trans comp dom comp_swo val x y); trivial.
    + apply Hpre. rewrite E. apply in_or_app. right. now left.
    + apply Hpre. rewrite E. apply in_or_app. now left.
    + now apply Hs.
Qed.

(** The unguarded pass returns, and returns a sorted range, when every
    element it inserts has before it an element that it is not below. *)
Lemma insert_all_linear_spec (mid : list T) :
  forall pre : list T,
    is_sorted comp pre = true -> incl (pre ++ mid) dom ->
    (forall m1 val m2, mid = m1 ++ val :: m2 ->
       exists y, In y (pre ++ m1) /\ comp val y = false) ->
    exists placed,
      insert_all (linear_insert comp) pre mid = Some placed
      /\ is_sorted comp placed = true.
Proof.
  induction mid as [|val mid IH]; intros pre Hs Hdom Hguard; cbn [insert_all].
  - now exists pre.
  - assert (Hval : In val dom) by (apply Hdom, in_or_app; right; now left).
    assert (Hpre : incl pre dom)
      by (intros y Hy; apply Hdom, in_or_app; now left).
    destruct (linear_insert comp val pre) as [pre'|] eqn:E.
    + pose proof (linear_insert_perm _ _ _ _ E) as Hperm.
      apply IH.
      * now apply (linear_insert_sorted val pre).
      * intros y Hy. apply in_app_or in Hy. destruct Hy as [Hy|Hy].
        -- apply (Permutation_in _ (Permutation_sym Hperm)) in Hy.
           apply Hdom. apply in_app_or in Hy. apply in_or_app.
           destruct Hy as [Hy|[<-|[]]]; [now left | right; now left].
        -- apply Hdom, in_or_app. right. now right.
      * intros m1 val' m2 Emid.
        destruct (Hguard (val :: m1) val' m2) as (y & Hy & Hcomp).
        { now rewrite Emid. }
        exists y. split; [|exact Hcomp].
        apply in_app_or in Hy. apply in_or_app.
        destruct Hy as [Hy|[<-|Hy]].
        -- left. apply (Permutation_in _ Hperm), in_or_app. now left.
        -- left. apply (Permutation_in _ Hperm), in_or_app. right. now left.
        -- now right.
    + exfalso. apply linear_insert_None in E.
      destruct (Hguard [] val mid eq_refl) as (y & Hy & Hcomp).
      rewrite app_nil_r in Hy. rewrite Forall_forall in E.
      rewrite (E y Hy) in Hcomp. discriminate.
Qed.

Lemma deref_front (A B : list T) (j : Z) (x : T) :
  j < Z.of_nat (length A) -> std.deref (A ++ B) j = Some x -> In x A.
Proof.
  intros Hj H. pose proof (deref_range _ _ _ H) as Hr.
  unfold std.deref in H. destruct (Z.ltb_spec j 0) as [|_]; [lia|].
  rewrite nth_error_app1 in H by lia. now apply nth_error_In in H.
Qed.

Lemma final_insertion_sort_spec (v : list T) :
  incl v dom -> guarded_beyond comp 0 (Z.of_nat (length v)) v ->
  exists after,
    std.__final_insertion_sort comp v 0 (Z.of_nat (length v)) = Some after
    /\ is_sorted comp after = true.
Proof.
  intros Hdom Hguard. unfold std.__final_insertion_sort.
  unfold guarded_beyond in Hguard. unfold std._S_threshold in *.
  assert (Hfront : forall v0 mid,
            incl (v0 :: mid) dom ->
            exists placed,
              insert_all (guarded_insert comp) [v0] mid = Some placed
              /\ is_sorted comp placed = true
              /\ Permutation (v0 :: mid) placed).
  { intros v0 mid Hin.
    destruct (insert_all_guarded_spec comp dom comp_swo mid [v0])
      as (placed & E & Hs & _); [discriminate | exact Hin | |].
    - apply is_sorted_cons. repeat split; [|constructor].
      apply (swo_irrefl comp dom comp_swo). apply Hin. now left.
    - exists placed. split; [exact E|]. split; [exact Hs|].
      exact (insert_all_perm _ (guarded_insert_perm comp) _ _ _ E). }
  destruct (Z.gtb_spec (Z.of_nat (length v) - 0) 16) as [Hlong|Hshort].
  - destruct v as [|v0 tail]; [cbn in Hlong; lia|].
    cbn [length] in Hlong.
    revert Hdom Hguard. rewrite <- (firstn_skipn 15 tail).
    set (mid := firstn 15 tail). set (rest := skipn 15 tail).
    intros Hdom Hguard.
    assert (Hmid : length mid = 15%nat)
      by (unfold mid; rewrite length_firstn; lia).
    change (0 + 16) with (Z.of_nat (S 15)). rewrite <- Hmid.
    rewrite insertion_sort_prefix.
    destruct (Hfront v0 mid) as (placed & E & Hs & Hperm).
    { intros y Hy. apply Hdom.
      change (v0 :: mid ++ rest) with ((v0 :: mid) ++ rest).
      apply in_or_app. now left. }
    rewrite E. cbn [option_map].
    assert (Hlen : length placed = S (length mid)) by now rewrite <- Hperm.
    rewrite <- Hlen.
    replace (length (v0 :: mid ++ rest)) with (length placed + length rest)%nat
      by (cbn [length]; rewrite length_app; lia).
    rewrite unguarded_insertion_sort_suffix.
    apply insert_all_linear_spec; [exact Hs| |].
    + intros y Hy. apply Hdom.
      change (v0 :: mid ++ rest) with ((v0 :: mid) ++ rest).
      apply in_app_or in Hy. apply in_or_app.
      destruct Hy as [Hy|Hy]; [left | now right].
      now apply (Permutation_in _ (Permutation_sym Hperm)).
    + intros m1 val m2 Erest.
      destruct (Hguard (Z.of_nat (length ((v0 :: mid) ++ m1))) val)
        as (j & xj & Hj & Hxj & Hcomp).
      * rewrite !length_app. cbn [length]. rewrite length_app, Erest.
        rewrite length_app. cbn [length]. lia.
      * change (v0 :: mid ++ rest) with ((v0 :: mid) ++ rest).
        rewrite Erest, app_assoc. apply deref_app.
      * exists xj. split; [|exact Hcomp].
        change (v0 :: mid ++ rest) with ((v0 :: mid) ++ rest) in Hxj.
        rewrite Erest, app_assoc in Hxj.
        apply deref_front in Hxj; [|lia].
        apply in_app_or in Hxj. apply in_or_app.
        destruct Hxj as [Hxj|Hxj]; [left | now right].
        now apply (Permutation_in _ Hperm).
  - destruct v as [|v0 tail]; [now exists []|].
    pose proof (insertion_sort_prefix v0 tail []) as Hsort.
    rewrite app_nil_r in Hsort. cbn [length]. rewrite Hsort.
    destruct (Hfront v0 tail Hdom) as (placed & E & Hs & _).
    rewrite E. cbn [option_map]. exists (placed ++ []).
    now rewrite app_nil_r.
Qed.

(** [std::sort] returns, and returns the range rearranged and sorted, for
    every length, when the comparison is a strict weak ordering on the
    elements. *)
Lemma sort_spec_in (v : list T) :
  incl v dom ->
  exists after,
    std.sort comp v = Some after
    /\ Permutation v after
    /\ is_sorted comp after = true.
Proof.
  intros Hdom.
  destruct (introsort_loop_spec comp (fun a => In a dom)
              (swo_irrefl comp dom comp_swo)
              (proj1 (proj2 comp_swo))
              (swo_not_lt_trans comp dom comp_swo)
              (Z.to_nat (std.__lg (Z.of_nat (length v) - 0) * 2))
              v 0 (Z.of_nat (length v)))
    as (v1 & E1 & Hout1 & Hguard1); [now apply Forall_forall | lia | lia |].
  pose proof (introsort_loop_perm _ _ _ _ _ _ E1) as Hperm1.
  assert (Hlen1 : length v1 = length v) by apply Hout1.
  rewrite <- Hlen1 in Hguard1.
  destruct (final_insertion_sort_spec v1) as (after & E2 & Hs);
    [|exact Hguard1|].
  { intros y Hy. apply Hdom.
    now apply (Permutation_in _ (Permutation_sym Hperm1)). }
  assert (E : std.sort comp v
              = if (0 =? Z.of_nat (length v)) then Some v else Some after).
  { unfold std.sort, std.__sort.
    destruct (0 =? Z.of_nat (length v)); [reflexivity|].
    rewrite E1. rewrite <- Hlen1. exact E2. }
  destruct (Z.eqb_spec 0 (Z.of_nat (length v))) as [Hempty|_].
  - exists v. split; [exact E|]. split; [reflexivity|].
    destruct v; [reflexivity | cbn in Hempty; lia].
  - exists after. split; [exact E|]. split; [|exact Hs].
    now apply sort_perm with (comp := comp).
Qed.

End SortSpec.

Theorem sort_spec (T : Type) (comp : T -> T -> bool) (v : list T) :
  strict_weak_ordering_on comp v ->
  exists after,
    std.sort comp v = Some after
    /\ Permutation v after
    /\ is_sorted comp after = true.
Proof.
  intros Hswo. apply (sort_spec_in comp v Hswo). apply incl_refl.
Qed.

(** * Facts about binary64 *)

Section Binary64Facts.

Local Open Scope float_scope.

Lemma SFltb_asym (u v : spec_float) : SFltb u v = true -> SFltb v u = false.
Proof. unfold SFltb, SFcompare. destruct u, v; order_cases. Qed.

Lemma SFltb_trans (u v w : spec_float) :
  SFltb u v = true -> SFltb v w = true -> SFltb u w = true.
Proof. unfold SFltb, SFcompare. destruct u, v, w; order_cases. Qed.

Lemma SFleb_of_not_ltb (u v : spec_float) :
  u <> S754_nan -> v <> S754_nan -> SFltb v u = false -> SFleb u v = true.
Proof.
  unfold SFltb, SFleb, SFcompare.
  destruct u, v; intros; try congruence; order_cases.
Qed.

Lemma SFltb_antisym_finite s m e s' m' e' :
  SFltb (S754_finite s m e) (S754_finite s' m' e') = false ->
  SFltb (S754_finite s' m' e') (S754_finite s m e) = false ->
  S754_finite s m e = S754_finite s' m' e'.
Proof. unfold SFltb, SFcompare. order_cases. Qed.

Lemma float_ltb_asym (a b : float) : (a <? b) = true -> (b <? a) = false.
Proof. rewrite !ltb_spec. apply SFltb_asym. Qed.

Lemma float_ltb_trans (a b c : float) :
  (a <? b) = true -> (b <? c) = true -> (a <? c) = true.
Proof. rewrite !ltb_spec. apply SFltb_trans. Qed.

(** The doubles above zero: the positive finite ones and [+infinity]. *)
Lemma positive_cases (a : float) :
  (0 <? a) = true ->
  (exists m e, Prim2SF a = S754_finite false m e)
  \/ Prim2SF a = S754_infinity false.
Proof.
  rewrite ltb_spec. change (Prim2SF 0) with (S754_zero false).
  unfold SFltb, SFcompare.
  destruct (Prim2SF a) as [s|s| |s m e]; try destruct s; try discriminate.
  - now right.
  - left. now exists m, e.
Qed.

Lemma not_positive_of_leb_0 (a : float) : (a <=? 0) = true -> (0 <? a) = false.
Proof.
  rewrite leb_spec, ltb_spec. change (Prim2SF 0) with (S754_zero false).
  unfold SFleb, SFltb, SFcompare.
  destruct (Prim2SF a) as [s|s| |s m e]; try destruct s;
    try discriminate; reflexivity.
Qed.

Lemma positive_leb (a b : float) :
  (0 <? a) = true -> (0 <? b) = true -> (b <? a) = false -> (a <=? b) = true.
Proof.
  intros Ha Hb. rewrite leb_spec, ltb_spec. apply SFleb_of_not_ltb.
  - destruct (positive_cases _ Ha) as [(m & e & ->)| ->]; discriminate.
  - destruct (positive_cases _ Hb) as [(m & e & ->)| ->]; discriminate.
Qed.

Lemma positive_antisym (a b : float) :
  (0 <? a) = true -> (0 <? b) = true ->
  (a <? b) = false -> (b <? a) = false -> a = b.
Proof.
  intros Ha Hb. rewrite !ltb_spec. intros Hab Hba. apply Prim2SF_inj.
  destruct (positive_cases _ Ha) as [(m & e & Ea)| Ea];
    destruct (positive_cases _ Hb) as [(m' & e' & Eb)| Eb];
    rewrite Ea, Eb in *.
  - now apply SFltb_antisym_finite.
  - discriminate.
  - discriminate.
  - reflexivity.
Qed.

(** Multiplying by [1.0] is exact. *)
Lemma iter_pos_shr_1_52 (m : positive) :
  SpecFloat.iter_pos shr_1 52
    {| shr_m := Zpos (4503599627370496 * m); shr_r := false; shr_s := false |}
  = {| shr_m := Zpos m; shr_r := false; shr_s := false |}.
Proof. reflexivity. Qed.

Lemma digits2_pos_shift_52 (m : positive) :
  digits2_pos (4503599627370496 * m) = (digits2_pos m + 52)%positive.
Proof. cbn [Pos.mul digits2_pos]. lia. Qed.

Lemma SFmul_one_finite (s : bool) (m : positive) (e : Z) :
  SpecFloat.valid_binary prec emax (S754_finite s m e) = true ->
  SFmul prec emax (S754_finite s m e)
    (S754_finite false 4503599627370496 (-52))
  = S754_finite s m e.
Proof.
  intros V. cbn [SpecFloat.valid_binary] in V.
  unfold bounded, canonical_mantissa in V.
  apply andb_prop in V. destruct V as [Hc Hb].
  apply Z.eqb_eq in Hc.
  cbn [SFmul]. rewrite xorb_false_r, (Pos.mul_comm m).
  unfold binary_round_aux, shr_fexp at 1.
  cbn [Zdigits2]. rewrite digits2_pos_shift_52.
  replace (Z.pos (digits2_pos m + 52) + (e + -52))%Z
    with (Z.pos (digits2_pos m) + e)%Z by lia.
  rewrite Hc.
  replace (e - (e + -52))%Z with 52%Z by lia.
  cbn [shr_record_of_loc shr]. rewrite iter_pos_shr_1_52.
  cbn [shr_m loc_of_shr_record round_nearest_even].
  unfold shr_fexp. cbn [Zdigits2].
  replace (e + -52 + 52)%Z with e by lia.
  rewrite Hc, Z.sub_diag. cbn [shr shr_record_of_loc shr_m].
  now rewrite Hb.
Qed.

Lemma float_mul_1_r (a : float) : a * 1 = a.
Proof.
  apply Prim2SF_inj. rewrite mul_spec.
  change (Prim2SF 1) with (S754_finite false 4503599627370496 (-52)).
  pose proof (Prim2SF_valid a) as V.
  destruct (Prim2SF a) as [s|s| |s m e]; try reflexivity.
  - cbn. now rewrite xorb_false_r.
  - cbn. now rewrite xorb_false_r.
  - now apply SFmul_one_finite.
Qed.

(** A positive finite double times [0.0] is [+0.0]; its opposite times
    [0.0] is [-0.0]. *)
Lemma positive_finite_mul_0 (a : float) :
  (0 <? a) = true -> is_real a = true -> a * 0 = 0 /\ - a * 0 = - 0.
Proof.
  intros Ha Hf. unfold is_real in Hf.
  split; apply Prim2SF_inj; rewrite mul_spec; [|rewrite opp_spec];
    change (Prim2SF 0) with (S754_zero false);
    change (Prim2SF (- 0)) with (S754_zero true);
    destruct (positive_cases _ Ha) as [(m & e & E)| E]; rewrite E in *;
    try discriminate; reflexivity.
Qed.

(** [0.0 * t / (2 * M_PI)] is a zero for every finite [t]. *)
Lemma zero_mul_div_2pi (t : float) :
  is_real t = true ->
  exists s, Prim2SF (0 * t / (2 * 0x1.921fb54442d18p+1)) = S754_zero s.
Proof.
  intros Hf. unfold is_real in Hf.
  rewrite div_spec, mul_spec.
  change (Prim2SF 0) with (S754_zero false).
  change (Prim2SF (2 * 0x1.921fb54442d18p+1))
    with (S754_finite false 7074237752028440 (-50)).
  destruct (Prim2SF t) as [s|s| |s m e]; try discriminate.
  - exists (xorb (xorb false s) false). reflexivity.
  - exists (xorb (xorb false s) false). reflexivity.
Qed.

Lemma eqb_zero_of_zero (a : float) (s : bool) :
  Prim2SF a = S754_zero s -> (a =? 0) = true.
Proof.
  intros E. rewrite eqb_spec, E. reflexivity.
Qed.

(** Sorted positive doubles stand in non-decreasing order. *)
Lemma sorted_positive_ascending (l : list float) :
  Forall (fun r => (0 <? r) = true) l ->
  is_sorted PrimFloat.ltb l = true ->
  StronglySorted (fun r1 r2 => (r1 <=? r2) = true) l.
Proof.
  induction 1 as [|a l Ha Hl IH]; intros Hs; constructor.
  - apply IH. now apply is_sorted_cons in Hs.
  - apply is_sorted_cons in Hs. destruct Hs as (_ & Hb & _).
    rewrite Forall_forall in *. intros b Hin.
    apply positive_leb; auto.
Qed.


End Binary64Facts.

(** * The program over binary64 *)

Section Binary64.

(** [cos] and [sin] of the platform's [<cmath>]. *)
Variables libm_cos libm_sin : float -> float.

Local Hint Extern 0 (DoubleOps float) =>
  exact (binary64 libm_cos libm_sin) : typeclass_instances.

Local Open Scope float_scope.

Lemma by_radius_asym (a b : shared_ptr (Circle float)) :
  by_radius a b = true -> by_radius b a = false.
Proof. apply float_ltb_asym. Qed.

Lemma by_radius_trans (a b c : shared_ptr (Circle float)) :
  by_radius a b = true -> by_radius b c = true -> by_radius a c = true.
Proof. apply float_ltb_trans. Qed.

(** The class invariant: a constructed circle has a radius above zero (so it
    is not NaN either). *)
Lemma Circle_ctor_positive (radius : float) :
  (0 <? getRadius (Circle_ctor radius)) = true.
Proof.
  cbn. destruct (0 <? radius) eqn:E; [exact E | reflexivity].
Qed.

Lemma constructed_circle_positive (c : Circle float) :
  constructed_circle c -> (0 <? getRadius c) = true.
Proof. intros [radius ->]. apply Circle_ctor_positive. Qed.

Lemma by_radius_irrefl (a : shared_ptr (Circle float)) :
  by_radius a a = false.
Proof.
  destruct (by_radius a a) eqn:E; [|reflexivity].
  now rewrite (by_radius_asym _ _ E) in E.
Qed.

Lemma extract_circles_constructed (curves : list (shared_ptr (Curve float))) :
  Forall (fun c => constructed (pointee c)) curves ->
  Forall (fun c => constructed_circle (pointee c)) (extract_circles curves).
Proof.
  intros Hc. apply Forall_forall. intros c Hin.
  destruct (extract_circles_pointee _ _ Hin) as (c' & Hin' & E).
  rewrite Forall_forall in Hc. specialize (Hc c' Hin').
  rewrite E in Hc. inversion Hc. now exists radius.
Qed.

Lemma constructed_radii_positive (circles : list (shared_ptr (Circle float))) :
  Forall (fun c => constructed_circle (pointee c)) circles ->
  Forall (fun r => (0 <? r) = true) (radii circles).
Proof.
  intros Hc. unfold radii. apply Forall_map.
  eapply Forall_impl; [|exact Hc].
  intros c. apply constructed_circle_positive.
Qed.

(** Circles that [by_radius] does not separate have the same radius. *)
Lemma equivalent_same_radius (a b : shared_ptr (Circle float)) :
  constructed_circle (pointee a) -> constructed_circle (pointee b) ->
  equivalent by_radius a b = true ->
  getRadius (pointee a) = getRadius (pointee b).
Proof.
  intros Ha Hb He. unfold equivalent in He.
  apply andb_prop in He. destruct He as [H1 H2].
  apply negb_true_iff in H1, H2.
  apply positive_antisym; trivial; now apply constructed_circle_positive.
Qed.

Lemma by_radius_strict_weak_ordering
  (circles : list (shared_ptr (Circle float))) :
  Forall (fun c => constructed_circle (pointee c)) circles ->
  strict_weak_ordering_on by_radius circles.
Proof.
  intros Hc. rewrite Forall_forall in Hc. repeat split.
  - intros a _. apply by_radius_irrefl.
  - intros a b c _ _ _. apply by_radius_trans.
  - intros a b c Ha Hb _ Hab Hbc.
    apply (equivalent_same_radius _ _ (Hc a Ha) (Hc b Hb)) in Hab.
    unfold equivalent, by_radius in *. now rewrite Hab.
Qed.

Lemma constructed_Permutation (l l' : list (shared_ptr (Circle float))) :
  Permutation l l' ->
  Forall (fun c => constructed_circle (pointee c)) l ->
  Forall (fun c => constructed_circle (pointee c)) l'.
Proof. intros Hp Hc. now rewrite <- Hp. Qed.


(** C2.  The loop of step (4) keeps exactly the pointers whose object is a
    [Circle], each once, in the order of [curves], and sharing the same
    objects; on the sequence Circle(3), Ellipse(1,2), Circle(1), Helix(2,1),
    Circle(2) it yields Circle(3), Circle(1), Circle(2). *)
Theorem extract_circles_keeps_exactly_the_circles :
  (forall curves : list (shared_ptr (Curve float)),
     map as_Curve (extract_circles curves) = filter is_Circle curves)
  /\ extract_circles
       [ make_shared 0 (IsCircle (Circle_ctor 3));
         make_shared 1 (IsEllipse (Ellipse_ctor 1 2));
         make_shared 2 (IsCircle (Circle_ctor 1));
         make_shared 3 (IsHelix (Helix_ctor 2 1));
         make_shared 4 (IsCircle (Circle_ctor 2)) ]
     = [ make_shared 0 (Circle_ctor 3);
         make_shared 2 (Circle_ctor 1);
         make_shared 4 (Circle_ctor 2) ].
Proof.
  split.
  - intros curves. apply extract_circles_filter.
  - reflexivity.
Qed.

(** C3.  A radius argument [<= 0] is replaced by [1.0] in the constructors of
    Circle, Ellipse (each axis on its own) and Helix, so the object built is
    the one built from [1.0]; the constructors are total (no error is
    signalled); the pitch of a Helix is stored as given, whatever it is. *)
Theorem nonpositive_radius_is_replaced_by_one :
  (forall radius : float, (radius <=? 0) = true ->
     Circle_ctor radius = Circle_ctor 1
     /\ getRadius (Circle_ctor radius) = 1
     /\ (forall other, Ellipse_ctor radius other = Ellipse_ctor 1 other)
     /\ (forall other, Ellipse_ctor other radius = Ellipse_ctor other 1)
     /\ (forall step_, Helix_ctor radius step_ = Helix_ctor 1 step_))
  /\ (forall radius step_ : float,
        Helix_step (Helix_ctor radius step_) = step_).
Proof.
  split.
  - intros radius Hle. apply not_positive_of_leb_0 in Hle.
    unfold Circle_ctor, Ellipse_ctor, Helix_ctor, getRadius. cbn.
    rewrite Hle. repeat split.
  - reflexivity.
Qed.

(** C4.  For a radius above zero the circle evaluates to
    (r cos t, r sin t, 0) and its derivative to (-r sin t, r cos t, 0), in
    the arithmetic of [double].  At [t = 0], for a finite radius and a
    [<cmath>] with [cos 0 = 1] and [sin 0 = 0] (as IEC 60559 asks of them),
    the point is (r, 0, 0) and the derivative is (-0, r, 0), which [==] finds
    equal to (0, r, 0). *)
Theorem circle_point_and_derivative (r t : float) :
  (0 <? r) = true ->
  Circle_getPoint (Circle_ctor r) t
  = {| x := r * libm_cos t; y := r * libm_sin t; z := 0 |}
  /\ Circle_getDerivative (Circle_ctor r) t
     = {| x := - r * libm_sin t; y := r * libm_cos t; z := 0 |}
  /\ (is_real r = true -> libm_cos 0 = 1 -> libm_sin 0 = 0 ->
      Circle_getPoint (Circle_ctor r) 0 = {| x := r; y := 0; z := 0 |}
      /\ Circle_getDerivative (Circle_ctor r) 0
         = {| x := - 0; y := r; z := 0 |}
      /\ Vec3_eqb (Circle_getDerivative (Circle_ctor r) 0)
           {| x := 0; y := r; z := 0 |} = true).
Proof.
  intros Hr.
  unfold Circle_getPoint, Circle_getDerivative, Circle_ctor. cbn.
  rewrite Hr. split; [reflexivity|]. split; [reflexivity|].
  intros Hfin Hcos Hsin. rewrite Hcos, Hsin, float_mul_1_r.
  destruct (positive_finite_mul_0 _ Hr Hfin) as [-> ->].
  repeat split.
  - unfold Vec3_eqb. cbn.
    assert (Hrr : (r =? r) = true).
    { rewrite eqb_spec. unfold SFeqb, SFcompare.
      destruct (positive_cases _ Hr) as [(m & e & ->)| ->]; [|reflexivity].
      now rewrite Z.compare_refl, Pos.compare_cont_refl. }
    now rewrite Hrr.
Qed.


(** C10.  A helix of pitch [0.0] and the circle of the same radius argument
    evaluate alike at every finite [t]: the same [x] and [y], a [z] that is a
    zero on both sides (so [==] holds; the helix's zero takes the sign of
    [t]), and the same derivative. *)
Theorem zero_pitch_helix_is_the_circle (radius t : float) :
  is_real t = true ->
  x (Helix_getPoint (Helix_ctor radius 0) t)
  = x (Circle_getPoint (Circle_ctor radius) t)
  /\ y (Helix_getPoint (Helix_ctor radius 0) t)
     = y (Circle_getPoint (Circle_ctor radius) t)
  /\ (z (Helix_getPoint (Helix_ctor radius 0) t)
      =? z (Circle_getPoint (Circle_ctor radius) t)) = true
  /\ Helix_getDerivative (Helix_ctor radius 0) t
     = Circle_getDerivative (Circle_ctor radius) t.
Proof.
  intros Hfin. repeat split.
  cbn. destruct (zero_mul_div_2pi t Hfin) as [s Hs].
  exact (eqb_zero_of_zero _ _ Hs).
Qed.

End Binary64.

(** * The program over exact arithmetic *)

Section Exact.

Local Existing Instance exact_reals.
Local Open Scope R_scope.

Lemma Rltb_true (a b : R) : Rltb a b = true <-> a < b.
Proof.
  unfold Rltb. destruct (Rlt_dec a b); split; intros; trivial;
    [discriminate | contradiction].
Qed.

Lemma Circle_ctor_positive_exact (radius : R) :
  0 < getRadius (Circle_ctor radius).
Proof.
  unfold getRadius, Circle_ctor. cbn. unfold Rltb.
  destruct (Rlt_dec 0 radius); lra.
Qed.



(** C5, over exact arithmetic.  With real arguments, the real [pi] and exact
    operations, one turn of the helix raises [z] by the pitch, for every
    radius argument, pitch and [t]. *)
Theorem helix_turn_advances_by_pitch_exact (radius pitch t : R) :
  z (Helix_getPoint (Helix_ctor radius pitch) (t + 2 * PI))
  - z (Helix_getPoint (Helix_ctor radius pitch) t) = pitch.
Proof.
  cbn. field. apply PI_neq0.
Qed.

(** C8.  Over exact arithmetic, for a circle built from any radius argument
    and for every [t], the point and the derivative are orthogonal and both
    have the stored radius as their Euclidean norm. *)
Theorem circle_point_orthogonal_to_derivative (radius t : R) :
  dot (Circle_getPoint (Circle_ctor radius) t)
      (Circle_getDerivative (Circle_ctor radius) t) = 0
  /\ norm (Circle_getPoint (Circle_ctor radius) t)
     = getRadius (Circle_ctor radius)
  /\ norm (Circle_getDerivative (Circle_ctor radius) t)
     = getRadius (Circle_ctor radius).
Proof.
  pose proof (Circle_ctor_positive_exact radius) as Hr.
  pose proof (sin2_cos2 t) as Hsc. unfold Rsqr in Hsc.
  unfold norm, dot, Circle_getPoint, Circle_getDerivative, getRadius in *.
  cbn [x y z dmul dneg dcos dsin lit_0 exact_reals] in *.
  set (r := Circle_r (Circle_ctor radius)) in *.
  repeat split.
  - ring.
  - replace (r * cos t * (r * cos t) + r * sin t * (r * sin t) + 0 * 0)
      with (r * r * (sin t * sin t + cos t * cos t)) by ring.
    rewrite Hsc, Rmult_1_r. apply sqrt_square. lra.
  - replace (- r * sin t * (- r * sin t) + r * cos t * (r * cos t) + 0 * 0)
      with (r * r * (sin t * sin t + cos t * cos t)) by ring.
    rewrite Hsc, Rmult_1_r. apply sqrt_square. lra.
Qed.

(** The zero-pitch helix and the circle agree exactly over exact
    arithmetic. *)
Lemma zero_pitch_helix_is_the_circle_exact (radius t : R) :
  Helix_getPoint (Helix_ctor radius 0) t = Circle_getPoint (Circle_ctor radius) t
  /\ Helix_getDerivative (Helix_ctor radius 0) t
     = Circle_getDerivative (Circle_ctor radius) t.
Proof.
  unfold Helix_getPoint, Helix_getDerivative, Circle_getPoint,
    Circle_getDerivative. cbn.
  assert (PI <> 0) by apply PI_neq0.
  split; f_equal; field; trivial.
Qed.

(** At [t = 0] the circle is at (r, 0, 0) with derivative (0, r, 0), exactly. *)
Lemma circle_at_zero_exact (r : R) :
  0 < r ->
  Circle_getPoint (Circle_ctor r) 0 = {| x := r; y := 0; z := 0 |}
  /\ Circle_getDerivative (Circle_ctor r) 0 = {| x := 0; y := r; z := 0 |}.
Proof.
  intros Hr. unfold Circle_getPoint, Circle_getDerivative, Circle_ctor. cbn.
  apply Rltb_true in Hr. rewrite Hr, cos_0, sin_0.
  split; f_equal; ring.
Qed.

End Exact.

(** * Closed examples *)

Section Examples.

Local Existing Instance binary64_poly.
Local Open Scope float_scope.


(** C5 as stated fails in binary64: for pitch 1 and [t = 1] one turn raises
    [z] by 0.99999999999999989, which is not 1. *)
Lemma helix_turn_misses_pitch_binary64 :
  z (Helix_getPoint (Helix_ctor 1 1) (1 + 2 * M_PI))
  - z (Helix_getPoint (Helix_ctor 1 1) 1)
  = 0x1.fffffffffffffp-1
  /\ (z (Helix_getPoint (Helix_ctor 1 1) (1 + 2 * M_PI))
      - z (Helix_getPoint (Helix_ctor 1 1) 1) =? 1) = false
  /\ z (Helix_getPoint (Helix_ctor 1 1) (1 + 2 * M_PI))
     - z (Helix_getPoint (Helix_ctor 1 1) 1) <> 1.
Proof.
  split; [reflexivity|]. split; [reflexivity|].
  intros E. apply (f_equal (fun a => a =? 1)) in E.
  vm_compute in E. discriminate E.
Qed.


(** C3 at the radius argument -2. *)
Lemma nonpositive_radius_is_replaced_by_one_witness :
  (-2 <=? 0) = true
  /\ Circle_ctor (-2) = Circle_ctor 1
  /\ getRadius (Circle_ctor (-2)) = 1
  /\ Ellipse_ctor (-2) 5 = Ellipse_ctor 1 5
  /\ Helix_ctor (-2) (-3) = Helix_ctor 1 (-3)
  /\ Helix_step (Helix_ctor (-2) (-3)) = -3.
Proof.
  destruct (nonpositive_radius_is_replaced_by_one poly_cos poly_sin)
    as [Hclamp Hstep].
  assert (Hle : (-2 <=? 0) = true) by reflexivity.
  destruct (Hclamp (-2) Hle) as (Hc & Hr & He & _ & Hh).
  split; [exact Hle|]. split; [exact Hc|]. split; [exact Hr|].
  split; [exact (He 5)|]. split; [exact (Hh (-3))|].
  exact (Hstep (-2) (-3)).
Defined.

(** C4 at radius 3 and [t = 0]. *)
Lemma circle_point_and_derivative_witness :
  (0 <? 3) = true /\ is_real 3 = true
  /\ poly_cos 0 = 1 /\ poly_sin 0 = 0
  /\ Circle_getPoint (Circle_ctor 3) 0 = {| x := 3; y := 0; z := 0 |}
  /\ Vec3_eqb (Circle_getDerivative (Circle_ctor 3) 0)
       {| x := 0; y := 3; z := 0 |} = true.
Proof.
  assert (Hpos : (0 <? 3) = true) by reflexivity.
  assert (Hfin : is_real 3 = true) by reflexivity.
  assert (Hcos : poly_cos 0 = 1) by reflexivity.
  assert (Hsin : poly_sin 0 = 0) by reflexivity.
  destruct (circle_point_and_derivative poly_cos poly_sin 3 0 Hpos)
    as (_ & _ & Hzero).
  destruct (Hzero Hfin Hcos Hsin) as (Hp & _ & Hd).
  repeat split; assumption.
Defined.


(** C10 at the radius argument -1 and [t = -1]: the helix's [z] is [-0.0]. *)
Lemma zero_pitch_helix_is_the_circle_witness :
  is_real (-1) = true
  /\ z (Helix_getPoint (Helix_ctor (-1) 0) (-1)) = -0
  /\ (z (Helix_getPoint (Helix_ctor (-1) 0) (-1))
      =? z (Circle_getPoint (Circle_ctor (-1)) (-1))) = true
  /\ Helix_getDerivative (Helix_ctor (-1) 0) (-1)
     = Circle_getDerivative (Circle_ctor (-1)) (-1).
Proof.
  assert (Hfin : is_real (-1) = true) by reflexivity.
  destruct (zero_pitch_helix_is_the_circle poly_cos poly_sin (-1) (-1) Hfin)
    as (_ & _ & Hz & Hd).
  split; [exact Hfin|]. split; [reflexivity|].
  split; [exact Hz | exact Hd].
Defined.

End Examples.

(** * The population loop *)

Section PopulateFacts.

Context {D : Type} {ops : DoubleOps D} {Gen : Type}.
Variable typeDist : Gen -> Z * Gen.
Variable dist : Gen -> D * Gen.
Variables Ellipse_first Helix_first : bool.

Lemma two_draws_spec (order : bool) (gen : Gen) :
  exists g g' gen',
    two_draws dist order gen = (fst (dist g), fst (dist g'), gen').
Proof.
  unfold two_draws.
  destruct (dist gen) as [d1 gen1] eqn:E1.
  destruct (dist gen1) as [d2 gen2] eqn:E2.
  destruct order.
  - exists gen, gen1, gen2. now rewrite E1, E2.
  - exists gen1, gen, gen2. now rewrite E1, E2.
Qed.

(** One turn pushes one new pointer: a fresh address, an object built from
    drawn values. *)
Lemma populate_body_spec (state : Gen * list (shared_ptr (Curve D))) :
  exists c,
    snd (populate_body typeDist dist Ellipse_first Helix_first state)
    = snd state ++ [c]
    /\ address c = length (snd state)
    /\ drawn dist (pointee c).
Proof.
  destruct state as [gen curves]. unfold populate_body.
  destruct (typeDist gen) as [type gen0].
  destruct (type =? 0)%Z; [|destruct (type =? 1)%Z].
  - destruct (dist gen0) as [radius gen1] eqn:E.
    eexists. split; [reflexivity|]. split; [reflexivity|].
    cbn. replace radius with (fst (dist gen0)) by now rewrite E.
    constructor.
  - destruct (two_draws_spec Ellipse_first gen0) as (g & g' & gen' & ->).
    eexists. split; [reflexivity|]. split; [reflexivity|]. constructor.
  - destruct (two_draws_spec Helix_first gen0) as (g & g' & gen' & ->).
    eexists. split; [reflexivity|]. split; [reflexivity|]. constructor.
Qed.

Lemma populate_iter_spec (n : nat) (gen : Gen) :
  map address
    (snd (Nat.iter n (populate_body typeDist dist Ellipse_first Helix_first)
            (gen, [])))
  = seq 0 n
  /\ Forall (fun c => drawn dist (pointee c))
       (snd (Nat.iter n
               (populate_body typeDist dist Ellipse_first Helix_first)
               (gen, []))).
Proof.
  induction n as [|n [IHa IHd]].
  - split; [reflexivity | constructor].
  - rewrite Nat.iter_succ.
    destruct (populate_body_spec
                (Nat.iter n
                   (populate_body typeDist dist Ellipse_first Helix_first)
                   (gen, []))) as (c & -> & Ha & Hd).
    split.
    + rewrite map_app, IHa, seq_S. cbn [map]. rewrite Ha.
      rewrite <- (length_map address), IHa, length_seq. reflexivity.
    + apply Forall_app. split; [exact IHd|]. now constructor.
Qed.

Lemma drawn_constructed (c : Curve D) : drawn dist c -> constructed c.
Proof. intros []; constructor. Qed.

(** X1.  Whatever the random source returns and in whatever order the
    arguments are drawn, the loop leaves ten curves, the i-th at the i-th
    fresh address (so no two pointers share an object), each built by a
    constructor from values that [dist] returned. *)
Theorem populate_makes_ten_fresh_curves (gen : Gen) :
  length (populate typeDist dist Ellipse_first Helix_first gen) = 10
  /\ map address (populate typeDist dist Ellipse_first Helix_first gen)
     = seq 0 10
  /\ NoDup (map address (populate typeDist dist Ellipse_first Helix_first gen))
  /\ Forall (fun c => drawn dist (pointee c))
       (populate typeDist dist Ellipse_first Helix_first gen)
  /\ Forall (fun c => constructed (pointee c))
       (populate typeDist dist Ellipse_first Helix_first gen).
Proof.
  destruct (populate_iter_spec 10 gen) as [Ha Hd].
  fold (populate typeDist dist Ellipse_first Helix_first gen) in Ha, Hd.
  split; [|split; [exact Ha|split; [|split; [exact Hd|]]]].
  - rewrite <- (length_map address), Ha. reflexivity.
  - rewrite Ha. apply seq_NoDup.
  - eapply Forall_impl; [|exact Hd].
    intros c. apply drawn_constructed.
Qed.

End PopulateFacts.

(** * More facts about binary64 *)

Section Binary64Algebra.

Local Open Scope float_scope.

(** Rounding to nearest even does not look at the sign. *)
Lemma binary_round_aux_opp (s : bool) (m e : Z) (l : location) :
  binary_round_aux prec emax (negb s) m e l
  = SFopp (binary_round_aux prec emax s m e l).
Proof.
  unfold binary_round_aux.
  destruct (shr_fexp prec emax m e l) as [mrs' e'].
  destruct (shr_fexp prec emax
              (round_nearest_even (shr_m mrs') (loc_of_shr_record mrs'))
              e' loc_Exact) as [mrs'' e''].
  destruct (shr_m mrs'') as [|p|p]; try reflexivity.
  destruct (e'' <=? emax - prec)%Z; reflexivity.
Qed.

Lemma SFmul_opp_l (u v : spec_float) :
  SFmul prec emax (SFopp u) v = SFopp (SFmul prec emax u v).
Proof.
  destruct u as [s|s| |s m e], v as [s'|s'| |s' m' e']; cbn [SFmul SFopp];
    try reflexivity; try (now destruct s, s').
  rewrite <- binary_round_aux_opp. now destruct s, s'.
Qed.

(** [(-a) * b] and [-(a * b)] are the same double. *)
Lemma float_mul_opp_l (a b : float) : - a * b = - (a * b).
Proof.
  apply Prim2SF_inj. rewrite mul_spec, !opp_spec, mul_spec.
  apply SFmul_opp_l.
Qed.

Lemma SFadd_comm (u v : spec_float) :
  SFadd prec emax u v = SFadd prec emax v u.
Proof.
  destruct u as [s|s| |s m e], v as [s'|s'| |s' m' e']; cbn [SFadd];
    try reflexivity; try (now destruct s, s').
  now rewrite (Z.min_comm e e'), Z.add_comm.
Qed.

Lemma float_add_comm (a b : float) : a + b = b + a.
Proof. apply Prim2SF_inj. rewrite !add_spec. apply SFadd_comm. Qed.

(** Adding a double above zero to [0.0] returns it. *)
Lemma float_add_0_l_positive (a : float) : (0 <? a) = true -> 0 + a = a.
Proof.
  intros Ha. apply Prim2SF_inj. rewrite add_spec.
  change (Prim2SF 0) with (S754_zero false).
  destruct (positive_cases _ Ha) as [(m & e & ->)| ->]; reflexivity.
Qed.

(** Only NaN differs from itself. *)
Lemma eqb_irrefl_nan (a : float) :
  (a =? a) = false -> Prim2SF a = S754_nan.
Proof.
  rewrite eqb_spec. unfold SFeqb, SFcompare.
  destruct (Prim2SF a) as [s|s| |s m e]; try destruct s;
    try discriminate; try reflexivity;
    now rewrite Z.compare_refl, Pos.compare_cont_refl.
Qed.

Lemma nan_not_positive (a : float) : (a =? a) = false -> (0 <? a) = false.
Proof.
  intros Ha. rewrite ltb_spec, (eqb_irrefl_nan _ Ha). reflexivity.
Qed.

Lemma positive_eqb_refl (a : float) : (0 <? a) = true -> (a =? a) = true.
Proof.
  intros Ha. rewrite eqb_spec. unfold SFeqb, SFcompare.
  destruct (positive_cases _ Ha) as [(m & e & ->)| ->]; [|reflexivity].
  now rewrite Z.compare_refl, Pos.compare_cont_refl.
Qed.

(** The doubles from [1.0] up are above zero. *)
Lemma positive_of_1_leb (a : float) : (1 <=? a) = true -> (0 <? a) = true.
Proof.
  rewrite leb_spec, ltb_spec.
  change (Prim2SF 1) with (S754_finite false 4503599627370496 (-52)).
  change (Prim2SF 0) with (S754_zero false).
  unfold SFleb, SFltb, SFcompare.
  destruct (Prim2SF a) as [s|s| |s m e]; try destruct s;
    try discriminate; reflexivity.
Qed.

End Binary64Algebra.

(** * More of the classes over binary64 *)

Section Binary64Classes.

Variables libm_cos libm_sin : float -> float.

Local Hint Extern 0 (DoubleOps float) =>
  exact (binary64 libm_cos libm_sin) : typeclass_instances.

Local Open Scope float_scope.

Lemma clamp_positive (radius : float) :
  (0 <? (if 0 <? radius then radius else 1)) = true.
Proof. destruct (0 <? radius) eqn:E; [exact E | reflexivity]. Qed.

(** X2.  The class invariant: whatever the arguments (negative, zero,
    infinite, NaN), every radius stored by a constructor is above zero, and
    so is never NaN. *)
Theorem stored_radii_are_positive (radius rx_ ry_ step_ : float) :
  ((0 <? getRadius (Circle_ctor radius)) = true
   /\ (getRadius (Circle_ctor radius) =? getRadius (Circle_ctor radius)) = true)
  /\ ((0 <? Ellipse_rx (Ellipse_ctor rx_ ry_)) = true
      /\ (Ellipse_rx (Ellipse_ctor rx_ ry_) =? Ellipse_rx (Ellipse_ctor rx_ ry_))
         = true)
  /\ ((0 <? Ellipse_ry (Ellipse_ctor rx_ ry_)) = true
      /\ (Ellipse_ry (Ellipse_ctor rx_ ry_) =? Ellipse_ry (Ellipse_ctor rx_ ry_))
         = true)
  /\ ((0 <? Helix_r (Helix_ctor radius step_)) = true
      /\ (Helix_r (Helix_ctor radius step_) =? Helix_r (Helix_ctor radius step_))
         = true).
Proof.
  unfold getRadius, Circle_ctor, Ellipse_ctor, Helix_ctor. cbn.
  pose proof (clamp_positive radius) as Hr.
  pose proof (clamp_positive rx_) as Hx.
  pose proof (clamp_positive ry_) as Hy.
  repeat split; trivial; now apply positive_eqb_refl.
Qed.

(** X3.  Building an object again from the members it stores gives the same
    object: the constructors change nothing on a second pass. *)
Theorem constructing_again_changes_nothing (radius rx_ ry_ step_ : float) :
  Circle_ctor (getRadius (Circle_ctor radius)) = Circle_ctor radius
  /\ Ellipse_ctor (Ellipse_rx (Ellipse_ctor rx_ ry_))
       (Ellipse_ry (Ellipse_ctor rx_ ry_))
     = Ellipse_ctor rx_ ry_
  /\ Helix_ctor (Helix_r (Helix_ctor radius step_))
       (Helix_step (Helix_ctor radius step_))
     = Helix_ctor radius step_.
Proof.
  unfold getRadius, Circle_ctor, Ellipse_ctor, Helix_ctor. cbn.
  rewrite (clamp_positive radius), (clamp_positive rx_), (clamp_positive ry_).
  repeat split.
Qed.

(** X4.  A NaN radius argument (the one double that differs from itself) is
    replaced by [1.0], in each constructor and for each axis of an ellipse,
    although it is not [<= 0]. *)
Theorem nan_radius_is_replaced_by_one (radius : float) :
  (radius =? radius) = false ->
  (radius <=? 0) = false
  /\ Circle_ctor radius = Circle_ctor 1
  /\ (forall other, Ellipse_ctor radius other = Ellipse_ctor 1 other)
  /\ (forall other, Ellipse_ctor other radius = Ellipse_ctor other 1)
  /\ (forall step_, Helix_ctor radius step_ = Helix_ctor 1 step_).
Proof.
  intros Hnan. pose proof (nan_not_positive _ Hnan) as Hpos.
  split.
  - rewrite leb_spec, (eqb_irrefl_nan _ Hnan). reflexivity.
  - unfold Circle_ctor, Ellipse_ctor, Helix_ctor. cbn.
    rewrite Hpos. repeat split.
Qed.

(** X5.  In the arithmetic of [double], with any [<cmath>]: at every [t]
    where the point of a circle has no NaN among its [x] and [y], the
    derivative is the point turned by a quarter: (-y, x, z).  The same holds
    of the [x] and [y] of a helix of the same radius argument. *)
Theorem derivative_is_point_turned_by_a_quarter (radius step_ t : float) :
  (x (Circle_getPoint (Circle_ctor radius) t)
   =? x (Circle_getPoint (Circle_ctor radius) t)) = true ->
  (y (Circle_getPoint (Circle_ctor radius) t)
   =? y (Circle_getPoint (Circle_ctor radius) t)) = true ->
  Circle_getDerivative (Circle_ctor radius) t
  = {| x := - y (Circle_getPoint (Circle_ctor radius) t);
       y := x (Circle_getPoint (Circle_ctor radius) t);
       z := z (Circle_getPoint (Circle_ctor radius) t) |}
  /\ x (Helix_getDerivative (Helix_ctor radius step_) t)
     = - y (Helix_getPoint (Helix_ctor radius step_) t)
  /\ y (Helix_getDerivative (Helix_ctor radius step_) t)
     = x (Helix_getPoint (Helix_ctor radius step_) t).
Proof.
  intros _ _. unfold Circle_getDerivative, Helix_getDerivative. cbn.
  rewrite float_mul_opp_l. repeat split.
Qed.

(** X6.  An ellipse whose two axes get the same argument evaluates exactly as
    the circle built from that argument, point and derivative, for every
    argument and every [t]. *)
Theorem ellipse_of_equal_axes_is_the_circle (radius t : float) :
  Ellipse_getPoint (Ellipse_ctor radius radius) t
  = Circle_getPoint (Circle_ctor radius) t
  /\ Ellipse_getDerivative (Ellipse_ctor radius radius) t
     = Circle_getDerivative (Circle_ctor radius) t.
Proof. split; reflexivity. Qed.

(** X7.  For at most two constructed circles the sum of step (6) does not
    depend on their order, to the last bit; the sum of one circle is its
    radius.  So the sort cannot change the sum of fewer than three radii. *)
Theorem sum_of_up_to_two_radii_ignores_order
  (before after : list (shared_ptr (Circle float))) :
  Forall (fun c => constructed_circle (pointee c)) before ->
  (length before <= 2)%nat ->
  Permutation before after ->
  sum_radii after = sum_radii before
  /\ (forall c, before = [c] -> sum_radii before = getRadius (pointee c)).
Proof.
  intros Hc Hlen Hp. split.
  - destruct before as [|a [|b [|c rest]]]; cbn in Hlen; try lia.
    + now rewrite (Permutation_nil Hp).
    + now rewrite (Permutation_length_1_inv Hp).
    + destruct (Permutation_length_2_inv Hp) as [-> | ->]; [reflexivity|].
      inversion Hc as [|? ? Ha Hc']. inversion Hc' as [|? ? Hb _]. subst.
      apply (constructed_circle_positive libm_cos libm_sin) in Ha, Hb.
      unfold sum_radii. cbn.
      rewrite (float_add_0_l_positive _ Ha), (float_add_0_l_positive _ Hb).
      apply float_add_comm.
  - intros c ->. inversion Hc as [|? ? Ha _]. subst.
    apply (constructed_circle_positive libm_cos libm_sin) in Ha.
    unfold sum_radii. cbn. exact (float_add_0_l_positive _ Ha).
Qed.

End Binary64Classes.

(** * The whole of [main] over binary64 *)

Lemma NoDup_map_filter (T K : Type) (key : T -> K) (f : T -> bool)
  (l : list T) :
  NoDup (map key l) -> NoDup (map key (filter f l)).
Proof.
  induction l as [|a l IH]; cbn [map filter]; intros Hnd; [constructor|].
  apply NoDup_cons_iff in Hnd. destruct Hnd as [Hna Hnd].
  destruct (f a); [|now apply IH].
  cbn [map]. constructor; [|now apply IH].
  intros Hin. apply Hna. apply in_map_iff in Hin.
  destruct Hin as (b & Hb & Hin). apply filter_In in Hin.
  rewrite <- Hb. apply in_map. apply Hin.
Qed.

Lemma extract_circles_addresses (D : Type)
  (curves : list (shared_ptr (Curve D))) :
  map address (extract_circles curves)
  = map address (filter is_Circle curves).
Proof.
  rewrite <- extract_circles_filter, map_map. reflexivity.
Qed.

Section Binary64Program.

Variables libm_cos libm_sin : float -> float.

Local Hint Extern 0 (DoubleOps float) =>
  exact (binary64 libm_cos libm_sin) : typeclass_instances.

Local Open Scope float_scope.

Context {Gen : Type}.
Variable typeDist : Gen -> Z * Gen.
Variable dist : Gen -> float * Gen.
Variables Ellipse_first Helix_first : bool.

(** X8.  Steps (2), (4) and (5) together.  Whatever the random source does,
    the sorted sequence holds at most ten pointers, no two to the same
    object, each to a circle whose radius is a value [dist] returned or the
    default [1.0], in non-decreasing order of radius.  When [dist] keeps to
    its range from 1.0 up to 10.0, the clamp never acts: every radius is a
    drawn value, in that range. *)
Theorem program_sorts_the_drawn_circles (gen : Gen)
  (after : list (shared_ptr (Circle float))) :
  std_sort by_radius
    (extract_circles (populate typeDist dist Ellipse_first Helix_first gen))
    after ->
  (length after <= 10)%nat
  /\ NoDup (map address after)
  /\ Forall (fun c => exists g,
                getRadius (pointee c) = fst (dist g)
                \/ getRadius (pointee c) = 1) after
  /\ StronglySorted (fun r1 r2 => (r1 <=? r2) = true) (radii after)
  /\ ((forall g, in_demo_range (fst (dist g)) = true) ->
      Forall (fun c => (exists g, getRadius (pointee c) = fst (dist g))
                       /\ in_demo_range (getRadius (pointee c)) = true)
        after).
Proof.
  intros [Hp Hs].
  destruct (populate_iter_spec typeDist dist Ellipse_first Helix_first 10 gen)
    as [Ha Hd].
  fold (populate typeDist dist Ellipse_first Helix_first gen) in Ha, Hd.
  set (curves := populate typeDist dist Ellipse_first Helix_first gen) in *.
  assert (Hdrawn : forall c, In c after ->
            exists g, pointee c = Circle_ctor (fst (dist g))).
  { intros c Hin. apply (Permutation_in _ (Permutation_sym Hp)) in Hin.
    destruct (extract_circles_pointee _ _ Hin) as (c' & Hin' & E).
    rewrite Forall_forall in Hd. specialize (Hd c' Hin').
    rewrite E in Hd. inversion Hd as [g Hg| |]. now exists g. }
  split; [|split; [|split; [|split]]].
  - rewrite <- (Permutation_length Hp), <- (length_map address).
    rewrite extract_circles_addresses, length_map.
    etransitivity; [apply filter_length_le|].
    rewrite <- (length_map address), Ha. reflexivity.
  - apply (Permutation_NoDup (Permutation_map address Hp)).
    rewrite extract_circles_addresses. apply NoDup_map_filter.
    rewrite Ha. apply seq_NoDup.
  - apply Forall_forall. intros c Hin.
    destruct (Hdrawn c Hin) as [g Hg]. exists g. rewrite Hg.
    unfold getRadius, Circle_ctor. cbn.
    destruct (0 <? fst (dist g)); [now left | now right].
  - apply sorted_positive_ascending.
    + apply Forall_forall. intros r Hin. unfold radii in Hin.
      apply in_map_iff in Hin. destruct Hin as (c & <- & Hin).
      destruct (Hdrawn c Hin) as [g ->].
      apply (Circle_ctor_positive libm_cos libm_sin).
    + now rewrite by_radius_sorted_radii in Hs.
  - intros Hrange. apply Forall_forall. intros c Hin.
    destruct (Hdrawn c Hin) as [g Hg].
    assert (E : getRadius (pointee c) = fst (dist g)).
    { rewrite Hg. unfold getRadius, Circle_ctor. cbn.
      specialize (Hrange g). unfold in_demo_range in Hrange.
      apply andb_prop in Hrange. destruct Hrange as [H1 _].
      now rewrite (positive_of_1_leb _ H1). }
    split; [now exists g|]. rewrite E. apply Hrange.
Qed.

End Binary64Program.

(** * The sort step as the library runs it *)

Section SortStep.

Variables libm_cos libm_sin : float -> float.

Local Hint Extern 0 (DoubleOps float) =>
  exact (binary64 libm_cos libm_sin) : typeclass_instances.

Local Open Scope float_scope.


(** Constructed circles: [std::sort] returns them, rearranged, in
    non-decreasing order of radius; up to sixteen of them, circles of equal
    radius in the order they had. *)
Lemma sort_constructed_circles (before : list (shared_ptr (Circle float))) :
  Forall (fun c => constructed_circle (pointee c)) before ->
  exists after,
    std.sort by_radius before = Some after
    /\ Permutation before after
    /\ is_sorted by_radius after = true
    /\ StronglySorted (fun r1 r2 => (r1 <=? r2) = true) (radii after)
    /\ ((length before <= 16)%nat -> stable by_radius before after).
Proof.
  intros Hc.
  pose proof (by_radius_strict_weak_ordering libm_cos libm_sin _ Hc) as Hswo.
  destruct (sort_spec _ by_radius before Hswo) as (after & E & Hp & Hs).
  exists after. repeat split; trivial.
  - apply sorted_positive_ascending.
    + apply (constructed_radii_positive libm_cos libm_sin).
      now apply (constructed_Permutation libm_cos libm_sin before).
    + now rewrite by_radius_sorted_radii in Hs.
  - intros Hlen.
    destruct (sort_short_spec _ by_radius before Hlen Hswo)
      as (after' & E' & _ & _ & Hst).
    assert (after' = after) as <- by congruence. exact Hst.
Qed.

(** The circles that [main] hands to the sort: at most ten, all built by the
    constructor. *)
Lemma program_circles {Gen : Type} (typeDist : Gen -> Z * Gen)
  (dist : Gen -> float * Gen) (Ellipse_first Helix_first : bool) (gen : Gen) :
  (length (extract_circles
             (populate typeDist dist Ellipse_first Helix_first gen)) <= 10)%nat
  /\ Forall (fun c => constructed_circle (pointee c))
       (extract_circles (populate typeDist dist Ellipse_first Helix_first gen)).
Proof.
  destruct (populate_iter_spec typeDist dist Ellipse_first Helix_first 10 gen)
    as [Ha Hd].
  fold (populate typeDist dist Ellipse_first Helix_first gen) in Ha, Hd.
  split.
  - rewrite <- (length_map address), extract_circles_addresses, length_map.
    etransitivity; [apply filter_length_le|].
    rewrite <- (length_map address), Ha. reflexivity.
  - apply (extract_circles_constructed libm_cos libm_sin).
    eapply Forall_impl; [|exact Hd]. intros c. apply drawn_constructed.
Qed.



(** C9.  For every sequence of constructed circles [std::sort] returns, and
    what it returns is a rearrangement of the sequence: the same length, the
    same pointers with the same number of occurrences, and so the same radii
    with the same number of occurrences.  So it is for every sequence that
    [main] filters out of its curves. *)
Theorem sort_rearranges :
  (forall before : list (shared_ptr (Circle float)),
     Forall (fun c => constructed_circle (pointee c)) before ->
     exists after, std.sort by_radius before = Some after)
  /\ (forall before after : list (shared_ptr (Circle float)),
        std.sort by_radius before = Some after ->
        length after = length before
        /\ Permutation before after
        /\ (forall c, In c after <-> In c before)
        /\ (forall a, count_address a after = count_address a before)
        /\ Permutation (radii before) (radii after))
  /\ (forall (Gen : Type) (typeDist : Gen -> Z * Gen)
        (dist : Gen -> float * Gen) (Ellipse_first Helix_first : bool)
        (gen : Gen),
        exists after,
          std.sort by_radius
            (extract_circles
               (populate typeDist dist Ellipse_first Helix_first gen))
          = Some after
          /\ Permutation
               (extract_circles
                  (populate typeDist dist Ellipse_first Helix_first gen))
               after).
Proof.
  split; [|split].
  - intros before Hc.
    destruct (sort_constructed_circles before Hc) as (after & E & _).
    now exists after.
  - intros before after E. apply sort_perm in E. repeat split.
    + symmetry. now apply Permutation_length.
    + exact E.
    + apply Permutation_in. now symmetry.
    + now apply Permutation_in.
    + intros a. now apply count_address_Permutation.
    + now apply Permutation_map.
  - intros Gen typeDist dist Ellipse_first Helix_first gen.
    destruct (program_circles typeDist dist Ellipse_first Helix_first gen)
      as [_ Hc].
    destruct (sort_constructed_circles _ Hc) as (after & E & Hp & _).
    now exists after.
Qed.


End SortStep.

(** * More of the classes over exact arithmetic *)

Section ExactClasses.

Local Existing Instance exact_reals.
Local Open Scope R_scope.

Lemma derivable_pt_lim_scaled_cos (a t : R) :
  derivable_pt_lim (fun s => a * cos s) t (- a * sin t).
Proof.
  replace (- a * sin t) with (a * - sin t) by ring.
  apply (derivable_pt_lim_scal cos a t). apply derivable_pt_lim_cos.
Qed.

Lemma derivable_pt_lim_scaled_sin (a t : R) :
  derivable_pt_lim (fun s => a * sin s) t (a * cos t).
Proof.
  apply (derivable_pt_lim_scal sin a t). apply derivable_pt_lim_sin.
Qed.

Lemma derivable_pt_lim_zero (t : R) : derivable_pt_lim (fun _ => 0) t 0.
Proof. apply (derivable_pt_lim_const 0 t). Qed.

Lemma derivable_pt_lim_linear (a b t : R) :
  derivable_pt_lim (fun s => a * s / b) t (a / b).
Proof.
  apply derivable_pt_lim_ext with (f := mult_real_fct (a / b) id).
  - intros s. unfold mult_real_fct, id, Rdiv. ring.
  - replace (a / b) with (a / b * 1) at 2 by ring.
    apply derivable_pt_lim_scal. apply derivable_pt_lim_id.
Qed.

(** X9.  Over exact arithmetic [getDerivative] is the derivative of
    [getPoint]: for every curve, whatever its members, and at every [t],
    each component of [getDerivative(t)] is the derivative at [t] of that
    component of [getPoint]. *)
Theorem getDerivative_is_the_derivative_of_getPoint (c : Curve R) (t : R) :
  derivable_pt_lim (fun s => x (getPoint c s)) t (x (getDerivative c t))
  /\ derivable_pt_lim (fun s => y (getPoint c s)) t (y (getDerivative c t))
  /\ derivable_pt_lim (fun s => z (getPoint c s)) t (z (getDerivative c t)).
Proof.
  destruct c as [c|e|h]; cbn; repeat split;
    try apply derivable_pt_lim_scaled_cos;
    try apply derivable_pt_lim_scaled_sin;
    try apply derivable_pt_lim_zero.
  apply derivable_pt_lim_linear.
Qed.

Lemma cos_plus_2PI (t : R) : cos (t + 2 * PI) = cos t.
Proof. rewrite cos_plus, cos_2PI, sin_2PI. ring. Qed.

Lemma sin_plus_2PI (t : R) : sin (t + 2 * PI) = sin t.
Proof. rewrite sin_plus, cos_2PI, sin_2PI. ring. Qed.

(** X10.  Over exact arithmetic every curve repeats after a full turn in its
    [x], its [y] and its derivative; a circle and an ellipse repeat as a
    whole, a helix in all but [z]. *)
Theorem curves_repeat_after_a_turn (c : Curve R) (t : R) :
  x (getPoint c (t + 2 * PI)) = x (getPoint c t)
  /\ y (getPoint c (t + 2 * PI)) = y (getPoint c t)
  /\ getDerivative c (t + 2 * PI) = getDerivative c t
  /\ ((forall h, c <> IsHelix h) ->
      getPoint c (t + 2 * PI) = getPoint c t).
Proof.
  destruct c as [c|e|h]; cbn;
    unfold Circle_getPoint, Circle_getDerivative, Ellipse_getPoint,
      Ellipse_getDerivative, Helix_getPoint, Helix_getDerivative; cbn;
    rewrite !cos_plus_2PI, !sin_plus_2PI; repeat split.
  intros Hno. now destruct (Hno h).
Qed.

Lemma clamp_positive_exact (a : R) : 0 < (if Rltb 0 a then a else 1).
Proof. unfold Rltb. destruct (Rlt_dec 0 a); lra. Qed.

(** X11.  Over exact arithmetic the point of an ellipse built from any two
    arguments lies on the ellipse of its stored axes, in the plane [z = 0]:
    (x / rx)^2 + (y / ry)^2 = 1. *)
Theorem ellipse_point_is_on_the_ellipse (rx_ ry_ t : R) :
  (x (Ellipse_getPoint (Ellipse_ctor rx_ ry_) t)
     / Ellipse_rx (Ellipse_ctor rx_ ry_)) ^ 2
  + (y (Ellipse_getPoint (Ellipse_ctor rx_ ry_) t)
       / Ellipse_ry (Ellipse_ctor rx_ ry_)) ^ 2 = 1
  /\ z (Ellipse_getPoint (Ellipse_ctor rx_ ry_) t) = 0.
Proof.
  split; [|reflexivity]. cbn.
  pose proof (clamp_positive_exact rx_) as Hx.
  pose proof (clamp_positive_exact ry_) as Hy.
  set (a := if Rltb 0 rx_ then rx_ else 1) in *.
  set (b := if Rltb 0 ry_ then ry_ else 1) in *.
  replace (a * cos t / a) with (cos t) by (field; lra).
  replace (b * sin t / b) with (sin t) by (field; lra).
  pose proof (sin2_cos2 t) as H. unfold Rsqr in H. lra.
Qed.

(** X12.  Over exact arithmetic a helix built from any arguments stays on the
    cylinder of its stored radius, rises in proportion to [t], and moves at
    one speed: the norm of its derivative is the same at every [t]. *)
Theorem helix_winds_on_a_cylinder_at_constant_speed
  (radius step_ t t' : R) :
  x (Helix_getPoint (Helix_ctor radius step_) t) ^ 2
  + y (Helix_getPoint (Helix_ctor radius step_) t) ^ 2
  = Helix_r (Helix_ctor radius step_) ^ 2
  /\ z (Helix_getPoint (Helix_ctor radius step_) (t + t'))
     = z (Helix_getPoint (Helix_ctor radius step_) t)
       + z (Helix_getPoint (Helix_ctor radius step_) t')
  /\ norm (Helix_getDerivative (Helix_ctor radius step_) t)
     = sqrt (Helix_r (Helix_ctor radius step_) ^ 2 + (step_ / (2 * PI)) ^ 2).
Proof.
  pose proof (sin2_cos2 t) as H. unfold Rsqr in H.
  pose proof PI_neq0 as Hpi.
  unfold norm, dot. cbn.
  set (r := if Rltb 0 radius then radius else 1).
  split; [|split].
  - replace (r * cos t * (r * cos t * 1) + r * sin t * (r * sin t * 1))
      with (r * r * (sin t * sin t + cos t * cos t)) by ring.
    rewrite H. ring.
  - field. exact Hpi.
  - f_equal.
    replace (- r * sin t * (- r * sin t) + r * cos t * (r * cos t)
             + step_ / (2 * PI) * (step_ / (2 * PI)))
      with (r * r * (sin t * sin t + cos t * cos t)
            + step_ / (2 * PI) * (step_ / (2 * PI))) by ring.
    rewrite H. ring.
Qed.

End ExactClasses.

(** * Rounding and the sign of a sum *)

Section Binary64Sum.

Local Open Scope Z_scope.

Lemma shr_1_m (mrs : shr_record) :
  0 <= shr_m mrs -> shr_m (shr_1 mrs) = shr_m mrs / 2.
Proof.
  destruct mrs as [m r s]. cbn [shr_m]. intros Hm.
  destruct m as [|[p|p|]|p]; cbn [shr_1 shr_m orb]; try lia.
  - reflexivity.
  - apply Z.div_unique with 1; lia.
  - apply Z.div_unique with 0; lia.
  - reflexivity.
Qed.

Lemma iter_pos_shr_1_m (p : positive) (mrs : shr_record) :
  0 <= shr_m mrs ->
  shr_m (SpecFloat.iter_pos shr_1 p mrs) = shr_m mrs / 2 ^ Zpos p.
Proof.
  revert mrs. induction p as [p IH|p IH|]; intros mrs Hm; cbn [SpecFloat.iter_pos].
  - assert (H1 : 0 <= shr_m (shr_1 mrs)).
    { rewrite shr_1_m by trivial. apply Z.div_pos; lia. }
    assert (H2 : 0 <= shr_m (SpecFloat.iter_pos shr_1 p (shr_1 mrs))).
    { rewrite IH by trivial. apply Z.div_pos; lia. }
    rewrite IH, IH, shr_1_m by trivial.
    rewrite !Z.div_div by lia. f_equal.
    replace (Z.pos p~1) with (Z.pos p + Z.pos p + 1) by lia.
    rewrite !Z.pow_add_r by lia. ring.
  - assert (H2 : 0 <= shr_m (SpecFloat.iter_pos shr_1 p mrs)).
    { rewrite IH by trivial. apply Z.div_pos; lia. }
    rewrite IH, IH by trivial.
    rewrite !Z.div_div by lia. f_equal.
    replace (Z.pos p~0) with (Z.pos p + Z.pos p) by lia.
    rewrite Z.pow_add_r by lia. ring.
  - rewrite shr_1_m by trivial. reflexivity.
Qed.

Lemma digits2_pos_lower (m : positive) :
  2 ^ (Zpos (digits2_pos m) - 1) <= Zpos m.
Proof.
  induction m as [m IH|m IH|]; cbn [digits2_pos].
  - replace (Z.pos (Pos.succ (digits2_pos m)) - 1)
      with (Z.succ (Z.pos (digits2_pos m) - 1)) by lia.
    rewrite Z.pow_succ_r by lia. lia.
  - replace (Z.pos (Pos.succ (digits2_pos m)) - 1)
      with (Z.succ (Z.pos (digits2_pos m) - 1)) by lia.
    rewrite Z.pow_succ_r by lia. lia.
  - reflexivity.
Qed.

Lemma shr_record_of_loc_m m l : shr_m (shr_record_of_loc m l) = m.
Proof. destruct l as [|[]]; reflexivity. Qed.

(** Rounding a positive mantissa at an exponent not below [emin] leaves a positive mantissa. *)
Lemma shr_fexp_positive (m : positive) (e : Z) (l : location) :
  SpecFloat.emin prec emax <= e ->
  0 < shr_m (fst (shr_fexp prec emax (Zpos m) e l))
  /\ SpecFloat.emin prec emax <= snd (shr_fexp prec emax (Zpos m) e l).
Proof.
  intros He. unfold shr_fexp, shr. cbn [Zdigits2].
  set (d := Zpos (digits2_pos m)).
  destruct (fexp prec emax (d + e) - e) as [|n|n] eqn:En; cbn [fst snd];
    rewrite ?shr_record_of_loc_m; try (split; lia).
  split.
  - rewrite iter_pos_shr_1_m by (rewrite shr_record_of_loc_m; lia).
    rewrite shr_record_of_loc_m.
    assert (Hn : Zpos n <= d - 1).
    { unfold fexp in En. unfold SpecFloat.emin, prec, emax in *. lia. }
    pose proof (digits2_pos_lower m) as Hd. fold d in Hd.
    apply Z.div_str_pos. split; [apply Z.pow_pos_nonneg; lia|].
    etransitivity; [|exact Hd]. apply Z.pow_le_mono_r; lia.
  - unfold fexp in En. lia.
Qed.

Lemma round_nearest_even_positive (m : Z) (l : location) :
  0 < m -> 0 < round_nearest_even m l.
Proof.
  intros Hm. destruct l as [|[]]; cbn [round_nearest_even]; try lia.
  destruct (Z.even m); lia.
Qed.

Lemma binary_round_aux_positive (m : positive) (e : Z) (l : location) :
  SpecFloat.emin prec emax <= e ->
  above_zero (binary_round_aux prec emax false (Zpos m) e l).
Proof.
  intros He. unfold binary_round_aux.
  destruct (shr_fexp_positive m e l He) as [Hm1 He1].
  destruct (shr_fexp prec emax (Zpos m) e l) as [mrs' e']. cbn [fst snd] in *.
  pose proof (round_nearest_even_positive _ (loc_of_shr_record mrs') Hm1) as Hr.
  destruct (round_nearest_even (shr_m mrs') (loc_of_shr_record mrs'))
    as [|q|q]; try lia.
  destruct (shr_fexp_positive q e' loc_Exact He1) as [Hm2 _].
  destruct (shr_fexp prec emax (Zpos q) e' loc_Exact) as [mrs'' e''].
  cbn [fst] in Hm2.
  destruct (shr_m mrs'') as [|q'|q']; try lia.
  destruct (e'' <=? emax - prec).
  - left. now exists q', e''.
  - now right.
Qed.

Lemma valid_exponent (s : bool) (m : positive) (e : Z) :
  SpecFloat.valid_binary prec emax (S754_finite s m e) = true ->
  SpecFloat.emin prec emax <= e.
Proof.
  cbn [SpecFloat.valid_binary]. unfold bounded, canonical_mantissa.
  intros V. apply andb_prop in V. destruct V as [Hc _].
  apply Z.eqb_eq in Hc. unfold fexp in Hc. lia.
Qed.

Lemma SFadd_positive (u v : spec_float) :
  SpecFloat.valid_binary prec emax u = true ->
  SpecFloat.valid_binary prec emax v = true ->
  above_zero u -> above_zero v -> above_zero (SFadd prec emax u v).
Proof.
  intros Vu Vv [(m & e & ->)| ->] [(m' & e' & ->)| ->];
    try (right; reflexivity).
  apply valid_exponent in Vu, Vv.
  cbn [SFadd cond_Zopp]. cbn [Z.add].
  unfold binary_normalize, binary_round.
  set (p := (fst (shl_align m e (Z.min e e')) + fst (shl_align m' e' (Z.min e e')))%positive).
  set (ez := Z.min e e').
  assert (Hez : SpecFloat.emin prec emax <= ez) by (unfold ez; lia).
  assert (Hal : SpecFloat.emin prec emax
                <= snd (shl_align p ez (fexp prec emax (Zpos (digits2_pos p) + ez)))).
  { unfold shl_align, fexp.
    destruct (Z.max (Z.pos (digits2_pos p) + ez - prec) (SpecFloat.emin prec emax) - ez) eqn:E;
      cbn [snd]; lia. }
  destruct (shl_align p ez (fexp prec emax (Zpos (digits2_pos p) + ez))) as [mz ez'].
  now apply binary_round_aux_positive.
Qed.

End Binary64Sum.

Section Binary64SumOfRadii.

Variables libm_cos libm_sin : float -> float.

Local Hint Extern 0 (DoubleOps float) =>
  exact (binary64 libm_cos libm_sin) : typeclass_instances.

Local Open Scope float_scope.

Lemma above_zero_iff (a : float) :
  above_zero (Prim2SF a) <-> (0 <? a) = true.
Proof.
  split.
  - rewrite ltb_spec. change (Prim2SF 0) with (S754_zero false).
    now intros [(m & e & ->)| ->].
  - apply positive_cases.
Qed.

(** The sum of two doubles above zero is above zero (it may be infinite). *)
Lemma float_add_positive (a b : float) :
  (0 <? a) = true -> (0 <? b) = true -> (0 <? a + b) = true.
Proof.
  intros Ha Hb. apply above_zero_iff. rewrite add_spec.
  apply SFadd_positive; try apply Prim2SF_valid; now apply above_zero_iff.
Qed.

Lemma fold_add_positive (rs : list float) (acc : float) :
  (0 <? acc) = true -> Forall (fun r => (0 <? r) = true) rs ->
  (0 <? fold_left PrimFloat.add rs acc) = true.
Proof.
  revert acc. induction rs as [|r rs IH]; intros acc Hacc Hrs; cbn.
  - exact Hacc.
  - inversion Hrs as [|? ? Hr Hrs']. subst.
    apply IH; [|exact Hrs']. now apply float_add_positive.
Qed.

(** X13.  The sum of step (6) over constructed circles is never NaN and never
    below zero, whatever the rounding: it is [0.0] for no circle and above
    zero (possibly infinite) as soon as there is one. *)
Theorem sum_of_radii_is_never_nan
  (circles : list (shared_ptr (Circle float))) :
  Forall (fun c => constructed_circle (pointee c)) circles ->
  (sum_radii circles =? sum_radii circles) = true
  /\ (circles = [] -> sum_radii circles = 0)
  /\ (circles <> [] -> (0 <? sum_radii circles) = true).
Proof.
  intros Hc.
  assert (Hpos : circles <> [] -> (0 <? sum_radii circles) = true).
  { intros Hne. rewrite sum_radii_of_radii.
    apply (constructed_radii_positive libm_cos libm_sin) in Hc.
    destruct circles as [|c rest]; [congruence|].
    cbn [radii map fold_left] in *. inversion Hc as [|? ? Hr Hrest]. subst.
    apply fold_add_positive; [|exact Hrest].
    cbn. now rewrite (float_add_0_l_positive _ Hr). }
  split; [|split]; trivial.
  - destruct circles as [|c rest]; [reflexivity|].
    apply positive_eqb_refl. apply Hpos. discriminate.
  - now intros ->.
Qed.

End Binary64SumOfRadii.

(** * The filter loop and the pointer conversions *)

Section FilterFacts.

Context {D : Type}.

Lemma map_as_Curve_injective (l l' : list (shared_ptr (Circle D))) :
  map as_Curve l = map as_Curve l' -> l = l'.
Proof.
  revert l'. induction l as [|a l IH]; intros [|b l'] E;
    try discriminate; [reflexivity|].
  cbn [map] in E. injection E as Ea Ep El.
  apply IH in El. destruct a, b. cbn in Ea, Ep. now subst.
Qed.

Lemma filter_is_Circle_as_Curve (circles : list (shared_ptr (Circle D))) :
  filter is_Circle (map as_Curve circles) = map as_Curve circles.
Proof.
  induction circles as [|c circles IH]; cbn; [reflexivity|].
  now rewrite IH.
Qed.

(** X14.  The loop of step (4) works through a sequence piece by piece, takes
    nothing from a sequence twice, and undoes the conversion of circle
    pointers to curve pointers: filtering the converted pointers gives back
    the circle pointers, same objects, same order. *)
Theorem extract_circles_composes
  (curves curves' : list (shared_ptr (Curve D)))
  (circles : list (shared_ptr (Circle D))) :
  extract_circles (curves ++ curves')
  = extract_circles curves ++ extract_circles curves'
  /\ extract_circles (map as_Curve circles) = circles
  /\ extract_circles (map as_Curve (extract_circles curves))
     = extract_circles curves
  /\ (length (extract_circles curves) <= length curves)%nat.
Proof.
  assert (Hround : forall cs : list (shared_ptr (Circle D)),
            extract_circles (map as_Curve cs) = cs).
  { intros cs. apply map_as_Curve_injective.
    rewrite extract_circles_filter. apply filter_is_Circle_as_Curve. }
  split; [|split; [|split]].
  - apply map_as_Curve_injective.
    rewrite map_app, !extract_circles_filter. apply filter_app.
  - apply Hround.
  - apply Hround.
  - rewrite <- (length_map as_Curve), extract_circles_filter.
    apply filter_length_le.
Qed.

End FilterFacts.

(** * Ellipse and helix at the start of the turn *)

Section Binary64Start.

Variables libm_cos libm_sin : float -> float.

Local Hint Extern 0 (DoubleOps float) =>
  exact (binary64 libm_cos libm_sin) : typeclass_instances.

Local Open Scope float_scope.

(** A finite double times [0.0], divided by [2 * M_PI], is a zero. *)
Lemma mul_zero_div_2pi (a : float) :
  is_real a = true -> (a * 0 / (2 * 0x1.921fb54442d18p+1) =? 0) = true.
Proof.
  intros Hf. unfold is_real in Hf.
  rewrite eqb_spec, div_spec, mul_spec.
  change (Prim2SF 0) with (S754_zero false).
  change (Prim2SF (2 * 0x1.921fb54442d18p+1))
    with (S754_finite false 7074237752028440 (-50)).
  destruct (Prim2SF a) as [s|s| |s m e]; try discriminate; reflexivity.
Qed.

(** X15.  At [t = 0], with a [<cmath>] for which [cos 0 = 1] and
    [sin 0 = 0]: an ellipse of finite axes above zero is at (rx, 0, 0) with
    derivative (-0, ry, 0); a helix of finite radius above zero and finite
    pitch is at (r, 0, z) with [z == 0], and its derivative is
    (-0, r, pitch / (2 * M_PI)). *)
Theorem ellipse_and_helix_at_zero (rx_ ry_ radius step_ : float) :
  libm_cos 0 = 1 -> libm_sin 0 = 0 ->
  ((0 <? rx_) = true -> is_real rx_ = true ->
   (0 <? ry_) = true -> is_real ry_ = true ->
   Ellipse_getPoint (Ellipse_ctor rx_ ry_) 0 = {| x := rx_; y := 0; z := 0 |}
   /\ Ellipse_getDerivative (Ellipse_ctor rx_ ry_) 0
      = {| x := - 0; y := ry_; z := 0 |})
  /\ ((0 <? radius) = true -> is_real radius = true ->
      is_real step_ = true ->
      x (Helix_getPoint (Helix_ctor radius step_) 0) = radius
      /\ y (Helix_getPoint (Helix_ctor radius step_) 0) = 0
      /\ (z (Helix_getPoint (Helix_ctor radius step_) 0) =? 0) = true
      /\ Helix_getDerivative (Helix_ctor radius step_) 0
         = {| x := - 0; y := radius; z := step_ / (2 * M_PI) |}).
Proof.
  intros Hcos Hsin. split.
  - intros Hx Hfx Hy Hfy.
    unfold Ellipse_getPoint, Ellipse_getDerivative, Ellipse_ctor. cbn.
    rewrite Hx, Hy, Hcos, Hsin, !float_mul_1_r.
    destruct (positive_finite_mul_0 _ Hx Hfx) as [_ ->].
    destruct (positive_finite_mul_0 _ Hy Hfy) as [-> _].
    split; reflexivity.
  - intros Hr Hfr Hfs.
    unfold Helix_getPoint, Helix_getDerivative, Helix_ctor. cbn.
    rewrite Hr, Hcos, Hsin, !float_mul_1_r.
    destruct (positive_finite_mul_0 _ Hr Hfr) as [-> ->].
    repeat split. now apply mul_zero_div_2pi.
Qed.

End Binary64Start.

(** * More closed examples *)

Section MoreExamples.

Local Existing Instance binary64_poly.
Local Open Scope float_scope.

Lemma circle_9_a_a_constructed :
  Forall (fun c => constructed_circle (pointee c))
    [circle_9; circle_a1; circle_a2].
Proof.
  constructor; [now exists 9|].
  constructor; [now exists 0x1.0000000000004p+0|].
  constructor; [now exists 0x1.0000000000004p+0|].
  constructor.
Qed.

Lemma cycle_dist_in_range (g : nat) :
  in_demo_range (fst (cycle_dist g)) = true.
Proof.
  unfold cycle_dist. cbn [fst]. now destruct (g mod 3)%nat as [|[|n]].
Qed.

(** X4 at NaN. *)
Lemma nan_radius_is_replaced_by_one_witness :
  (nan =? nan) = false
  /\ (nan <=? 0) = false
  /\ Circle_ctor nan = Circle_ctor 1
  /\ Ellipse_ctor nan 5 = Ellipse_ctor 1 5
  /\ Helix_ctor nan nan = Helix_ctor 1 nan.
Proof.
  assert (Hnan : (nan =? nan) = false) by reflexivity.
  destruct (nan_radius_is_replaced_by_one poly_cos poly_sin nan Hnan)
    as (Hle & Hc & He & _ & Hh).
  split; [exact Hnan|]. split; [exact Hle|]. split; [exact Hc|].
  split; [exact (He 5) | exact (Hh nan)].
Defined.

(** X7 at the circles of radii 9 and 1 + 2^-50, exchanged. *)
Lemma sum_of_up_to_two_radii_ignores_order_witness :
  Forall (fun c => constructed_circle (pointee c)) [circle_9; circle_a1]
  /\ (length [circle_9; circle_a1] <= 2)%nat
  /\ Permutation [circle_9; circle_a1] [circle_a1; circle_9]
  /\ sum_radii [circle_a1; circle_9] = sum_radii [circle_9; circle_a1].
Proof.
  assert (Hc : Forall (fun c => constructed_circle (pointee c))
                 [circle_9; circle_a1]).
  { constructor; [now exists 9|].
    constructor; [now exists 0x1.0000000000004p+0|]. constructor. }
  assert (Hlen : (length [circle_9; circle_a1] <= 2)%nat) by (cbn; lia).
  assert (Hp : Permutation [circle_9; circle_a1] [circle_a1; circle_9])
    by apply perm_swap.
  destruct (sum_of_up_to_two_radii_ignores_order poly_cos poly_sin
              [circle_9; circle_a1] [circle_a1; circle_9] Hc Hlen Hp)
    as [Hsum _].
  repeat split; assumption.
Defined.

(** X8 at the cycling random source, arguments drawn left to right. *)
Lemma program_sorts_the_drawn_circles_witness :
  std_sort by_radius
    (extract_circles (populate cycle_typeDist cycle_dist true true 0%nat))
    (insertion_sort by_radius
       (extract_circles (populate cycle_typeDist cycle_dist true true 0%nat)))
  /\ (forall g, in_demo_range (fst (cycle_dist g)) = true)
  /\ (length
        (insertion_sort by_radius
           (extract_circles
              (populate cycle_typeDist cycle_dist true true 0%nat))) <= 10)%nat
  /\ Forall (fun c => (exists g, getRadius (pointee c) = fst (cycle_dist g))
                      /\ in_demo_range (getRadius (pointee c)) = true)
       (insertion_sort by_radius
          (extract_circles
             (populate cycle_typeDist cycle_dist true true 0%nat))).
Proof.
  assert (Hsort :
    std_sort by_radius
      (extract_circles (populate cycle_typeDist cycle_dist true true 0%nat))
      (insertion_sort by_radius
         (extract_circles
            (populate cycle_typeDist cycle_dist true true 0%nat)))).
  { apply insertion_sort_meets_contract.
    - exact (by_radius_asym poly_cos poly_sin).
    - exact (by_radius_trans poly_cos poly_sin). }
  destruct (program_sorts_the_drawn_circles poly_cos poly_sin
              cycle_typeDist cycle_dist true true 0%nat _ Hsort)
    as (Hlen & _ & _ & _ & Hrange).
  split; [exact Hsort|]. split; [exact cycle_dist_in_range|].
  split; [exact Hlen | exact (Hrange cycle_dist_in_range)].
Defined.

(** X13 at the circles of radii 9, 1 + 2^-50, 1 + 2^-50. *)
Lemma sum_of_radii_is_never_nan_witness :
  Forall (fun c => constructed_circle (pointee c))
    [circle_9; circle_a1; circle_a2]
  /\ (sum_radii [circle_9; circle_a1; circle_a2]
      =? sum_radii [circle_9; circle_a1; circle_a2]) = true
  /\ (0 <? sum_radii [circle_9; circle_a1; circle_a2]) = true.
Proof.
  destruct (sum_of_radii_is_never_nan poly_cos poly_sin
              [circle_9; circle_a1; circle_a2] circle_9_a_a_constructed)
    as (Hnan & _ & Hpos).
  split; [exact circle_9_a_a_constructed|]. split; [exact Hnan|].
  apply Hpos. discriminate.
Defined.

(** X15 at an ellipse of axes 3 and 2 and a helix of radius 3 and pitch
    -1. *)
Lemma ellipse_and_helix_at_zero_witness :
  poly_cos 0 = 1 /\ poly_sin 0 = 0
  /\ Ellipse_getPoint (Ellipse_ctor 3 2) 0 = {| x := 3; y := 0; z := 0 |}
  /\ Ellipse_getDerivative (Ellipse_ctor 3 2) 0
     = {| x := - 0; y := 2; z := 0 |}
  /\ z (Helix_getPoint (Helix_ctor 3 (-1)) 0) = - 0
  /\ (z (Helix_getPoint (Helix_ctor 3 (-1)) 0) =? 0) = true.
Proof.
  assert (Hcos : poly_cos 0 = 1) by reflexivity.
  assert (Hsin : poly_sin 0 = 0) by reflexivity.
  destruct (ellipse_and_helix_at_zero poly_cos poly_sin 3 2 3 (-1) Hcos Hsin)
    as [He Hh].
  destruct (He eq_refl eq_refl eq_refl eq_refl) as [Hp Hd].
  destruct (Hh eq_refl eq_refl eq_refl) as (_ & _ & Hz & _).
  split; [exact Hcos|]. split; [exact Hsin|]. split; [exact Hp|].
  split; [exact Hd|]. split; [reflexivity | exact Hz].
Defined.

End MoreExamples.

(** * The sort step on closed examples *)

Section SortExamples.

Local Existing Instance binary64_poly.
Local Open Scope float_scope.




(** C9 at the circles of radii 9, 1 + 2^-50, 1 + 2^-50. *)
Lemma sort_rearranges_witness :
  std.sort by_radius [circle_9; circle_a1; circle_a2]
  = Some [circle_a1; circle_a2; circle_9]
  /\ length [circle_a1; circle_a2; circle_9]
     = length [circle_9; circle_a1; circle_a2]
  /\ count_address 0 [circle_a1; circle_a2; circle_9]
     = count_address 0 [circle_9; circle_a1; circle_a2].
Proof.
  assert (E : std.sort by_radius [circle_9; circle_a1; circle_a2]
              = Some [circle_a1; circle_a2; circle_9]) by reflexivity.
  destruct (sort_rearranges poly_cos poly_sin) as (_ & Hall & _).
  destruct (Hall _ _ E) as (Hlen & _ & _ & Hcount & _).
  split; [exact E|]. split; [exact Hlen | exact (Hcount 0%nat)].
Defined.


(** X5 at radius 2 and [t = 0.5]. *)
Lemma derivative_is_point_turned_by_a_quarter_witness :
  (x (Circle_getPoint (Circle_ctor 2) 0.5)
   =? x (Circle_getPoint (Circle_ctor 2) 0.5)) = true
  /\ (y (Circle_getPoint (Circle_ctor 2) 0.5)
      =? y (Circle_getPoint (Circle_ctor 2) 0.5)) = true
  /\ Circle_getDerivative (Circle_ctor 2) 0.5
     = {| x := - y (Circle_getPoint (Circle_ctor 2) 0.5);
          y := x (Circle_getPoint (Circle_ctor 2) 0.5);
          z := z (Circle_getPoint (Circle_ctor 2) 0.5) |}.
Proof.
  assert (Hx : (x (Circle_getPoint (Circle_ctor 2) 0.5)
                =? x (Circle_getPoint (Circle_ctor 2) 0.5)) = true)
    by reflexivity.
  assert (Hy : (y (Circle_getPoint (Circle_ctor 2) 0.5)
                =? y (Circle_getPoint (Circle_ctor 2) 0.5)) = true)
    by reflexivity.
  destruct (derivative_is_point_turned_by_a_quarter poly_cos poly_sin
              2 1 0.5 Hx Hy) as (Hd & _).
  split; [exact Hx|]. split; [exact Hy | exact Hd].
Defined.

End SortExamples.
